(** * Self-healing OS simulator: the in-memory store of [server/storage.ts]

    A shallow embedding of [MemStorage] (processes, files, the log buffer,
    fault injection, healing, targeted repair and the health aggregator)
    and the properties of it that the specification states.

    Conventions of the embedding.
    - A JavaScript [number] that holds a measurement (cpu, memory) is an
      exact rational [Q]; integers (pids, sizes, timestamps) are [Z].
      Rounding of IEEE doubles is not modelled.
    - [Math.random()], [Date.now()] and [randomUUID()] are oracles: the
      n-th call of each returns the n-th value of a stream held in [Env];
      the store carries the number of calls made so far.
    - A JavaScript [Map] is the list of its entries in insertion order; an
      object held by the map is identified by the entry it sits in, so
      mutating an object reached through [Array.from(map.values())] is an
      update of that entry.
    - An uncaught [TypeError] (property access on [undefined]) is the value
      [None] of the round that raised it. *)

From Stdlib Require Import List ZArith QArith Qround Qminmax Qabs Bool Lia Lqa.
From Stdlib Require Import String Ascii DecimalString Sorted.
Import ListNotations.

Local Open Scope Q_scope.
Local Open Scope string_scope.
Local Open Scope list_scope.

(** ** shared/schema.ts *)

Inductive ProcessStatus := running | crashed | frozen | high_load.

Record Process := mkProcess {
  pid : Z;
  pname : string;
  memory : Q;
  cpu : Q;
  heartbeat : Z;
  status : ProcessStatus
}.

Record SystemFile := mkFile {
  fid : string;
  fname : string;
  path : string;
  size : Z;
  checksum : string;
  corrupted : bool;
  lastModified : Z
}.

Inductive LogType := info | warning | error | success.

Record InsertLog := mkInsertLog {
  i_type : LogType;
  i_event : string;
  i_description : string
}.

Record LogEntry := mkLog {
  lid : string;
  timestamp : Z;
  ltype : LogType;
  event : string;
  description : string
}.

Inductive HealthStatus := healthy | warn | critical.

Record SystemHealth := mkHealth {
  cpuUsage : Q;
  memoryUsage : Q;
  totalProcesses : nat;
  healthyProcesses : nat;
  faultyProcesses : Z;
  totalFiles : nat;
  corruptedFiles : nat;
  hstatus : HealthStatus;
  lastUpdated : Z
}.

Inductive FaultType := crash | freeze | high_load_fault | corruption | missing_file.
Inductive Severity := low | medium | high | crit.

(** [targetId] is [number | string]. *)
Inductive TargetId := PidId (n : Z) | FileId (s : string).

Record Fault := mkFault {
  ftype : FaultType;
  f_targetId : TargetId;
  f_targetName : string;
  severity : Severity;
  f_description : string
}.

Record HealResult := mkHeal {
  h_success : bool;
  action : string;
  targetId : TargetId;
  targetName : string;
  message : string
}.

(** [Partial<Process>], the argument of [updateProcess]. *)
Record PartialProcess := mkPartial {
  u_pid : option Z;
  u_name : option string;
  u_memory : option Q;
  u_cpu : option Q;
  u_heartbeat : option Z;
  u_status : option ProcessStatus
}.

(** [Partial<SystemFile>], the argument of [updateFile]. *)
Record PartialFile := mkPartialFile {
  u_fid : option string;
  u_fname : option string;
  u_path : option string;
  u_size : option Z;
  u_checksum : option string;
  u_corrupted : option bool;
  u_lastModified : option Z
}.

(** [SystemState], the full dashboard snapshot. *)
Record SystemState := mkState {
  s_processes : list Process;
  s_files : list SystemFile;
  s_logs : list LogEntry;
  s_health : SystemHealth
}.

(** What a route handler answers: [res.json(data)], or
    [res.status(code).json({ success: false, error })]. *)
Inductive Reply (A : Type) :=
  | Sent (data : A)
  | Refused (code : nat) (error : string).
Arguments Sent {A} data.
Arguments Refused {A} code error.

Definition status_eqb (a b : ProcessStatus) : bool :=
  match a, b with
  | running, running | crashed, crashed
  | frozen, frozen | high_load, high_load => true
  | _, _ => false
  end.

(** Field assignments on the mutable objects. *)
Definition set_status (s : ProcessStatus) (p : Process) : Process :=
  mkProcess (pid p) (pname p) (memory p) (cpu p) (heartbeat p) s.
Definition set_cpu (c : Q) (p : Process) : Process :=
  mkProcess (pid p) (pname p) (memory p) c (heartbeat p) (status p).
Definition set_memory (m : Q) (p : Process) : Process :=
  mkProcess (pid p) (pname p) m (cpu p) (heartbeat p) (status p).
Definition set_heartbeat (h : Z) (p : Process) : Process :=
  mkProcess (pid p) (pname p) (memory p) (cpu p) h (status p).
Definition set_corrupted (b : bool) (f : SystemFile) : SystemFile :=
  mkFile (fid f) (fname f) (path f) (size f) (checksum f) b (lastModified f).
Definition set_checksum (c : string) (f : SystemFile) : SystemFile :=
  mkFile (fid f) (fname f) (path f) (size f) c (corrupted f) (lastModified f).
Definition set_lastModified (t : Z) (f : SystemFile) : SystemFile :=
  mkFile (fid f) (fname f) (path f) (size f) (checksum f) (corrupted f) t.

(** ** JavaScript library functions used by the store *)

(** [arr.slice(-n)]: the last [n] elements. *)
Definition slice_last {A} (n : nat) (l : list A) : list A :=
  skipn (List.length l - n) l.

(** [s.slice(n)] and [s.slice(0, n)] on strings. *)
Fixpoint str_drop (n : nat) (s : string) : string :=
  match n, s with
  | O, _ => s
  | S n', String _ s' => str_drop n' s'
  | S _, EmptyString => EmptyString
  end.

Fixpoint str_take (n : nat) (s : string) : string :=
  match n, s with
  | S n', String c s' => String c (str_take n' s')
  | _, _ => EmptyString
  end.

(** [s.replace(/-/g, "")]. *)
Fixpoint remove_dashes (s : string) : string :=
  match s with
  | EmptyString => EmptyString
  | String c s' =>
      if Ascii.eqb c "-"%char then remove_dashes s'
      else String c (remove_dashes s')
  end.

(** Template-literal rendering of an integer. *)
Definition show_Z (z : Z) : string := NilZero.string_of_int (Z.to_int z).

(** [x.toFixed(1)]: the nearest tenth, ties upwards, sign in front. *)
Definition toFixed1 (x : Q) : string :=
  let a := Qabs x in
  let n := Qfloor (a * 10 + (1 # 2)) in
  ((if Qle_bool 0 x then "" else "-")
    ++ show_Z (n / 10) ++ "." ++ show_Z (n mod 10))%string.

Definition Qltb (x y : Q) : bool := negb (Qle_bool y x).

(** [Math.floor(x)] as an array index: a negative index reads [undefined]. *)
Definition js_index (x : Q) : option nat :=
  let z := Qfloor x in
  if (z <? 0)%Z then None else Some (Z.to_nat z).

(** ** A [Map] as its entries in insertion order *)

Section JsMap.
Context {K V : Type} (keq : K -> K -> bool).

Fixpoint map_get (k : K) (m : list (K * V)) : option V :=
  match m with
  | [] => None
  | (k', v) :: m' => if keq k k' then Some v else map_get k m'
  end.

(** [m.set(k, v)] replaces the value of an existing entry in place and
    appends a new entry otherwise. *)
Fixpoint map_set (k : K) (v : V) (m : list (K * V)) : list (K * V) :=
  match m with
  | [] => [(k, v)]
  | (k', v') :: m' =>
      if keq k k' then (k, v) :: m' else (k', v') :: map_set k v m'
  end.

(** Mutation of the object stored under [k]. *)
Fixpoint map_mutate (k : K) (f : V -> V) (m : list (K * V)) : list (K * V) :=
  match m with
  | [] => []
  | (k', v) :: m' =>
      if keq k k' then (k', f v) :: m' else (k', v) :: map_mutate k f m'
  end.

Definition map_values (m : list (K * V)) : list V := map snd m.

(** [const xs = Array.from(m.values()).filter(ok); const target = xs[i];]
    followed by assignments [g] to the fields of [target]: the [i]-th
    value satisfying [ok] is mutated where it sits. The caller has read
    [target] as [nth_error xs i] before. *)
Fixpoint mutate_kth (ok : V -> bool) (i : nat) (g : V -> V)
    (m : list (K * V)) : list (K * V) :=
  match m with
  | [] => []
  | (k, v) :: m' =>
      if ok v then
        match i with
        | O => (k, g v) :: m'
        | S i' => (k, v) :: mutate_kth ok i' g m'
        end
      else (k, v) :: mutate_kth ok i g m'
  end.
End JsMap.

(** ** The environment and the store *)

Record Env := mkEnv {
  Math_random : nat -> Q;
  Date_now : nat -> Z;
  randomUUID : nat -> string
}.

(** [Math.random()] returns a value in [[0, 1)]. *)
Definition random_unit (E : Env) : Prop :=
  forall n, 0 <= Math_random E n /\ Math_random E n < 1.

(** The clock never steps backwards. *)
Definition clock_monotone (E : Env) : Prop :=
  forall n, (Date_now E n <= Date_now E (S n))%Z.

Record MemStorage := mkStore {
  processes : list (Z * Process);
  files : list (string * SystemFile);
  logs : list LogEntry;
  initialized : bool;
  nextPid : Z
}.

(** The store together with the number of oracle calls made so far. *)
Record World := mkWorld {
  mem : MemStorage;
  rnd_calls : nat;
  now_calls : nat;
  uuid_calls : nat
}.

Definition M (A : Type) : Type := World -> A * World.

Definition ret {A} (a : A) : M A := fun w => (a, w).
Definition bind {A B} (m : M A) (k : A -> M B) : M B :=
  fun w => let (a, w') := m w in k a w'.

Declare Scope m_scope.
Delimit Scope m_scope with M.
Notation "x <- m ;; k" := (bind m (fun x => k))
  (at level 61, m at next level, right associativity) : m_scope.
Notation "m ;; k" := (bind m (fun _ => k))
  (at level 61, right associativity) : m_scope.
Local Open Scope m_scope.

Definition gets {A} (f : MemStorage -> A) : M A := fun w => (f (mem w), w).
Definition modify (f : MemStorage -> MemStorage) : M unit :=
  fun w => (tt, mkWorld (f (mem w)) (rnd_calls w) (now_calls w) (uuid_calls w)).

Definition set_processes (ps : list (Z * Process)) (s : MemStorage) :=
  mkStore ps (files s) (logs s) (initialized s) (nextPid s).
Definition set_files (fs : list (string * SystemFile)) (s : MemStorage) :=
  mkStore (processes s) fs (logs s) (initialized s) (nextPid s).
Definition set_logs (ls : list LogEntry) (s : MemStorage) :=
  mkStore (processes s) (files s) ls (initialized s) (nextPid s).
Definition set_initialized (b : bool) (s : MemStorage) :=
  mkStore (processes s) (files s) (logs s) b (nextPid s).
Definition set_nextPid (n : Z) (s : MemStorage) :=
  mkStore (processes s) (files s) (logs s) (initialized s) n.

Section Storage.
Variable E : Env.

Definition random : M Q := fun w =>
  (Math_random E (rnd_calls w),
   mkWorld (mem w) (S (rnd_calls w)) (now_calls w) (uuid_calls w)).

Definition now : M Z := fun w =>
  (Date_now E (now_calls w),
   mkWorld (mem w) (rnd_calls w) (S (now_calls w)) (uuid_calls w)).

Definition uuid : M string := fun w =>
  (randomUUID E (uuid_calls w),
   mkWorld (mem w) (rnd_calls w) (now_calls w) (S (uuid_calls w))).

Definition generateChecksum : M string :=
  u <- uuid ;; ret (str_take 32 (remove_dashes u)).

Definition randomBetween (min max : Q) : M Q :=
  r <- random ;; ret (r * (max - min) + min).

(** *** Logs *)

Definition getLogs : M (list LogEntry) :=
  ls <- gets logs ;; ret (rev (slice_last 50 ls)).

Definition addLog (log : InsertLog) : M LogEntry :=
  i <- uuid ;;
  t <- now ;;
  let entry := mkLog i t (i_type log) (i_event log) (i_description log) in
  modify (fun s => set_logs (logs s ++ [entry]) s) ;;
  n <- gets (fun s => List.length (logs s)) ;;
  (if (100 <? n)%nat
   then modify (fun s => set_logs (slice_last 100 (logs s)) s)
   else ret tt) ;;
  ret entry.

(** *** Loops *)

(** [for (let i = from; i < from + count; i++) body(i)]. *)
Fixpoint for_range (from count : nat) (body : nat -> M unit) : M unit :=
  match count with
  | O => ret tt
  | S c => body from ;; for_range (S from) c body
  end.

(** [for (const x of xs) body(x)]. *)
Fixpoint for_of {A} (xs : list A) (body : A -> M unit) : M unit :=
  match xs with
  | [] => ret tt
  | x :: xs' => body x ;; for_of xs' body
  end.

(** [for (const v of Array.from(m.values())) body(v)] where the body may
    assign to fields of [v] and to a local accumulator [acc]: each entry
    keeps its key and receives the object as the body left it. *)
Fixpoint for_each_value {K V S} (body : V -> S -> M (V * S))
    (m : list (K * V)) (acc : S) : M (list (K * V) * S) :=
  match m with
  | [] => ret ([], acc)
  | (k, v) :: m' =>
      r <- body v acc ;;
      let (v', acc') := r in
      r' <- for_each_value body m' acc' ;;
      let (m'', acc'') := r' in
      ret ((k, v') :: m'', acc'')
  end.

(** The two loops over the store's own maps. The bodies used below reach
    the store only through [addLog], which touches [logs] alone, so the
    mutated objects are written back when the loop ends. *)
Definition for_processes {S} (body : Process -> S -> M (Process * S))
    (acc : S) : M S :=
  ps <- gets processes ;;
  r <- for_each_value body ps acc ;;
  modify (set_processes (fst r)) ;;
  ret (snd r).

Definition for_files {S} (body : SystemFile -> S -> M (SystemFile * S))
    (acc : S) : M S :=
  fs <- gets files ;;
  r <- for_each_value body fs acc ;;
  modify (set_files (fst r)) ;;
  ret (snd r).

(** *** Initialisation *)

Definition PROCESS_NAMES : list string :=
  [ "kernel_scheduler"; "memory_manager"; "file_system_watcher";
    "network_handler"; "user_session_manager"; "security_monitor";
    "log_collector"; "backup_service"; "cache_manager"; "disk_io_handler" ].

Definition FILE_TEMPLATES : list (string * string * Z) :=
  [ ("config.json", "/etc/system/config.json", 2048%Z);
    ("kernel.log", "/var/log/kernel.log", 45000%Z);
    ("auth.db", "/var/data/auth.db", 128000%Z);
    ("cache.dat", "/tmp/cache.dat", 65536%Z);
    ("network.conf", "/etc/network/network.conf", 1024%Z);
    ("security.key", "/etc/security/security.key", 512%Z);
    ("backup.tar", "/var/backup/backup.tar", 256000%Z);
    ("users.json", "/etc/users/users.json", 4096%Z) ].

Definition init_process (i : nat) : M unit :=
  p <- gets nextPid ;;
  modify (set_nextPid (p + 1)%Z) ;;
  m <- randomBetween 50 500 ;;
  c <- randomBetween 1 30 ;;
  h <- now ;;
  let process :=
    mkProcess p (nth (i mod List.length PROCESS_NAMES) PROCESS_NAMES "")
              m c h running in
  modify (fun s => set_processes (map_set Z.eqb p process (processes s)) s).

Definition init_file (template : string * string * Z) : M unit :=
  let '(t_name, t_path, t_size) := template in
  i <- uuid ;;
  cs <- generateChecksum ;;
  t <- now ;;
  r <- random ;;
  let file :=
    mkFile i t_name t_path t_size cs false (t - Qfloor (r * 86400000))%Z in
  modify (fun s => set_files (map_set String.eqb i file (files s)) s).

Definition initializeSystem : M unit :=
  done <- gets initialized ;;
  if done then ret tt
  else
    for_range 0 6 init_process ;;
    for_of FILE_TEMPLATES init_file ;;
    addLog (mkInsertLog info "System Initialized"
      "Self-Healing OS Simulator started successfully. All systems operational.") ;;
    modify (set_initialized true).

(** [new MemStorage()]. *)
Definition empty_world : World :=
  mkWorld (mkStore [] [] [] false 1001%Z) 0 0 0.

Definition new_MemStorage : World := snd (initializeSystem empty_world).

(** *** Background drift: one tick of the [setInterval] callback *)

Definition drift_process (p : Process) (_ : unit) : M (Process * unit) :=
  if status_eqb (status p) running then
    dc <- randomBetween (-5) 5 ;;
    let p1 := set_cpu (Qmax (1 # 2) (Qmin 99 (cpu p + dc))) p in
    dm <- randomBetween (-20) 20 ;;
    let p2 := set_memory (Qmax 10 (Qmin 900 (memory p1 + dm))) p1 in
    h <- now ;;
    ret (set_heartbeat h p2, tt)
  else ret (p, tt).

Definition driftTick : M unit := for_processes drift_process tt.

(** *** Accessors and partial update *)

Definition getProcesses : M (list Process) :=
  ps <- gets processes ;; ret (map_values ps).

Definition getFiles : M (list SystemFile) :=
  fs <- gets files ;; ret (map_values fs).

Definition or_else {A} (o : option A) (d : A) : A :=
  match o with Some a => a | None => d end.

(** [Object.assign(process, updates)]. *)
Definition assign_process (u : PartialProcess) (p : Process) : Process :=
  mkProcess (or_else (u_pid u) (pid p)) (or_else (u_name u) (pname p))
            (or_else (u_memory u) (memory p)) (or_else (u_cpu u) (cpu p))
            (or_else (u_heartbeat u) (heartbeat p))
            (or_else (u_status u) (status p)).

Definition updateProcess (p : Z) (updates : PartialProcess)
    : M (option Process) :=
  ps <- gets processes ;;
  match map_get Z.eqb p ps with
  | Some process =>
      modify (fun s =>
        set_processes (map_mutate Z.eqb p (assign_process updates) (processes s)) s) ;;
      ret (Some (assign_process updates process))
  | None => ret None
  end.

Definition assign_file (u : PartialFile) (f : SystemFile) : SystemFile :=
  mkFile (or_else (u_fid u) (fid f)) (or_else (u_fname u) (fname f))
         (or_else (u_path u) (path f)) (or_else (u_size u) (size f))
         (or_else (u_checksum u) (checksum f))
         (or_else (u_corrupted u) (corrupted f))
         (or_else (u_lastModified u) (lastModified f)).

Definition updateFile (i : string) (updates : PartialFile)
    : M (option SystemFile) :=
  fs <- gets files ;;
  match map_get String.eqb i fs with
  | Some file =>
      modify (fun s =>
        set_files (map_mutate String.eqb i (assign_file updates) (files s)) s) ;;
      ret (Some (assign_file updates file))
  | None => ret None
  end.

(** *** Health *)

Definition is_running (p : Process) : bool := status_eqb (status p) running.

Definition getHealth : M SystemHealth :=
  ps <- getProcesses ;;
  fs <- getFiles ;;
  let total := List.length ps in
  let healthyN := List.length (filter is_running ps) in
  let faulty := (Z.of_nat total - Z.of_nat healthyN)%Z in
  let corruptedN := List.length (filter corrupted fs) in
  let avgCpu :=
    if (0 <? List.length ps)%nat
    then fold_left (fun sum p => sum + cpu p) ps 0
         / inject_Z (Z.of_nat (List.length ps))
    else 0 in
  let avgMemory :=
    if (0 <? List.length ps)%nat
    then fold_left (fun sum p => sum + memory p) ps 0
         / (inject_Z (Z.of_nat (List.length ps)) * 10)
    else 0 in
  let st :=
    if (2 <? faulty)%Z || (2 <? corruptedN)%nat || Qltb 80 avgCpu
    then critical
    else if (0 <? faulty)%Z || (0 <? corruptedN)%nat || Qltb 60 avgCpu
    then warn
    else healthy in
  t <- now ;;
  ret (mkHealth (Qmin 100 avgCpu) (Qmin 100 avgMemory) total healthyN faulty
                (List.length fs) corruptedN st t).

(** *** Fault injection *)

(** [xs[Math.floor(Math.random() * xs.length)]]; [None] is [undefined]. *)
Definition random_index (n : nat) : M (option nat) :=
  r <- random ;; ret (js_index (r * inject_Z (Z.of_nat n))).

Definition proc_label (p : Process) : string :=
  ("Process " ++ pname p ++ " (PID: " ++ show_Z (pid p) ++ ")")%string.

Definition inject_crash (faults : list Fault) : M (option (list Fault)) :=
  ps <- gets processes ;;
  let runningProcesses := filter is_running (map_values ps) in
  if (0 <? List.length runningProcesses)%nat then
    oi <- random_index (List.length runningProcesses) ;;
    match oi with
    | None => ret None
    | Some i =>
        match nth_error runningProcesses i with
        | None => ret None
        | Some target =>
            modify (set_processes
              (mutate_kth is_running i
                 (fun p => set_cpu 0 (set_status crashed p)) ps)) ;;
            let faults' := faults ++
              [mkFault crash (PidId (pid target)) (pname target) high
                 (proc_label target ++ " has crashed.")%string] in
            addLog (mkInsertLog error "Process Crashed"
              (proc_label target ++ " has crashed unexpectedly.")%string) ;;
            ret (Some faults')
        end
    end
  else ret (Some faults).

Definition inject_freeze (faults : list Fault) : M (option (list Fault)) :=
  ps <- gets processes ;;
  let runningProcesses := filter is_running (map_values ps) in
  if (0 <? List.length runningProcesses)%nat then
    oi <- random_index (List.length runningProcesses) ;;
    match oi with
    | None => ret None
    | Some i =>
        match nth_error runningProcesses i with
        | None => ret None
        | Some target =>
            t <- now ;;
            modify (set_processes
              (mutate_kth is_running i
                 (fun p => set_heartbeat (t - 60000)%Z (set_status frozen p))
                 ps)) ;;
            let faults' := faults ++
              [mkFault freeze (PidId (pid target)) (pname target) medium
                 (proc_label target ++ " is frozen and not responding.")%string] in
            addLog (mkInsertLog warning "Process Frozen"
              (proc_label target
                 ++ " stopped responding to heartbeat signals.")%string) ;;
            ret (Some faults')
        end
    end
  else ret (Some faults).

Definition inject_high_load (faults : list Fault) : M (option (list Fault)) :=
  ps <- gets processes ;;
  let runningProcesses := filter is_running (map_values ps) in
  if (0 <? List.length runningProcesses)%nat then
    oi <- random_index (List.length runningProcesses) ;;
    match oi with
    | None => ret None
    | Some i =>
        match nth_error runningProcesses i with
        | None => ret None
        | Some target =>
            c <- randomBetween 85 99 ;;
            m <- randomBetween 700 900 ;;
            modify (set_processes
              (mutate_kth is_running i
                 (fun p => set_memory m (set_cpu c (set_status high_load p)))
                 ps)) ;;
            let faults' := faults ++
              [mkFault high_load_fault (PidId (pid target)) (pname target)
                 medium
                 (proc_label target
                    ++ " is experiencing high resource usage.")%string] in
            addLog (mkInsertLog warning "High Load Detected"
              (proc_label target ++ " CPU at " ++ toFixed1 c
                 ++ "%, Memory at " ++ toFixed1 m ++ "MB.")%string) ;;
            ret (Some faults')
        end
    end
  else ret (Some faults).

Definition is_healthy_file (f : SystemFile) : bool := negb (corrupted f).

Definition inject_corruption (faults : list Fault) : M (option (list Fault)) :=
  fs <- gets files ;;
  let healthyFiles := filter is_healthy_file (map_values fs) in
  if (0 <? List.length healthyFiles)%nat then
    oi <- random_index (List.length healthyFiles) ;;
    match oi with
    | None => ret None
    | Some i =>
        match nth_error healthyFiles i with
        | None => ret None
        | Some target =>
            modify (set_files
              (mutate_kth is_healthy_file i
                 (fun f => set_checksum
                    ("CORRUPTED_" ++ str_drop 10 (checksum f))%string
                    (set_corrupted true f))
                 fs)) ;;
            let faults' := faults ++
              [mkFault corruption (FileId (fid target)) (fname target) high
                 ("File " ++ fname target ++ " at " ++ path target
                    ++ " has been corrupted.")%string] in
            addLog (mkInsertLog error "File Corrupted"
              ("File " ++ fname target ++ " at " ++ path target
                 ++ " checksum mismatch detected.")%string) ;;
            ret (Some faults')
        end
    end
  else ret (Some faults).

(** One iteration of the loop of [injectFaults]. *)
Definition injectRound (faults : list Fault) : M (option (list Fault)) :=
  faultType <- random ;;
  np <- gets (fun s => List.length (processes s)) ;;
  nf <- gets (fun s => List.length (files s)) ;;
  if Qltb faultType (3 # 10) && (0 <? np)%nat then inject_crash faults
  else if Qltb faultType (1 # 2) && (0 <? np)%nat then inject_freeze faults
  else if Qltb faultType (7 # 10) && (0 <? np)%nat then inject_high_load faults
  else if (0 <? nf)%nat then inject_corruption faults
  else ret (Some faults).

Fixpoint injectLoop (n : nat) (faults : list Fault)
    : M (option (list Fault)) :=
  match n with
  | O => ret (Some faults)
  | S n' =>
      r <- injectRound faults ;;
      match r with
      | None => ret None
      | Some faults' => injectLoop n' faults'
      end
  end.

Definition injectFaults : M (option (list Fault)) :=
  r <- random ;;
  let numFaults := (Qfloor (r * 3) + 1)%Z in
  res <- injectLoop (Z.to_nat numFaults) [] ;;
  match res with
  | None => ret None
  | Some faults =>
      (if (List.length faults =? 0)%nat then
         addLog (mkInsertLog info "Fault Injection"
           "Attempted fault injection but all systems are already faulty or no valid targets found.") ;;
         ret tt
       else ret tt) ;;
      ret (Some faults)
  end.

(** *** Healing *)

(** The records pushed onto [results]. *)
Definition restart_result (p : Process) : HealResult :=
  mkHeal true "restart" (PidId (pid p)) (pname p)
    (proc_label p ++ " has been restarted.")%string.

Definition unfreeze_result (p : Process) : HealResult :=
  mkHeal true "unfreeze" (PidId (pid p)) (pname p)
    (proc_label p ++ " heartbeat has been reset.")%string.

Definition optimize_result (p : Process) : HealResult :=
  mkHeal true "optimize" (PidId (pid p)) (pname p)
    (proc_label p ++ " load has been optimized.")%string.

Definition restore_result (f : SystemFile) : HealResult :=
  mkHeal true "restore" (FileId (fid f)) (fname f)
    ("File " ++ fname f ++ " has been restored from backup.")%string.

Definition heal_crashed (p : Process) (results : list HealResult)
    : M (Process * list HealResult) :=
  if status_eqb (status p) crashed then
    c <- randomBetween 5 25 ;;
    m <- randomBetween 50 200 ;;
    h <- now ;;
    let p' := set_heartbeat h (set_memory m (set_cpu c (set_status running p))) in
    let results' := results ++ [restart_result p'] in
    addLog (mkInsertLog success "Process Restarted"
      ("Successfully restarted crashed process " ++ pname p'
         ++ " (PID: " ++ show_Z (pid p') ++ ").")%string) ;;
    ret (p', results')
  else ret (p, results).

Definition heal_frozen (p : Process) (results : list HealResult)
    : M (Process * list HealResult) :=
  if status_eqb (status p) frozen then
    h <- now ;;
    let p' := set_heartbeat h (set_status running p) in
    let results' := results ++ [unfreeze_result p'] in
    addLog (mkInsertLog success "Process Unfrozen"
      ("Successfully unfroze process " ++ pname p'
         ++ " (PID: " ++ show_Z (pid p')
         ++ ") and restored heartbeat.")%string) ;;
    ret (p', results')
  else ret (p, results).

Definition heal_high_load (p : Process) (results : list HealResult)
    : M (Process * list HealResult) :=
  if status_eqb (status p) high_load then
    c <- randomBetween 10 40 ;;
    m <- randomBetween 100 300 ;;
    let p' := set_memory m (set_cpu c (set_status running p)) in
    let results' := results ++ [optimize_result p'] in
    addLog (mkInsertLog success "Load Optimized"
      ("Successfully optimized high-load process " ++ pname p'
         ++ " (PID: " ++ show_Z (pid p') ++ ").")%string) ;;
    ret (p', results')
  else ret (p, results).

Definition heal_corrupted (f : SystemFile) (results : list HealResult)
    : M (SystemFile * list HealResult) :=
  if corrupted f then
    cs <- generateChecksum ;;
    t <- now ;;
    let f' := set_lastModified t (set_checksum cs (set_corrupted false f)) in
    let results' := results ++ [restore_result f'] in
    addLog (mkInsertLog success "File Restored"
      ("Successfully restored corrupted file " ++ fname f' ++ " at "
         ++ path f' ++ ".")%string) ;;
    ret (f', results')
  else ret (f, results).

Definition healFaults : M (list HealResult) :=
  r1 <- for_processes heal_crashed [] ;;
  r2 <- for_processes heal_frozen r1 ;;
  r3 <- for_processes heal_high_load r2 ;;
  results <- for_files heal_corrupted r3 ;;
  (if (List.length results =? 0)%nat then
     addLog (mkInsertLog info "System Check"
       "No faults detected. All systems are operating normally.") ;;
     ret tt
   else ret tt) ;;
  ret results.

(** *** Targeted repair *)

Definition repairFile (fileId : string) : M HealResult :=
  fs <- gets files ;;
  match map_get String.eqb fileId fs with
  | None =>
      ret (mkHeal false "repair" (FileId fileId) "Unknown" "File not found.")
  | Some file =>
      if negb (corrupted file) then
        ret (mkHeal false "repair" (FileId fileId) (fname file)
               "File is not corrupted.")
      else
        cs <- generateChecksum ;;
        t <- now ;;
        modify (fun s => set_files
          (map_mutate String.eqb fileId
             (fun f => set_lastModified t (set_checksum cs (set_corrupted false f)))
             (files s)) s) ;;
        addLog (mkInsertLog success "File Repaired"
          ("Successfully repaired file " ++ fname file ++ " at " ++ path file
             ++ ". New checksum generated.")%string) ;;
        ret (mkHeal true "repair" (FileId fileId) (fname file)
               ("File " ++ fname file
                  ++ " has been successfully repaired.")%string)
  end.

(** *** Full state *)

(** [Promise.all] starts the four readers in this order and none of them
    yields to a timer or to another request before it has read. *)
Definition getSystemState : M SystemState :=
  ps <- getProcesses ;;
  fs <- getFiles ;;
  ls <- getLogs ;;
  h <- getHealth ;;
  ret (mkState ps fs ls h).

(** *** server/routes.ts

    A handler answers [res.json(...)] (status 200) or
    [res.status(code).json({ success: false, error })]. Request bodies are
    taken as already of the TypeScript types the storage methods expect;
    the handlers themselves do not validate them. *)

(** [const { pid, ...updates } = req.body]. *)
Definition without_pid (body : PartialProcess) : PartialProcess :=
  mkPartial None (u_name body) (u_memory body) (u_cpu body)
            (u_heartbeat body) (u_status body).

(** POST /api/processes/update. [!pid] holds for a missing pid and for 0. *)
Definition route_update_process (body : PartialProcess) : M (Reply Process) :=
  match u_pid body with
  | None => ret (Refused 400 "PID is required")
  | Some p =>
      if (p =? 0)%Z then ret (Refused 400 "PID is required")
      else
        r <- updateProcess p (without_pid body) ;;
        match r with
        | None => ret (Refused 404 "Process not found")
        | Some process => ret (Sent process)
        end
  end.

(** POST /api/detectFaults: an exception of the store becomes a 500. *)
Definition route_detect_faults : M (Reply (list Fault)) :=
  r <- injectFaults ;;
  match r with
  | None => ret (Refused 500 "Failed to detect/inject faults")
  | Some faults => ret (Sent faults)
  end.

(** POST /api/healFaults. *)
Definition route_heal_faults : M (Reply (list HealResult)) :=
  results <- healFaults ;; ret (Sent results).

(** POST /api/files/repair. [!fileId] holds for a missing id and for [""]. *)
Definition route_repair_file (fileId : option string) : M (Reply HealResult) :=
  match fileId with
  | None => ret (Refused 400 "File ID is required")
  | Some i =>
      if String.eqb i "" then ret (Refused 400 "File ID is required")
      else result <- repairFile i ;; ret (Sent result)
  end.

(** GET /api/state. *)
Definition route_get_state : M (Reply SystemState) :=
  state <- getSystemState ;; ret (Sent state).

End Storage.

(** ** Quantities the specification speaks of *)

Definition Qsum (l : list Q) : Q := fold_right Qplus 0 l.

(** Arithmetic mean, 0 for the empty list. *)
Definition mean (l : list Q) : Q :=
  match l with
  | [] => 0
  | _ => Qsum l / inject_Z (Z.of_nat (List.length l))
  end.

Definition procs (w : World) : list Process := map_values (processes (mem w)).
Definition sysfiles (w : World) : list SystemFile := map_values (files (mem w)).

Definition is_faulty (p : Process) : bool := negb (is_running p).

Definition faulty_count (w : World) : nat :=
  List.length (filter is_faulty (procs w)).
Definition corrupted_count (w : World) : nat :=
  List.length (filter corrupted (sysfiles w)).
Definition mean_cpu (w : World) : Q := mean (map cpu (procs w)).
Definition mean_memory (w : World) : Q := mean (map memory (procs w)).

(** The classification as the specification words it: first match wins. *)
Definition spec_classify (faulty corruptedN : nat) (cpuFigure : Q)
    : HealthStatus :=
  if (2 <? faulty)%nat || (2 <? corruptedN)%nat || Qltb 80 cpuFigure
  then critical
  else if (0 <? faulty)%nat || (0 <? corruptedN)%nat || Qltb 60 cpuFigure
  then warn
  else healthy.

(** The log buffer is in clock order and no entry is later than the next
    clock reading: what [addLog], the only writer of [logs], maintains. *)
Definition logs_inv (E : Env) (w : World) : Prop :=
  StronglySorted Z.le (map timestamp (logs (mem w))) /\
  Forall (fun e => (timestamp e <= Date_now E (now_calls w))%Z) (logs (mem w)).

Definition has_status (s : ProcessStatus) (p : Process) : bool :=
  status_eqb (status p) s.

(** What one pass of the healer does to one object: repaired when it
    matches the pass, untouched otherwise. *)
Definition healed {V} (cond : V -> bool) (post : V -> V -> Prop)
    (v v' : V) : Prop :=
  (cond v = true /\ post v v') \/ (cond v = false /\ v' = v).

(** What each process fault category assigns to its target [t]. *)
Definition hit_process (ft : FaultType) (t p' : Process) : Prop :=
  match ft with
  | crash => p' = set_cpu 0 (set_status crashed t)
  | freeze => exists h, p' = set_heartbeat h (set_status frozen t)
  | high_load_fault =>
      exists c m, (85 <= c /\ c <= 99) /\ (700 <= m /\ m <= 900) /\
                  p' = set_memory m (set_cpu c (set_status high_load t))
  | _ => False
  end.

(** Outcomes of one selection round started in [w] with [faults] so far.
    [process_fault ft]: one running process was hit by category [ft] and
    one fault was pushed; [file_fault]: one uncorrupted file was
    corrupted and one fault was pushed; [no_fault]: nothing was pushed
    and the store is as it was. *)
Definition process_fault (E : Env) (ft : FaultType) (faults : list Fault)
    (w : World) (out : option (list Fault) * World) : Prop :=
  exists m1 k t m2 f p',
    processes (mem w) = m1 ++ (k, t) :: m2 /\ is_running t = true /\
    fst out = Some (faults ++ [f]) /\
    ftype f = ft /\ f_targetId f = PidId (pid t) /\
    hit_process ft t p' /\
    processes (mem (snd out)) = m1 ++ (k, p') :: m2 /\
    files (mem (snd out)) = files (mem w) /\
    (clock_monotone E -> logs_inv E w -> logs_inv E (snd out)).

Definition file_fault (E : Env) (faults : list Fault)
    (w : World) (out : option (list Fault) * World) : Prop :=
  exists m1 k t m2 f cs,
    files (mem w) = m1 ++ (k, t) :: m2 /\ corrupted t = false /\
    fst out = Some (faults ++ [f]) /\
    ftype f = corruption /\ f_targetId f = FileId (fid t) /\
    files (mem (snd out))
      = m1 ++ (k, set_checksum cs (set_corrupted true t)) :: m2 /\
    processes (mem (snd out)) = processes (mem w) /\
    (clock_monotone E -> logs_inv E w -> logs_inv E (snd out)).

Definition no_fault (E : Env) (faults : list Fault)
    (w : World) (out : option (list Fault) * World) : Prop :=
  fst out = Some faults /\ mem (snd out) = mem w /\
  now_calls (snd out) = now_calls w.

(** The status a process fault category leaves on its target. *)
Definition expected_status (ft : FaultType) : option ProcessStatus :=
  match ft with
  | crash => Some crashed
  | freeze => Some frozen
  | high_load_fault => Some high_load
  | _ => None
  end.

(** The entity a fault names is in the state its category stands for. *)
Definition fault_reflected (w : World) (f : Fault) : bool :=
  match f_targetId f with
  | PidId p =>
      match expected_status (ftype f),
            map_get Z.eqb p (processes (mem w)) with
      | Some s, Some pr => status_eqb (status pr) s
      | _, _ => false
      end
  | FileId i =>
      match ftype f, map_get String.eqb i (files (mem w)) with
      | corruption, Some fl => corrupted fl
      | _, _ => false
      end
  end.

(** Every entry of a map is filed under the id its object carries, and no
    key occurs twice. *)
Definition keyed {K V} (key_of : V -> K) (m : list (K * V)) : Prop :=
  NoDup (map fst m) /\ Forall (fun kv => key_of (snd kv) = fst kv) m.

Definition keys_ok (w : World) : Prop :=
  keyed pid (processes (mem w)) /\ keyed fid (files (mem w)).

(** The metric bounds the store keeps: memory within the drift clamp
    [10, 900]; cpu at most the drift ceiling 99, at least the drift floor
    0.5 unless the process is crashed, in which case it is 0. *)
Definition proc_ok (p : Process) : Prop :=
  (10 <= memory p /\ memory p <= 900) /\
  cpu p <= 99 /\
  (if status_eqb (status p) crashed then cpu p = 0 else 1 # 2 <= cpu p).

(** The bounds of the drift clamp, as a test. *)
Definition in_drift_clamp (p : Process) : bool :=
  Qle_bool (1 # 2) (cpu p) && Qle_bool (cpu p) 99 &&
  Qle_bool 10 (memory p) && Qle_bool (memory p) 900.

(** The three mutators the metric invariant is stated for. *)
Inductive Op := OpDrift | OpInject | OpHeal.

Definition exec (E : Env) (op : Op) (w : World) : World :=
  match op with
  | OpDrift => snd (driftTick E w)
  | OpInject => snd (injectFaults E w)
  | OpHeal => snd (healFaults E w)
  end.

Definition run (E : Env) (ops : list Op) (w : World) : World :=
  fold_left (fun w op => exec E op w) ops w.

(** What holds of a store in which nothing has been faulted yet. *)
Definition fresh_ok (E : Env) (w : World) : Prop :=
  keys_ok w /\
  Forall (fun p => status p = running) (procs w) /\
  Forall (fun f => corrupted f = false) (sysfiles w) /\
  (random_unit E -> Forall proc_ok (procs w)) /\
  (clock_monotone E -> logs_inv E w).

(** ... and that holds at least one process and one file. *)
Definition fresh_pools (E : Env) (w : World) : Prop :=
  fresh_ok E w /\ procs w <> [] /\ sysfiles w <> [].

(** Every way the store is driven: the timer callback and the methods of
    [IStorage] that can touch it. *)
Inductive Call :=
  | CallDrift
  | CallInject
  | CallHeal
  | CallRepair (fileId : string)
  | CallAddLog (log : InsertLog)
  | CallUpdateProcess (p : Z) (updates : PartialProcess)
  | CallUpdateFile (i : string) (updates : PartialFile)
  | CallGetHealth
  | CallInitialize.

Definition call (E : Env) (c : Call) (w : World) : World :=
  match c with
  | CallDrift => snd (driftTick E w)
  | CallInject => snd (injectFaults E w)
  | CallHeal => snd (healFaults E w)
  | CallRepair i => snd (repairFile E i w)
  | CallAddLog log => snd (addLog E log w)
  | CallUpdateProcess p u => snd (updateProcess p u w)
  | CallUpdateFile i u => snd (updateFile i u w)
  | CallGetHealth => snd (getHealth E w)
  | CallInitialize => snd (initializeSystem E w)
  end.

Definition calls (E : Env) (cs : list Call) (w : World) : World :=
  fold_left (fun w c => call E c w) cs w.

(** A sample environment: every random draw is 0.1, the clock advances by
    one per reading, and the n-th identifier is ["u-n"]. *)
Definition env_tenth : Env :=
  mkEnv (fun _ => 1 # 10) (fun n => Z.of_nat n)
        (fun n => ("u-" ++ show_Z (Z.of_nat n))%string).

(** ** Relations used in the proofs *)

(** The entry that [addLog] builds in [w]. *)
Definition new_entry (E : Env) (log : InsertLog) (w : World) : LogEntry :=
  mkLog (randomUUID E (uuid_calls w)) (Date_now E (now_calls w))
        (i_type log) (i_event log) (i_description log).

(** What a step may do to the world when it only logs and reads oracles:
    processes and files stay, and a well-formed log buffer stays so. *)
Definition frame (E : Env) (w w' : World) : Prop :=
  processes (mem w') = processes (mem w) /\
  files (mem w') = files (mem w) /\
  (clock_monotone E -> logs_inv E w -> logs_inv E w').

Definition pass_rel {K V} (cond : V -> bool) (post : V -> V -> Prop)
    (m m' : list (K * V)) : Prop :=
  Forall2 (fun kv kv' => fst kv' = fst kv /\ healed cond post (snd kv) (snd kv'))
          m m'.

Definition restarted (E : Env) (p p' : Process) : Prop :=
  status p' = running /\ pid p' = pid p /\
  (random_unit E ->
   (5 <= cpu p' /\ cpu p' <= 25) /\ (50 <= memory p' /\ memory p' <= 200)).

Definition unfrozen (p p' : Process) : Prop :=
  status p' = running /\ pid p' = pid p /\
  cpu p' = cpu p /\ memory p' = memory p.

Definition optimized (E : Env) (p p' : Process) : Prop :=
  status p' = running /\ pid p' = pid p /\
  (random_unit E ->
   (10 <= cpu p' /\ cpu p' <= 40) /\ (100 <= memory p' /\ memory p' <= 300)).

Definition restored (f f' : SystemFile) : Prop :=
  corrupted f' = false /\ fid f' = fid f.

(** Computations that keep the log buffer well formed. *)
Definition keeps_logs (E : Env) {A} (m : M A) : Prop :=
  forall w, clock_monotone E -> logs_inv E w -> logs_inv E (snd (m w)).

Definition round_inv (w : World) (faults : list Fault) : Prop :=
  keys_ok w /\ forallb (fault_reflected w) faults = true.

(** ** Further relations *)

(** The ranges [initializeSystem] draws a process from. *)
Definition nominal (p : Process) : Prop :=
  status p = running /\
  (1 <= cpu p /\ cpu p <= 30) /\ (50 <= memory p /\ memory p <= 500).

(** What one entry of the file map shows: key, id, name, path, size and
    corrupted flag. *)
Definition file_row (kf : string * SystemFile)
    : string * string * string * string * Z * bool :=
  (fst kf, fid (snd kf), fname (snd kf), path (snd kf), size (snd kf),
   corrupted (snd kf)).

(** The row [init_file] makes of a template when it draws the id [i]. *)
Definition template_row (i : string) (t : string * string * Z)
    : string * string * string * string * Z * bool :=
  let '(t_name, t_path, t_size) := t in (i, i, t_name, t_path, t_size, false).

(** The ids the [n] files created from uuid call [c] on receive: every
    file takes two calls, one for its id and one for its checksum. *)
Definition file_ids (E : Env) (c n : nat) : list string :=
  map (fun i => randomUUID E (c + 2 * i)) (seq 0 n).

(** What a drift tick does to one process. *)
Definition drifted (E : Env) (p p' : Process) : Prop :=
  pid p' = pid p /\ pname p' = pname p /\ status p' = status p /\
  (status p <> running -> p' = p) /\
  (status p = running ->
     (1 # 2 <= cpu p' /\ cpu p' <= 99) /\
     (10 <= memory p' /\ memory p' <= 900)) /\
  (random_unit E -> status p = running ->
     (1 # 2 <= cpu p /\ cpu p <= 99 ->
        cpu p - 5 <= cpu p' /\ cpu p' <= cpu p + 5) /\
     (10 <= memory p /\ memory p <= 900 ->
        memory p - 20 <= memory p' /\ memory p' <= memory p + 20)).

(** The buffer after [addLog] has pushed the entries [es] one by one. *)
Definition push_all (es : list LogEntry) (buf : list LogEntry)
    : list LogEntry :=
  fold_left (fun b e => slice_last 100 (b ++ [e])) es buf.

(** [w'] has the buffer of [w] after [n] pushes of entries satisfying [P]. *)
Definition pushed (P : LogEntry -> Prop) (n : nat) (w w' : World) : Prop :=
  exists es, List.length es = n /\ Forall P es /\
             logs (mem w') = push_all es (logs (mem w)).

(** The log entry [injectFaults] writes for a fault of each category; it
    returns no fault of the category [missing_file]. *)
Definition fault_entry (f : Fault) (e : LogEntry) : Prop :=
  match ftype f with
  | crash => ltype e = error /\ event e = "Process Crashed"
  | freeze => ltype e = warning /\ event e = "Process Frozen"
  | high_load_fault => ltype e = warning /\ event e = "High Load Detected"
  | corruption => ltype e = error /\ event e = "File Corrupted"
  | missing_file => False
  end.

(** A selection step that started from [acc] in [w] and did not raise has
    pushed one log entry for each fault it added. *)
Definition round_logged (acc : list Fault) (w : World)
    (out : option (list Fault) * World) : Prop :=
  match fst out with
  | None => True
  | Some faults =>
      exists new es, faults = acc ++ new /\ Forall2 fault_entry new es /\
                     logs (mem (snd out)) = push_all es (logs (mem w))
  end.

(** The faulted entities of a store. *)
Definition faulted_count (w : World) : nat :=
  (faulty_count w + corrupted_count w)%nat.

(** Hoare triples over the store: if [P] holds of the store before [m],
    [Q] holds of its result and of the store after. *)
Definition triple {A} (P : MemStorage -> Prop) (m : M A)
    (Q : A -> MemStorage -> Prop) : Prop :=
  forall w, P (mem w) -> Q (fst (m w)) (mem (snd (m w))).

(** The entities of a store: the keys of both maps in order, the next pid
    and the initialized flag. *)
Definition entities (ks : list Z) (fks : list string) (np : Z)
    (s : MemStorage) : Prop :=
  map fst (processes s) = ks /\ map fst (files s) = fks /\
  nextPid s = np /\ initialized s = true.

(** A process whose cpu is at most 60 once healed: healing redraws the
    cpu of a crashed or overloaded process and keeps it otherwise. *)
Definition calm (p : Process) : Prop :=
  status p = crashed \/ status p = high_load \/ cpu p <= 60.

(** ** Basic facts *)

Lemma status_eqb_eq a b : status_eqb a b = true <-> a = b.
Proof. destruct a, b; simpl; split; congruence. Qed.

Lemma Qltb_lt x y : Qltb x y = true <-> x < y.
Proof.
  unfold Qltb. rewrite negb_true_iff.
  destruct (Qle_bool y x) eqn:H.
  - apply Qle_bool_iff in H. split; [discriminate | intros; lra].
  - split; [intros _ | reflexivity].
    destruct (Qlt_le_dec x y) as [Hlt | Hle]; [exact Hlt |].
    apply Qle_bool_iff in Hle. congruence.
Qed.

Lemma fold_left_Qsum {A} (f : A -> Q) (l : list A) (a : Q) :
  fold_left (fun sum p => sum + f p) l a == a + Qsum (map f l).
Proof.
  revert a. induction l as [| x l IH]; intros a; simpl.
  - lra.
  - rewrite IH. unfold Qsum. lra.
Qed.

Lemma Qltb_proper x y z : y == z -> Qltb x y = Qltb x z.
Proof.
  intros H. unfold Qltb. f_equal.
  destruct (Qle_bool y x) eqn:H1, (Qle_bool z x) eqn:H2; try reflexivity.
  - apply Qle_bool_iff in H1. rewrite H in H1.
    apply Qle_bool_iff in H1. congruence.
  - apply Qle_bool_iff in H2. rewrite <- H in H2.
    apply Qle_bool_iff in H2. congruence.
Qed.

Lemma filter_split_length {A} (f : A -> bool) (l : list A) :
  (List.length (filter f l) + List.length (filter (fun x => negb (f x)) l)
   = List.length l)%nat.
Proof.
  induction l as [| x l IH]; simpl; [reflexivity |].
  destruct (f x); simpl; lia.
Qed.

Lemma avg_cpu_mean (ps : list Process) :
  (if (0 <? List.length ps)%nat
   then fold_left (fun sum p => sum + cpu p) ps 0
        / inject_Z (Z.of_nat (List.length ps))
   else 0) == mean (map cpu ps).
Proof.
  destruct ps as [| p ps]; [reflexivity |].
  change (0 <? List.length (p :: ps))%nat with true. cbv iota.
  unfold mean. rewrite fold_left_Qsum, length_map.
  change (map cpu (p :: ps)) with (cpu p :: map cpu ps).
  cbv iota. setoid_replace (0 + Qsum (cpu p :: map cpu ps))
    with (Qsum (cpu p :: map cpu ps)) by lra.
  reflexivity.
Qed.

Lemma slice_last_short {A} (n : nat) (l : list A) :
  (List.length l <= n)%nat -> slice_last n l = l.
Proof.
  intros H. unfold slice_last.
  replace (List.length l - n)%nat with 0%nat by lia. reflexivity.
Qed.

Lemma slice_last_length {A} (n : nat) (l : list A) :
  List.length (slice_last n l) = Nat.min n (List.length l).
Proof. unfold slice_last. rewrite length_skipn. lia. Qed.

Lemma addLog_eq (E : Env) (log : InsertLog) (w : World) :
  addLog E log w =
  (new_entry E log w,
   mkWorld (set_logs (slice_last 100 (logs (mem w) ++ [new_entry E log w]))
                     (mem w))
           (rnd_calls w) (S (now_calls w)) (S (uuid_calls w))).
Proof.
  unfold addLog, bind, uuid, now, modify, gets, ret, new_entry. simpl.
  match goal with |- context [(100 <? ?n)%nat] =>
    destruct (Nat.ltb_spec 100 n) as [Hn | Hn] end; simpl.
  - reflexivity.
  - rewrite slice_last_short by exact Hn. reflexivity.
Qed.

(** ** Targeted repair *)

(** C6. Repairing a file that is not corrupted is a reported failure with
    the message that the file is not corrupted, and the file (checksum,
    last-modified, corrupted flag) is as before; repairing an id the store
    does not hold is a reported failure with the not-found message. *)
Theorem repairFile_rejects (E : Env) (w : World) (k : string) :
  (forall f, map_get String.eqb k (files (mem w)) = Some f ->
     corrupted f = false ->
     h_success (fst (repairFile E k w)) = false /\
     message (fst (repairFile E k w)) = "File is not corrupted." /\
     map_get String.eqb k (files (mem (snd (repairFile E k w)))) = Some f) /\
  (map_get String.eqb k (files (mem w)) = None ->
     h_success (fst (repairFile E k w)) = false /\
     message (fst (repairFile E k w)) = "File not found.").
Proof.
  unfold repairFile, bind, gets. split.
  - intros f Hget Hc. rewrite Hget, Hc. simpl. auto.
  - intros Hget. rewrite Hget. simpl. auto.
Qed.

(** C10. A failed targeted repair leaves the whole store as it was, and a
    successful one appends one success entry to the log buffer. *)
Theorem repairFile_failure_pure (E : Env) (w : World) (k : string) :
  (h_success (fst (repairFile E k w)) = false ->
     snd (repairFile E k w) = w) /\
  (h_success (fst (repairFile E k w)) = true ->
     exists entry,
       ltype entry = success /\
       logs (mem (snd (repairFile E k w)))
         = slice_last 100 (logs (mem w) ++ [entry])).
Proof.
  unfold repairFile, bind, gets.
  destruct (map_get String.eqb k (files (mem w))) as [f |] eqn:Hget.
  - destruct (corrupted f) eqn:Hc; cbn [negb].
    + unfold generateChecksum, bind, uuid, now, modify, ret.
      rewrite addLog_eq. cbn.
      split; [discriminate | intros _].
      eexists. split; [| reflexivity]. reflexivity.
    + cbn. split; [reflexivity | discriminate].
  - cbn. split; [reflexivity | discriminate].
Qed.

Lemma repairFile_rejects_witness :
  (h_success (fst (repairFile env_tenth "u-0" (new_MemStorage env_tenth)))
     = false /\
   message (fst (repairFile env_tenth "u-0" (new_MemStorage env_tenth)))
     = "File is not corrupted.") /\
  (h_success (fst (repairFile env_tenth "absent" (new_MemStorage env_tenth)))
     = false /\
   message (fst (repairFile env_tenth "absent" (new_MemStorage env_tenth)))
     = "File not found.").
Proof.
  split.
  - edestruct (proj1 (repairFile_rejects env_tenth (new_MemStorage env_tenth)
                        "u-0")) as [H1 [H2 _]];
      [vm_compute; reflexivity | reflexivity | split; assumption].
  - apply (proj2 (repairFile_rejects env_tenth (new_MemStorage env_tenth)
                    "absent")).
    reflexivity.
Defined.

Lemma repairFile_failure_pure_witness :
  snd (repairFile env_tenth "absent" (new_MemStorage env_tenth))
    = new_MemStorage env_tenth /\
  exists entry,
    ltype entry = success /\
    logs (mem (snd (repairFile env_tenth "u-0"
       (mkWorld (set_files [("u-0", mkFile "u-0" "a" "/a" 1 "CORRUPTED_" true 0)]
                           (mem empty_world)) 0 0 0))))
      = slice_last 100 ([] ++ [entry]).
Proof.
  split.
  - apply (proj1 (repairFile_failure_pure env_tenth (new_MemStorage env_tenth)
                    "absent")).
    reflexivity.
  - apply (proj2 (repairFile_failure_pure env_tenth
       (mkWorld (set_files [("u-0", mkFile "u-0" "a" "/a" 1 "CORRUPTED_" true 0)]
                           (mem empty_world)) 0 0 0) "u-0")).
    reflexivity.
Defined.

(** ** Health aggregation *)

Lemma faulty_as_count (ps : list Process) :
  (Z.of_nat (List.length ps) - Z.of_nat (List.length (filter is_running ps)))%Z
  = Z.of_nat (List.length (filter is_faulty ps)).
Proof.
  pose proof (filter_split_length is_running ps) as H.
  unfold is_faulty. lia.
Qed.

Lemma Z_ltb_of_nat (a b : nat) : (Z.of_nat a <? Z.of_nat b)%Z = (a <? b)%nat.
Proof.
  destruct (Nat.ltb_spec a b), (Z.ltb_spec (Z.of_nat a) (Z.of_nat b));
    try reflexivity; lia.
Qed.

(** C2. The status of the health snapshot is the first-match-wins
    classification of the faulty-process count, the corrupted-file count
    and the mean cpu: critical above 2 / 2 / 80, else warning above
    0 / 0 / 60, else healthy. *)
Theorem getHealth_status (E : Env) (w : World) :
  hstatus (fst (getHealth E w))
  = spec_classify (faulty_count w) (corrupted_count w) (mean_cpu w).
Proof.
  unfold getHealth, getProcesses, getFiles, bind, gets, ret, now.
  cbv beta iota zeta delta [fst hstatus].
  unfold spec_classify, faulty_count, corrupted_count, mean_cpu, procs,
    sysfiles.
  set (ps := map_values (processes (mem w))).
  set (fs := map_values (files (mem w))).
  rewrite faulty_as_count.
  rewrite (Z_ltb_of_nat 2), (Z_ltb_of_nat 0).
  rewrite (Qltb_proper 80 _ _ (avg_cpu_mean ps)).
  rewrite (Qltb_proper 60 _ _ (avg_cpu_mean ps)).
  reflexivity.
Qed.

Lemma avg_memory_mean (ps : list Process) :
  (if (0 <? List.length ps)%nat
   then fold_left (fun sum p => sum + memory p) ps 0
        / (inject_Z (Z.of_nat (List.length ps)) * 10)
   else 0) == mean (map memory ps) / 10.
Proof.
  destruct ps as [| p ps]; [reflexivity |].
  change (0 <? List.length (p :: ps))%nat with true. cbv iota.
  unfold mean. rewrite fold_left_Qsum, length_map.
  change (map memory (p :: ps)) with (memory p :: map memory ps).
  cbv iota.
  assert (Hn : ~ inject_Z (Z.of_nat (List.length (p :: ps))) == 0).
  { unfold Qeq. simpl. lia. }
  field. exact Hn.
Qed.

Example health_fresh :
  hstatus (fst (getHealth env_tenth (new_MemStorage env_tenth))) = healthy.
Proof. vm_compute. reflexivity. Qed.

Example health_one_fault :
  hstatus (fst (getHealth env_tenth
                  (snd (injectFaults env_tenth (new_MemStorage env_tenth)))))
  = warn.
Proof. vm_compute. reflexivity. Qed.

Example health_three_faults :
  hstatus (fst (getHealth env_tenth
                  (Nat.iter 3 (fun w => snd (injectFaults env_tenth w))
                            (new_MemStorage env_tenth))))
  = critical.
Proof. vm_compute. reflexivity. Qed.

(** C8 (as amended). The cpu figure of the snapshot is the mean of the
    processes' cpu (0 without processes) capped at 100, and the memory
    figure is the mean memory divided by 10, capped at 100. *)
Theorem getHealth_usage (E : Env) (w : World) :
  cpuUsage (fst (getHealth E w)) == Qmin 100 (mean_cpu w) /\
  memoryUsage (fst (getHealth E w)) == Qmin 100 (mean_memory w / 10).
Proof.
  unfold getHealth, getProcesses, getFiles, bind, gets, ret, now.
  cbv beta iota zeta delta [fst cpuUsage memoryUsage].
  unfold mean_cpu, mean_memory, procs.
  set (ps := map_values (processes (mem w))).
  split.
  - apply Q.min_compat; [reflexivity | apply avg_cpu_mean].
  - apply Q.min_compat; [reflexivity | apply avg_memory_mean].
Qed.

(** C8 as stated fails: after [updateProcess(1001, {cpu: 1000})] on the
    fresh store the mean cpu is above 100 while the snapshot reports 100. *)
Lemma getHealth_cpu_not_mean :
  let w := snd (updateProcess 1001
                  (mkPartial None None None (Some 1000) None None)
                  (new_MemStorage env_tenth)) in
  ~ cpuUsage (fst (getHealth env_tenth w)) == mean_cpu w.
Proof.
  intros w H. vm_compute in H. discriminate H.
Qed.

(** ** The log buffer *)

Section SortedLists.
Context {A : Type} (R : A -> A -> Prop).

Lemma sorted_snoc (l : list A) (x : A) :
  StronglySorted R l -> Forall (fun y => R y x) l ->
  StronglySorted R (l ++ [x]).
Proof.
  induction 1 as [| a l Hl IH Ha]; intros Hx; simpl.
  - constructor; constructor.
  - inversion Hx; subst. constructor; [auto |].
    apply Forall_app. split; [exact Ha | constructor; auto].
Qed.

Lemma sorted_skipn (n : nat) (l : list A) :
  StronglySorted R l -> StronglySorted R (skipn n l).
Proof.
  revert l. induction n as [| n IH]; intros l Hl; [exact Hl |].
  destruct l as [| a l]; [exact Hl |]. simpl.
  apply IH. inversion Hl; assumption.
Qed.

End SortedLists.

Lemma sorted_rev {A} (R : A -> A -> Prop) (l : list A) :
  StronglySorted R l -> StronglySorted (fun a b => R b a) (rev l).
Proof.
  induction 1 as [| a l Hl IH Ha]; simpl; [constructor |].
  apply sorted_snoc; [exact IH |].
  apply Forall_rev. exact Ha.
Qed.

Lemma Forall_skipn {A} (P : A -> Prop) (n : nat) (l : list A) :
  Forall P l -> Forall P (skipn n l).
Proof.
  revert l. induction n as [| n IH]; intros l Hl; [exact Hl |].
  destruct l as [| a l]; [exact Hl |]. simpl.
  apply IH. inversion Hl; assumption.
Qed.

Lemma logs_inv_addLog (E : Env) (log : InsertLog) (w : World) :
  clock_monotone E -> logs_inv E w -> logs_inv E (snd (addLog E log w)).
Proof.
  intros Hc [Hs Hb]. rewrite addLog_eq. unfold logs_inv. cbn.
  unfold slice_last. split.
  - rewrite <- skipn_map. apply sorted_skipn.
    rewrite map_app. cbn. apply sorted_snoc; [exact Hs |].
    rewrite Forall_map. exact Hb.
  - apply Forall_skipn. apply Forall_app. split.
    + eapply Forall_impl; [| exact Hb]. cbn. intros e He.
      specialize (Hc (now_calls w)). lia.
    + constructor; [cbn; apply Hc | constructor].
Qed.

Lemma sorted_weaken {A} (R R' : A -> A -> Prop) (l : list A) :
  (forall a b, R a b -> R' a b) -> StronglySorted R l -> StronglySorted R' l.
Proof.
  intros HR. induction 1 as [| a l Hl IH Ha]; constructor; [exact IH |].
  eapply Forall_impl; [| exact Ha]. intros b. apply HR.
Qed.

Lemma getLogs_sorted (E : Env) (w : World) :
  logs_inv E w -> StronglySorted Z.ge (map timestamp (fst (getLogs w))).
Proof.
  intros [Hs _]. unfold getLogs, bind, gets, ret. cbn [fst].
  rewrite map_rev. unfold slice_last. rewrite <- skipn_map.
  apply sorted_weaken with (R := fun a b => (b <= a)%Z); [intros; lia |].
  apply sorted_rev. apply sorted_skipn. exact Hs.
Qed.

(** ** Loops over the maps *)

Lemma frame_refl E w : frame E w w.
Proof. unfold frame. auto. Qed.

Lemma frame_trans E a b c : frame E a b -> frame E b c -> frame E a c.
Proof.
  intros (Hp & Hf & Hl) (Hp' & Hf' & Hl').
  split; [congruence | split; [congruence | auto]].
Qed.

Lemma frame_random E w : frame E w (snd (random E w)).
Proof. unfold frame. cbn. auto. Qed.

Lemma frame_uuid E w : frame E w (snd (uuid E w)).
Proof. unfold frame. cbn. auto. Qed.

Lemma frame_now E w : frame E w (snd (now E w)).
Proof.
  split; [reflexivity | split; [reflexivity |]].
  intros Hc [Hs Hb]. split; [exact Hs |].
  eapply Forall_impl; [| exact Hb]. cbn. intros e He.
  specialize (Hc (now_calls w)). lia.
Qed.

Lemma frame_addLog E log w : frame E w (snd (addLog E log w)).
Proof.
  split; [| split].
  - rewrite addLog_eq. reflexivity.
  - rewrite addLog_eq. reflexivity.
  - intros Hc Hi. apply logs_inv_addLog; assumption.
Qed.

Lemma frame_randomBetween E a b w : frame E w (snd (randomBetween E a b w)).
Proof. apply frame_random. Qed.

Lemma frame_generateChecksum E w : frame E w (snd (generateChecksum E w)).
Proof. apply frame_uuid. Qed.

Section ForEachValue.
Context {K V S : Type} (body : V -> S -> M (V * S)).
Context (Rv : V -> V -> Prop) (upd : V -> S -> S) (Iw : World -> World -> Prop).
Hypothesis Iw_refl : forall w, Iw w w.
Hypothesis Iw_trans : forall a b c, Iw a b -> Iw b c -> Iw a c.
Hypothesis body_spec : forall v acc w,
  Rv v (fst (fst (body v acc w))) /\
  snd (fst (body v acc w)) = upd v acc /\
  Iw w (snd (body v acc w)).

Lemma for_each_value_spec (m : list (K * V)) : forall acc w,
  Forall2 (fun kv kv' => fst kv' = fst kv /\ Rv (snd kv) (snd kv'))
          m (fst (fst (for_each_value body m acc w))) /\
  snd (fst (for_each_value body m acc w))
    = fold_left (fun a kv => upd (snd kv) a) m acc /\
  Iw w (snd (for_each_value body m acc w)).
Proof.
  induction m as [| [k v] m IH]; intros acc w; simpl.
  - repeat split; [constructor | apply Iw_refl].
  - unfold bind.
    destruct (body_spec v acc w) as (Hv & Hacc & Hw).
    destruct (body v acc w) as [[v' acc'] w1]. cbn [fst snd] in *.
    destruct (IH acc' w1) as (Hm & Hacc' & Hw').
    destruct (for_each_value body m acc' w1) as [[m' acc''] w2].
    cbn [fst snd] in *. unfold ret. cbn [fst snd].
    split; [constructor; [split; [reflexivity | exact Hv] | exact Hm] |].
    split; [subst; reflexivity | eapply Iw_trans; eassumption].
Qed.
End ForEachValue.

Lemma for_each_value_id {K V S} (body : V -> S -> M (V * S))
    (m : list (K * V)) (acc : S) (w : World) :
  Forall (fun kv => forall a w0, body (snd kv) a w0 = (snd kv, a, w0)) m ->
  for_each_value body m acc w = (m, acc, w).
Proof.
  induction 1 as [| [k v] m Hv Hm IH]; simpl; [reflexivity |].
  unfold bind. cbn [snd] in Hv. rewrite Hv, IH. reflexivity.
Qed.

Lemma fold_left_app_acc {A B} (out : A -> list B) (l : list A) (acc : list B) :
  fold_left (fun a x => a ++ out x) l acc = acc ++ flat_map out l.
Proof.
  revert acc. induction l as [| x l IH]; intros acc; simpl.
  - now rewrite app_nil_r.
  - rewrite IH. now rewrite app_assoc.
Qed.

(** ** Healing *)

Lemma frame_bind E {A B} (m : M A) (k : A -> M B) (w : World) :
  frame E w (snd (m w)) ->
  (forall a w1, frame E w1 (snd (k a w1))) ->
  frame E w (snd (bind m k w)).
Proof.
  intros Hm Hk. unfold bind. destruct (m w) as [a w1]. cbn [snd] in Hm.
  eapply frame_trans; [exact Hm | apply Hk].
Qed.

Lemma frame_ret E {A} (a : A) (w : World) : frame E w (snd (ret a w)).
Proof. apply frame_refl. Qed.

Create HintDb frame discriminated.
#[local] Hint Resolve frame_bind frame_ret frame_random frame_now frame_uuid
  frame_addLog frame_randomBetween frame_generateChecksum frame_refl : frame.

Lemma frame_heal_crashed E p acc w : frame E w (snd (heal_crashed E p acc w)).
Proof. unfold heal_crashed. destruct (status_eqb _ _); auto 10 with frame. Qed.

Lemma frame_heal_frozen E p acc w : frame E w (snd (heal_frozen E p acc w)).
Proof. unfold heal_frozen. destruct (status_eqb _ _); auto 10 with frame. Qed.

Lemma frame_heal_high_load E p acc w :
  frame E w (snd (heal_high_load E p acc w)).
Proof. unfold heal_high_load. destruct (status_eqb _ _); auto 10 with frame. Qed.

Lemma frame_heal_corrupted E f acc w :
  frame E w (snd (heal_corrupted E f acc w)).
Proof. unfold heal_corrupted. destruct (corrupted f); auto 10 with frame. Qed.

Lemma randomBetween_range E (a b : Q) (w : World) :
  random_unit E -> a <= b ->
  a <= fst (randomBetween E a b w) /\ fst (randomBetween E a b w) <= b.
Proof.
  intros Hr Hab. unfold randomBetween, bind, random, ret. cbn [fst].
  destruct (Hr (rnd_calls w)) as [H0 H1].
  set (r := Math_random E (rnd_calls w)) in *.
  assert (0 <= r * (b - a)) by (apply Qmult_le_0_compat; lra).
  assert (r * (b - a) <= 1 * (b - a))
    by (apply Qmult_le_compat_r; lra).
  lra.
Qed.

Lemma bind_eq {A B} (m : M A) (k : A -> M B) (w : World) :
  bind m k w = k (fst (m w)) (snd (m w)).
Proof. unfold bind. destruct (m w). reflexivity. Qed.

Lemma heal_crashed_spec E p acc w :
  healed (has_status crashed) (restarted E) p
         (fst (fst (heal_crashed E p acc w))) /\
  snd (fst (heal_crashed E p acc w))
    = acc ++ (if has_status crashed p then [restart_result p] else []) /\
  frame E w (snd (heal_crashed E p acc w)).
Proof.
  pose proof (frame_heal_crashed E p acc w) as Hf. revert Hf.
  unfold heal_crashed, healed, has_status.
  destruct (status_eqb (status p) crashed) eqn:Hs.
  - rewrite !bind_eq, !addLog_eq. unfold ret. cbn [fst snd].
    intros Hf. split; [left | split; [reflexivity | exact Hf]].
    split; [reflexivity |].
    split; [reflexivity | split; [reflexivity |]]. intros Hr.
    split; apply randomBetween_range; (exact Hr || lra).
  - cbn. intros Hf.
    split; [right; auto | split; [now rewrite app_nil_r | exact Hf]].
Qed.

Lemma heal_frozen_spec E p acc w :
  healed (has_status frozen) unfrozen p
         (fst (fst (heal_frozen E p acc w))) /\
  snd (fst (heal_frozen E p acc w))
    = acc ++ (if has_status frozen p then [unfreeze_result p] else []) /\
  frame E w (snd (heal_frozen E p acc w)).
Proof.
  pose proof (frame_heal_frozen E p acc w) as Hf. revert Hf.
  unfold heal_frozen, healed, has_status.
  destruct (status_eqb (status p) frozen) eqn:Hs.
  - rewrite !bind_eq, !addLog_eq. unfold ret. cbn [fst snd].
    intros Hf. split; [left | split; [reflexivity | exact Hf]].
    repeat split.
  - cbn. intros Hf.
    split; [right; auto | split; [now rewrite app_nil_r | exact Hf]].
Qed.

Lemma heal_high_load_spec E p acc w :
  healed (has_status high_load) (optimized E) p
         (fst (fst (heal_high_load E p acc w))) /\
  snd (fst (heal_high_load E p acc w))
    = acc ++ (if has_status high_load p then [optimize_result p] else []) /\
  frame E w (snd (heal_high_load E p acc w)).
Proof.
  pose proof (frame_heal_high_load E p acc w) as Hf. revert Hf.
  unfold heal_high_load, healed, has_status.
  destruct (status_eqb (status p) high_load) eqn:Hs.
  - rewrite !bind_eq, !addLog_eq. unfold ret. cbn [fst snd].
    intros Hf. split; [left | split; [reflexivity | exact Hf]].
    split; [reflexivity |].
    split; [reflexivity | split; [reflexivity |]]. intros Hr.
    split; apply randomBetween_range; (exact Hr || lra).
  - cbn. intros Hf.
    split; [right; auto | split; [now rewrite app_nil_r | exact Hf]].
Qed.

Lemma heal_corrupted_spec E f acc w :
  healed corrupted restored f (fst (fst (heal_corrupted E f acc w))) /\
  snd (fst (heal_corrupted E f acc w))
    = acc ++ (if corrupted f then [restore_result f] else []) /\
  frame E w (snd (heal_corrupted E f acc w)).
Proof.
  pose proof (frame_heal_corrupted E f acc w) as Hf. revert Hf.
  unfold heal_corrupted, healed.
  destruct (corrupted f) eqn:Hs.
  - rewrite !bind_eq, !addLog_eq. unfold ret. cbn [fst snd].
    intros Hf. split; [left | split; [reflexivity | exact Hf]].
    repeat split.
  - cbn. intros Hf.
    split; [right; auto | split; [now rewrite app_nil_r | exact Hf]].
Qed.

Lemma flat_map_cond {A B} (c : A -> bool) (out : A -> B) (l : list A) :
  flat_map (fun x => if c x then [out x] else []) l = map out (filter c l).
Proof.
  induction l as [| x l IH]; simpl; [reflexivity |].
  destruct (c x); simpl; now rewrite IH.
Qed.

Lemma flat_map_snd {K V B} (f : V -> list B) (m : list (K * V)) :
  flat_map (fun kv => f (snd kv)) m = flat_map f (map snd m).
Proof. induction m as [| kv m IH]; simpl; [reflexivity | now rewrite IH]. Qed.

(** One pass over a map of the store, for a body that repairs the objects
    matching [cond] and pushes [out] for each. *)
Section Pass.
Context (E : Env) {K V : Type}.
Context (body : V -> list HealResult -> M (V * list HealResult)).
Context (cond : V -> bool) (post : V -> V -> Prop) (out : V -> HealResult).
Hypothesis body_spec : forall v acc w,
  healed cond post v (fst (fst (body v acc w))) /\
  snd (fst (body v acc w)) = acc ++ (if cond v then [out v] else []) /\
  frame E w (snd (body v acc w)).

Lemma pass_spec (m : list (K * V)) (acc : list HealResult) (w : World) :
  Forall2 (fun kv kv' => fst kv' = fst kv /\ healed cond post (snd kv) (snd kv'))
          m (fst (fst (for_each_value body m acc w))) /\
  snd (fst (for_each_value body m acc w))
    = acc ++ map out (filter cond (map snd m)) /\
  frame E w (snd (for_each_value body m acc w)).
Proof.
  destruct (for_each_value_spec body (healed cond post)
              (fun v a => a ++ (if cond v then [out v] else []))
              (frame E) (frame_refl E) (frame_trans E) body_spec m acc w)
    as (H1 & H2 & H3).
  split; [exact H1 | split; [| exact H3]].
  rewrite H2, (fold_left_app_acc (fun kv => if cond (snd kv) then [out (snd kv)] else [])).
  rewrite (flat_map_snd (fun v => if cond v then [out v] else [])).
  now rewrite flat_map_cond.
Qed.
End Pass.

Lemma for_processes_spec E
    (body : Process -> list HealResult -> M (Process * list HealResult))
    (cond : Process -> bool) (post : Process -> Process -> Prop)
    (out : Process -> HealResult) (acc : list HealResult) (w : World) :
  (forall v a w0,
     healed cond post v (fst (fst (body v a w0))) /\
     snd (fst (body v a w0)) = a ++ (if cond v then [out v] else []) /\
     frame E w0 (snd (body v a w0))) ->
  pass_rel cond post (processes (mem w))
           (processes (mem (snd (for_processes body acc w)))) /\
  fst (for_processes body acc w) = acc ++ map out (filter cond (procs w)) /\
  files (mem (snd (for_processes body acc w))) = files (mem w) /\
  (clock_monotone E -> logs_inv E w ->
   logs_inv E (snd (for_processes body acc w))).
Proof.
  intros Hb.
  destruct (pass_spec E body cond post out Hb (processes (mem w)) acc w)
    as (H1 & H2 & H3 & H4 & H5).
  unfold for_processes. rewrite !bind_eq. unfold gets, modify, ret.
  cbn [fst snd mem processes files set_processes].
  split; [exact H1 | split; [exact H2 | split; [assumption |]]].
  intros Hc Hi. destruct (H5 Hc Hi) as [Hs Hb']. split; assumption.
Qed.

Lemma for_files_spec E
    (body : SystemFile -> list HealResult -> M (SystemFile * list HealResult))
    (cond : SystemFile -> bool) (post : SystemFile -> SystemFile -> Prop)
    (out : SystemFile -> HealResult) (acc : list HealResult) (w : World) :
  (forall v a w0,
     healed cond post v (fst (fst (body v a w0))) /\
     snd (fst (body v a w0)) = a ++ (if cond v then [out v] else []) /\
     frame E w0 (snd (body v a w0))) ->
  pass_rel cond post (files (mem w))
           (files (mem (snd (for_files body acc w)))) /\
  fst (for_files body acc w) = acc ++ map out (filter cond (sysfiles w)) /\
  processes (mem (snd (for_files body acc w))) = processes (mem w) /\
  (clock_monotone E -> logs_inv E w ->
   logs_inv E (snd (for_files body acc w))).
Proof.
  intros Hb.
  destruct (pass_spec E body cond post out Hb (files (mem w)) acc w)
    as (H1 & H2 & H3 & H4 & H5).
  unfold for_files. rewrite !bind_eq. unfold gets, modify, ret.
  cbn [fst snd mem processes files set_files].
  split; [exact H1 | split; [exact H2 | split; [assumption |]]].
  intros Hc Hi. destruct (H5 Hc Hi) as [Hs Hb']. split; assumption.
Qed.

Lemma healFaults_eq E w :
  healFaults E w =
  let a := for_processes (heal_crashed E) [] w in
  let b := for_processes (heal_frozen E) (fst a) (snd a) in
  let c := for_processes (heal_high_load E) (fst b) (snd b) in
  let d := for_files (heal_corrupted E) (fst c) (snd c) in
  (fst d,
   if (List.length (fst d) =? 0)%nat
   then snd (addLog E (mkInsertLog info "System Check"
               "No faults detected. All systems are operating normally.")
               (snd d))
   else snd d).
Proof.
  unfold healFaults. rewrite !bind_eq. cbv zeta.
  destruct (List.length _ =? 0)%nat; rewrite ?bind_eq; reflexivity.
Qed.

Lemma has_status_true s p : has_status s p = true <-> status p = s.
Proof. apply status_eqb_eq. Qed.

Lemma pass_rel_keys {K V} (cond : V -> bool) post (m m' : list (K * V)) :
  pass_rel cond post m m' -> map fst m' = map fst m.
Proof.
  induction 1 as [| kv kv' m m' [Hk _] _ IH]; simpl; [reflexivity |].
  now rewrite Hk, IH.
Qed.

Lemma three_passes E (m0 m1 m2 m3 : list (Z * Process)) :
  pass_rel (has_status crashed) (restarted E) m0 m1 ->
  pass_rel (has_status frozen) unfrozen m1 m2 ->
  pass_rel (has_status high_load) (optimized E) m2 m3 ->
  Forall (fun p => status p = running) (map snd m3) /\
  map pid (filter (has_status frozen) (map snd m1))
    = map pid (filter (has_status frozen) (map snd m0)) /\
  map pid (filter (has_status high_load) (map snd m2))
    = map pid (filter (has_status high_load) (map snd m0)).
Proof.
  intros H1. revert m2 m3.
  induction H1 as [| [k0 p0] [k1 p1] m0 m1 [_ Hp1] _ IH];
    intros m2 m3 H2 H3.
  - inversion H2; subst. inversion H3; subst. simpl. auto.
  - inversion H2 as [| ? [k2 p2] ? m2' [_ Hp2] H2' ]; subst.
    inversion H3 as [| ? [k3 p3] ? m3' [_ Hp3] H3' ]; subst.
    destruct (IH _ _ H2' H3') as (Ha & Hb & Hc).
    cbn [snd map] in *.
    unfold healed, restarted, unfrozen, optimized, has_status in Hp1, Hp2, Hp3.
    assert (Hx : status p3 = running /\
                 map pid (filter (has_status frozen) [p1])
                   = map pid (filter (has_status frozen) [p0]) /\
                 map pid (filter (has_status high_load) [p2])
                   = map pid (filter (has_status high_load) [p0])).
    { unfold has_status. cbn [filter].
      destruct Hp1 as [[C1 (S1 & I1 & _)] | [C1 ->]];
        destruct Hp2 as [[C2 (S2 & I2 & _)] | [C2 ->]];
        destruct Hp3 as [[C3 (S3 & I3 & _)] | [C3 ->]];
        try apply status_eqb_eq in C1;
        try apply status_eqb_eq in C2;
        try apply status_eqb_eq in C3;
        try congruence;
        repeat match goal with
          | H : status ?p = _ |- _ => rewrite H in *
          end;
        cbn in *; try discriminate;
        try (split; [reflexivity | split; congruence]);
        destruct (status p0) eqn:S0; cbn in *; try discriminate;
        try (split; [reflexivity | split; congruence]). }
    destruct Hx as (Hx1 & Hx2 & Hx3).
    split; [constructor; assumption |].
    change (p1 :: map snd m1) with ([p1] ++ map snd m1).
    change (p0 :: map snd m0) with ([p0] ++ map snd m0).
    change (p2 :: map snd m2') with ([p2] ++ map snd m2').
    rewrite !filter_app, !map_app. split; congruence.
Qed.

Lemma files_pass (m m' : list (string * SystemFile)) :
  pass_rel corrupted restored m m' ->
  Forall (fun f => corrupted f = false) (map snd m').
Proof.
  induction 1 as [| [k f] [k' f'] m m' [_ Hf] _ IH]; simpl; constructor;
    [| exact IH].
  cbn [snd] in Hf. destruct Hf as [[_ [Hc _]] | [Hc ->]]; assumption.
Qed.

Lemma faulty_by_status (ps : list Process) :
  List.length (filter is_faulty ps)
  = (List.length (filter (has_status crashed) ps)
     + List.length (filter (has_status frozen) ps)
     + List.length (filter (has_status high_load) ps))%nat.
Proof.
  induction ps as [| p ps IH]; [reflexivity |].
  unfold is_faulty, is_running, has_status in *. cbn [filter].
  destruct (status p); cbn; lia.
Qed.

Lemma healFaults_nominal (E : Env) (w : World) :
  Forall (fun p => status p = running) (procs (snd (healFaults E w))) /\
  Forall (fun f => corrupted f = false) (sysfiles (snd (healFaults E w))).
Proof.
  rewrite healFaults_eq. cbv zeta.
  destruct (for_processes_spec E _ _ _ _ [] w (heal_crashed_spec E))
    as (Pa & _ & _ & _).
  set (a := for_processes (heal_crashed E) [] w) in *.
  destruct (for_processes_spec E _ _ _ _ (fst a) (snd a) (heal_frozen_spec E))
    as (Pb & _ & _ & _).
  set (b := for_processes (heal_frozen E) (fst a) (snd a)) in *.
  destruct (for_processes_spec E _ _ _ _ (fst b) (snd b)
              (heal_high_load_spec E)) as (Pc & _ & _ & _).
  set (c := for_processes (heal_high_load E) (fst b) (snd b)) in *.
  destruct (for_files_spec E _ _ _ _ (fst c) (snd c) (heal_corrupted_spec E))
    as (Pd & _ & Fd & _).
  set (d := for_files (heal_corrupted E) (fst c) (snd c)) in *.
  destruct (three_passes E _ _ _ _ Pa Pb Pc) as (Hrun & _ & _).
  cbn [snd]. unfold procs, sysfiles, map_values.
  assert (Hw : forall w', frame E (snd d) w' ->
            Forall (fun p => status p = running)
                   (map snd (processes (mem w'))) /\
            Forall (fun f => corrupted f = false) (map snd (files (mem w')))).
  { intros w' (Hp & Hf & _). rewrite Hp, Hf, Fd.
    split; [exact Hrun | apply (files_pass _ _ Pd)]. }
  destruct (_ =? _)%nat; apply Hw; [apply frame_addLog | apply frame_refl].
Qed.


(** C1. One call of [healFaults] leaves every process running and every
    file uncorrupted; the returned list has one entry for each process
    that was crashed, then each that was frozen, then each under high
    load, then each corrupted file, as many entries as there were faulted
    entities, and every entry reports success. *)
Theorem healFaults_heals_all (E : Env) (w : World) :
  Forall (fun p => status p = running) (procs (snd (healFaults E w))) /\
  Forall (fun f => corrupted f = false) (sysfiles (snd (healFaults E w))) /\
  map targetId (fst (healFaults E w))
    = map PidId (map pid (filter (has_status crashed) (procs w)))
      ++ map PidId (map pid (filter (has_status frozen) (procs w)))
      ++ map PidId (map pid (filter (has_status high_load) (procs w)))
      ++ map FileId (map fid (filter corrupted (sysfiles w))) /\
  List.length (fst (healFaults E w))
    = (faulty_count w + corrupted_count w)%nat /\
  Forall (fun r => h_success r = true) (fst (healFaults E w)).
Proof.
  rewrite healFaults_eq. cbv zeta.
  destruct (for_processes_spec E _ _ _ _ [] w (heal_crashed_spec E))
    as (Pa & Ra & Fa & _).
  set (a := for_processes (heal_crashed E) [] w) in *.
  destruct (for_processes_spec E _ _ _ _ (fst a) (snd a) (heal_frozen_spec E))
    as (Pb & Rb & Fb & _).
  set (b := for_processes (heal_frozen E) (fst a) (snd a)) in *.
  destruct (for_processes_spec E _ _ _ _ (fst b) (snd b)
              (heal_high_load_spec E)) as (Pc & Rc & Fc & _).
  set (c := for_processes (heal_high_load E) (fst b) (snd b)) in *.
  destruct (for_files_spec E _ _ _ _ (fst c) (snd c) (heal_corrupted_spec E))
    as (Pd & Rd & Fd & _).
  set (d := for_files (heal_corrupted E) (fst c) (snd c)) in *.
  destruct (three_passes E _ _ _ _ Pa Pb Pc) as (Hrun & Hfz & Hhl).
  assert (Hprocs : forall w', processes (mem w') = processes (mem (snd d)) ->
            Forall (fun p => status p = running) (procs w')).
  { intros w' Hw'. unfold procs, map_values. rewrite Hw', Fd. exact Hrun. }
  assert (Hfiles : forall w', files (mem w') = files (mem (snd d)) ->
            Forall (fun f => corrupted f = false) (sysfiles w')).
  { intros w' Hw'. unfold sysfiles, map_values. rewrite Hw'.
    apply (files_pass _ _ Pd). }
  assert (Hres : fst d
    = map restart_result (filter (has_status crashed) (procs w))
      ++ map unfreeze_result (filter (has_status frozen) (procs (snd a)))
      ++ map optimize_result (filter (has_status high_load) (procs (snd b)))
      ++ map restore_result (filter corrupted (sysfiles w))).
  { rewrite Rd, Rc, Rb, Ra. unfold sysfiles, map_values.
    rewrite Fc, Fb, Fa. cbn [app]. now rewrite <- !app_assoc. }
  assert (Hids : map targetId (fst d)
    = map PidId (map pid (filter (has_status crashed) (procs w)))
      ++ map PidId (map pid (filter (has_status frozen) (procs w)))
      ++ map PidId (map pid (filter (has_status high_load) (procs w)))
      ++ map FileId (map fid (filter corrupted (sysfiles w)))).
  { rewrite Hres, !map_app, !map_map. unfold procs, map_values in *.
    rewrite <- (map_map pid PidId (filter (has_status frozen) _)), Hfz.
    rewrite <- (map_map pid PidId (filter (has_status high_load) _)), Hhl.
    rewrite !map_map. reflexivity. }
  cbn [fst snd].
  split; [| split; [| split; [exact Hids | split]]].
  - apply Hprocs. destruct (_ =? _)%nat; [| reflexivity].
    apply frame_addLog.
  - apply Hfiles. destruct (_ =? _)%nat; [| reflexivity].
    apply frame_addLog.
  - rewrite <- (length_map targetId), Hids, !length_app, !length_map.
    unfold faulty_count, corrupted_count. rewrite faulty_by_status. lia.
  - rewrite Hres. rewrite !Forall_app.
    repeat split; apply Forall_forall; intros r Hr;
      apply in_map_iff in Hr; destruct Hr as [x [<- _]]; reflexivity.
Qed.

Lemma world_eta (w : World) :
  mkWorld (mem w) (rnd_calls w) (now_calls w) (uuid_calls w) = w.
Proof. destruct w; reflexivity. Qed.

Lemma set_processes_same (s : MemStorage) : set_processes (processes s) s = s.
Proof. destruct s; reflexivity. Qed.

Lemma set_files_same (s : MemStorage) : set_files (files s) s = s.
Proof. destruct s; reflexivity. Qed.

Lemma for_processes_id {S} (body : Process -> S -> M (Process * S))
    (acc : S) (w : World) :
  Forall (fun p => forall a w0, body p a w0 = (p, a, w0)) (procs w) ->
  for_processes body acc w = (acc, w).
Proof.
  intros H. unfold for_processes. rewrite !bind_eq.
  unfold gets, modify, ret. cbn [fst snd].
  rewrite !for_each_value_id
    by (unfold procs, map_values in H; rewrite Forall_map in H; exact H).
  cbn [fst snd].
  now rewrite set_processes_same, world_eta.
Qed.

Lemma for_files_id {S} (body : SystemFile -> S -> M (SystemFile * S))
    (acc : S) (w : World) :
  Forall (fun f => forall a w0, body f a w0 = (f, a, w0)) (sysfiles w) ->
  for_files body acc w = (acc, w).
Proof.
  intros H. unfold for_files. rewrite !bind_eq.
  unfold gets, modify, ret. cbn [fst snd].
  rewrite !for_each_value_id
    by (unfold sysfiles, map_values in H; rewrite Forall_map in H; exact H).
  cbn [fst snd].
  now rewrite set_files_same, world_eta.
Qed.

(** With nothing to repair, [healFaults] returns no result and its whole
    effect is one [addLog] of the informational "System Check" entry. *)
Lemma healFaults_nothing (E : Env) (w : World) :
  Forall (fun p => status p = running) (procs w) ->
  Forall (fun f => corrupted f = false) (sysfiles w) ->
  healFaults E w =
  ([], snd (addLog E (mkInsertLog info "System Check"
                        "No faults detected. All systems are operating normally.")
                   w)).
Proof.
  intros Hp Hf. rewrite healFaults_eq. cbv zeta.
  rewrite (for_processes_id (heal_crashed E)).
  2:{ eapply Forall_impl; [| exact Hp]. intros p Hs a w0.
      unfold heal_crashed. now rewrite Hs. }
  cbn [fst snd]. rewrite (for_processes_id (heal_frozen E)).
  2:{ eapply Forall_impl; [| exact Hp]. intros p Hs a w0.
      unfold heal_frozen. now rewrite Hs. }
  cbn [fst snd]. rewrite (for_processes_id (heal_high_load E)).
  2:{ eapply Forall_impl; [| exact Hp]. intros p Hs a w0.
      unfold heal_high_load. now rewrite Hs. }
  cbn [fst snd]. rewrite (for_files_id (heal_corrupted E)).
  2:{ eapply Forall_impl; [| exact Hf]. intros f Hs a w0.
      unfold heal_corrupted. now rewrite Hs. }
  reflexivity.
Qed.

(** C7. A second [healFaults] directly after a first returns the empty
    list, and what it does to the store is exactly one [addLog] of an
    informational entry: processes and files stay as they are and the
    buffer gains that one entry (and sheds its oldest beyond 100). *)
Theorem healFaults_twice (E : Env) (w : World) :
  fst (healFaults E (snd (healFaults E w))) = [] /\
  snd (healFaults E (snd (healFaults E w)))
    = snd (addLog E (mkInsertLog info "System Check"
                       "No faults detected. All systems are operating normally.")
                  (snd (healFaults E w))) /\
  (exists e,
     ltype e = info /\ event e = "System Check" /\
     logs (mem (snd (healFaults E (snd (healFaults E w)))))
       = slice_last 100 (logs (mem (snd (healFaults E w))) ++ [e])) /\
  processes (mem (snd (healFaults E (snd (healFaults E w)))))
    = processes (mem (snd (healFaults E w))) /\
  files (mem (snd (healFaults E (snd (healFaults E w)))))
    = files (mem (snd (healFaults E w))).
Proof.
  destruct (healFaults_nominal E w) as (Hp & Hf).
  rewrite (healFaults_nothing E _ Hp Hf). cbn [fst snd].
  split; [reflexivity | split; [reflexivity |]].
  rewrite addLog_eq. cbn [snd mem logs set_logs processes files].
  split; [| split; reflexivity].
  eexists. split; [| split; [| reflexivity]]; reflexivity.
Qed.

(** ** Fault injection *)

Lemma random_index_in_range E (n : nat) (w : World) :
  random_unit E -> (0 < n)%nat ->
  exists i, fst (random_index E n w) = Some i /\ (i < n)%nat.
Proof.
  intros Hr Hn. unfold random_index. rewrite bind_eq. unfold ret, random.
  cbn [fst snd]. destruct (Hr (rnd_calls w)) as [H0 H1].
  set (r := Math_random E (rnd_calls w)) in *.
  set (x := r * inject_Z (Z.of_nat n)).
  assert (Hn' : 0 < inject_Z (Z.of_nat n)).
  { rewrite <- (Zlt_Qlt 0). lia. }
  assert (Hx0 : 0 <= x) by (apply Qmult_le_0_compat; lra).
  assert (Hx1 : x < inject_Z (Z.of_nat n)).
  { unfold x. setoid_replace (inject_Z (Z.of_nat n))
      with (1 * inject_Z (Z.of_nat n)) at 2 by ring.
    apply Qmult_lt_compat_r; assumption. }
  assert (Hz0 : (0 <= Qfloor x)%Z).
  { rewrite <- (Qfloor_Z 0). apply Qfloor_resp_le. exact Hx0. }
  assert (Hz1 : (Qfloor x < Z.of_nat n)%Z).
  { rewrite Zlt_Qlt. eapply Qle_lt_trans; [apply Qfloor_le | exact Hx1]. }
  unfold js_index. fold x.
  destruct (Z.ltb_spec (Qfloor x) 0) as [Hneg | _]; [lia |].
  exists (Z.to_nat (Qfloor x)). split; [reflexivity | lia].
Qed.

Section MutateKth.
Context {K V : Type} (ok : V -> bool) (g : V -> V).

(** The [i]-th value satisfying [ok] sits in one entry, and [mutate_kth]
    rewrites exactly that entry. *)
Lemma mutate_kth_split (m : list (K * V)) : forall i t,
  nth_error (filter ok (map snd m)) i = Some t ->
  exists m1 k m2,
    m = m1 ++ (k, t) :: m2 /\
    mutate_kth ok i g m = m1 ++ (k, g t) :: m2 /\
    ok t = true.
Proof.
  induction m as [| [k v] m IH]; intros i t Hn.
  - destruct i; discriminate.
  - cbn [map snd filter] in Hn. cbn [mutate_kth].
    destruct (ok v) eqn:Hv.
    + destruct i as [| i].
      * injection Hn as <-. exists [], k, m. auto.
      * cbn [nth_error] in Hn. destruct (IH _ _ Hn) as (m1 & k' & m2 & -> & -> & Ht).
        exists ((k, v) :: m1), k', m2. auto.
    + destruct (IH _ _ Hn) as (m1 & k' & m2 & -> & -> & Ht).
      exists ((k, v) :: m1), k', m2. auto.
Qed.
End MutateKth.

Lemma nth_error_in_range {A} (l : list A) (i : nat) :
  (i < List.length l)%nat -> exists x, nth_error l i = Some x.
Proof.
  intros H. destruct (nth_error l i) eqn:Hn; [eauto |].
  apply nth_error_None in Hn. lia.
Qed.

Lemma logs_inv_same E (w w' : World) :
  mem w' = mem w -> now_calls w' = now_calls w ->
  logs_inv E w -> logs_inv E w'.
Proof. unfold logs_inv. intros -> ->. auto. Qed.

Lemma logs_inv_frame E (w w' : World) :
  frame E w w' -> clock_monotone E -> logs_inv E w -> logs_inv E w'.
Proof. intros (_ & _ & H). exact H. Qed.

Lemma filter_nil_length {A} (f : A -> bool) (l : list A) :
  (0 <? List.length (filter f l))%nat = false <-> filter f l = [].
Proof.
  destruct (filter f l); cbn; split; intros; (reflexivity || discriminate).
Qed.

Lemma kl_bind E {A B} (m : M A) (k : A -> M B) :
  keeps_logs E m -> (forall a, keeps_logs E (k a)) -> keeps_logs E (bind m k).
Proof.
  intros Hm Hk w Hc Hi. rewrite bind_eq. apply Hk; [exact Hc |].
  apply Hm; assumption.
Qed.

Lemma kl_ret E {A} (a : A) : keeps_logs E (ret a).
Proof. intros w _ Hi. exact Hi. Qed.

Lemma kl_gets E {A} (f : MemStorage -> A) : keeps_logs E (gets f).
Proof. intros w _ Hi. exact Hi. Qed.

Lemma kl_frame E {A} (m : M A) :
  (forall w, frame E w (snd (m w))) -> keeps_logs E m.
Proof. intros H w Hc Hi. exact (logs_inv_frame E _ _ (H w) Hc Hi). Qed.

Lemma kl_random E : keeps_logs E (random E).
Proof. apply kl_frame, frame_random. Qed.

Lemma kl_now E : keeps_logs E (now E).
Proof. apply kl_frame, frame_now. Qed.

Lemma kl_uuid E : keeps_logs E (uuid E).
Proof. apply kl_frame, frame_uuid. Qed.

Lemma kl_addLog E log : keeps_logs E (addLog E log).
Proof. apply kl_frame. intros w. apply frame_addLog. Qed.

Lemma kl_randomBetween E a b : keeps_logs E (randomBetween E a b).
Proof. apply kl_random. Qed.

Lemma kl_generateChecksum E : keeps_logs E (generateChecksum E).
Proof. apply kl_uuid. Qed.

Lemma kl_random_index E n : keeps_logs E (random_index E n).
Proof. apply kl_random. Qed.

Lemma kl_modify E (f : MemStorage -> MemStorage) :
  (forall s, logs (f s) = logs s) -> keeps_logs E (modify f).
Proof.
  intros Hf w _ [Hs Hb]. unfold logs_inv, modify. cbn [snd mem now_calls].
  rewrite Hf. split; assumption.
Qed.

Lemma kl_set_processes E ps : keeps_logs E (modify (set_processes ps)).
Proof. apply kl_modify. reflexivity. Qed.

Lemma kl_set_files E fs : keeps_logs E (modify (set_files fs)).
Proof. apply kl_modify. reflexivity. Qed.

Create HintDb klogs discriminated.
#[local] Hint Resolve kl_bind kl_ret kl_gets kl_random kl_now kl_uuid
  kl_addLog kl_randomBetween kl_generateChecksum kl_random_index
  kl_set_processes kl_set_files : klogs.

Ltac kl_step :=
  match goal with
  | |- keeps_logs _ (bind _ _) => apply kl_bind; [| intros ?]
  | |- keeps_logs _ (if ?c then _ else _) => destruct c
  | |- keeps_logs _ (match ?o with Some _ => _ | None => _ end) => destruct o
  | |- keeps_logs _ (let (_, _) := ?r in _) => destruct r
  | |- keeps_logs _ (modify _) => apply kl_modify; intros; reflexivity
  | |- keeps_logs _ _ => solve [auto with klogs]
  end.

Lemma kl_inject_crash E faults : keeps_logs E (inject_crash E faults).
Proof. unfold inject_crash. repeat kl_step. Qed.

Lemma kl_inject_freeze E faults : keeps_logs E (inject_freeze E faults).
Proof. unfold inject_freeze. repeat kl_step. Qed.

Lemma kl_inject_high_load E faults : keeps_logs E (inject_high_load E faults).
Proof. unfold inject_high_load. repeat kl_step. Qed.

Lemma kl_inject_corruption E faults :
  keeps_logs E (inject_corruption E faults).
Proof. unfold inject_corruption. repeat kl_step. Qed.

Lemma inject_crash_spec E faults w :
  random_unit E ->
  (filter is_running (procs w) = [] /\
   no_fault E faults w (inject_crash E faults w)) \/
  (filter is_running (procs w) <> [] /\
   process_fault E crash faults w (inject_crash E faults w)).
Proof.
  intros Hr. pose proof (kl_inject_crash E faults w) as Hkl. revert Hkl.
  unfold inject_crash. rewrite bind_eq. unfold gets.
  cbn [fst snd]. fold (procs w).
  destruct (0 <? List.length (filter is_running (procs w)))%nat eqn:Hlen;
    cbv beta iota.
  - assert (Hpos : (0 < List.length (filter is_running (procs w)))%nat)
      by (apply Nat.ltb_lt; exact Hlen).
    destruct (random_index_in_range E _ w Hr Hpos) as (i & Hi & Hlt).
    destruct (nth_error_in_range _ _ Hlt) as (t & Ht).
    rewrite bind_eq, Hi, Ht.
    destruct (mutate_kth_split is_running
                (fun p => set_cpu 0 (set_status crashed p))
                (processes (mem w)) i t Ht) as (m1 & k & m2 & Hm & Hm' & Hok).
    rewrite !bind_eq, addLog_eq. unfold ret. cbn [fst snd].
    intros Hkl. right.
    split; [intros H0; rewrite H0 in Hpos; cbn in Hpos; lia |].
    exists m1, k, t, m2. eexists. eexists.
    split; [exact Hm |]. split; [exact Hok |].
    split; [reflexivity |]. split; [reflexivity |]. split; [reflexivity |].
    split; [reflexivity |].
    split; [exact Hm' |]. split; [reflexivity | exact Hkl].
  - intros _. left. apply filter_nil_length in Hlen. split; [exact Hlen |].
    unfold no_fault, ret. cbn. auto.
Qed.

Lemma inject_freeze_spec E faults w :
  random_unit E ->
  (filter is_running (procs w) = [] /\
   no_fault E faults w (inject_freeze E faults w)) \/
  (filter is_running (procs w) <> [] /\
   process_fault E freeze faults w (inject_freeze E faults w)).
Proof.
  intros Hr. pose proof (kl_inject_freeze E faults w) as Hkl. revert Hkl.
  unfold inject_freeze. rewrite bind_eq. unfold gets.
  cbn [fst snd]. fold (procs w).
  destruct (0 <? List.length (filter is_running (procs w)))%nat eqn:Hlen;
    cbv beta iota.
  - assert (Hpos : (0 < List.length (filter is_running (procs w)))%nat)
      by (apply Nat.ltb_lt; exact Hlen).
    destruct (random_index_in_range E _ w Hr Hpos) as (i & Hi & Hlt).
    destruct (nth_error_in_range _ _ Hlt) as (t & Ht).
    rewrite bind_eq, Hi, Ht.
    rewrite !bind_eq, addLog_eq. unfold ret. cbn [fst snd].
    match goal with |- context [mutate_kth is_running i ?g _] =>
      destruct (mutate_kth_split is_running g (processes (mem w)) i t Ht)
        as (m1 & k & m2 & Hm & Hm' & Hok)
    end.
    intros Hkl. right.
    split; [intros H0; rewrite H0 in Hpos; cbn in Hpos; lia |].
    exists m1, k, t, m2. eexists. eexists.
    split; [exact Hm |]. split; [exact Hok |].
    split; [reflexivity |]. split; [reflexivity |]. split; [reflexivity |].
    split; [eexists; reflexivity |].
    split; [exact Hm' |]. split; [reflexivity | exact Hkl].
  - intros _. left. apply filter_nil_length in Hlen. split; [exact Hlen |].
    unfold no_fault, ret. cbn. auto.
Qed.

Lemma inject_high_load_spec E faults w :
  random_unit E ->
  (filter is_running (procs w) = [] /\
   no_fault E faults w (inject_high_load E faults w)) \/
  (filter is_running (procs w) <> [] /\
   process_fault E high_load_fault faults w (inject_high_load E faults w)).
Proof.
  intros Hr. pose proof (kl_inject_high_load E faults w) as Hkl. revert Hkl.
  unfold inject_high_load. rewrite bind_eq. unfold gets.
  cbn [fst snd]. fold (procs w).
  destruct (0 <? List.length (filter is_running (procs w)))%nat eqn:Hlen;
    cbv beta iota.
  - assert (Hpos : (0 < List.length (filter is_running (procs w)))%nat)
      by (apply Nat.ltb_lt; exact Hlen).
    destruct (random_index_in_range E _ w Hr Hpos) as (i & Hi & Hlt).
    destruct (nth_error_in_range _ _ Hlt) as (t & Ht).
    rewrite bind_eq, Hi, Ht.
    rewrite !bind_eq, addLog_eq. unfold ret. cbn [fst snd].
    match goal with |- context [mutate_kth is_running i ?g _] =>
      destruct (mutate_kth_split is_running g (processes (mem w)) i t Ht)
        as (m1 & k & m2 & Hm & Hm' & Hok)
    end.
    intros Hkl. right.
    split; [intros H0; rewrite H0 in Hpos; cbn in Hpos; lia |].
    exists m1, k, t, m2. eexists. eexists.
    split; [exact Hm |]. split; [exact Hok |].
    split; [reflexivity |]. split; [reflexivity |]. split; [reflexivity |].
    split.
    { eexists. eexists. split; [| split; [| reflexivity]];
        apply randomBetween_range; (exact Hr || lra). }
    split; [exact Hm' |]. split; [reflexivity | exact Hkl].
  - intros _. left. apply filter_nil_length in Hlen. split; [exact Hlen |].
    unfold no_fault, ret. cbn. auto.
Qed.

Lemma inject_corruption_spec E faults w :
  random_unit E ->
  (filter is_healthy_file (sysfiles w) = [] /\
   no_fault E faults w (inject_corruption E faults w)) \/
  (filter is_healthy_file (sysfiles w) <> [] /\
   file_fault E faults w (inject_corruption E faults w)).
Proof.
  intros Hr. pose proof (kl_inject_corruption E faults w) as Hkl. revert Hkl.
  unfold inject_corruption. rewrite bind_eq. unfold gets.
  cbn [fst snd]. fold (sysfiles w).
  destruct (0 <? List.length (filter is_healthy_file (sysfiles w)))%nat
    eqn:Hlen; cbv beta iota.
  - assert (Hpos : (0 < List.length (filter is_healthy_file (sysfiles w)))%nat)
      by (apply Nat.ltb_lt; exact Hlen).
    destruct (random_index_in_range E _ w Hr Hpos) as (i & Hi & Hlt).
    destruct (nth_error_in_range _ _ Hlt) as (t & Ht).
    rewrite bind_eq, Hi, Ht.
    rewrite !bind_eq, addLog_eq. unfold ret. cbn [fst snd].
    match goal with |- context [mutate_kth is_healthy_file i ?g _] =>
      destruct (mutate_kth_split is_healthy_file g (files (mem w)) i t Ht)
        as (m1 & k & m2 & Hm & Hm' & Hok)
    end.
    intros Hkl. right.
    split; [intros H0; rewrite H0 in Hpos; cbn in Hpos; lia |].
    exists m1, k, t, m2. eexists. eexists.
    split; [exact Hm |].
    split; [unfold is_healthy_file in Hok; now apply negb_true_iff in Hok |].
    split; [reflexivity |]. split; [reflexivity |]. split; [reflexivity |].
    split; [exact Hm' |]. split; [reflexivity | exact Hkl].
  - intros _. left. apply filter_nil_length in Hlen. split; [exact Hlen |].
    unfold no_fault, ret. cbn. auto.
Qed.

Lemma length_pos_nonempty {A} (l : list A) :
  (0 <? List.length l)%nat = true <-> l <> [].
Proof.
  destruct l; cbn; split; intros H; try reflexivity; try discriminate.
  now contradiction H.
Qed.

Lemma Qltb_false x y : Qltb x y = false <-> y <= x.
Proof.
  unfold Qltb. rewrite negb_false_iff. apply Qle_bool_iff.
Qed.

(** Which branch a round takes, by the draw [r] and the two map sizes. *)
Lemma round_crash E faults w :
  processes (mem w) <> [] -> Math_random E (rnd_calls w) < 3 # 10 ->
  injectRound E faults w = inject_crash E faults (snd (random E w)).
Proof.
  intros Hne Hr. unfold injectRound. rewrite !bind_eq. unfold gets.
  cbn [fst snd].
  change (fst (random E w)) with (Math_random E (rnd_calls w)).
  change (mem (snd (random E w))) with (mem w).
  apply Qltb_lt in Hr. rewrite Hr.
  apply length_pos_nonempty in Hne. rewrite Hne. reflexivity.
Qed.

Lemma round_freeze E faults w :
  processes (mem w) <> [] ->
  3 # 10 <= Math_random E (rnd_calls w) -> Math_random E (rnd_calls w) < 1 # 2 ->
  injectRound E faults w = inject_freeze E faults (snd (random E w)).
Proof.
  intros Hne H3 H5. unfold injectRound. rewrite !bind_eq. unfold gets.
  cbn [fst snd].
  change (fst (random E w)) with (Math_random E (rnd_calls w)).
  change (mem (snd (random E w))) with (mem w).
  apply Qltb_false in H3. apply Qltb_lt in H5. rewrite H3, H5.
  apply length_pos_nonempty in Hne. rewrite Hne. reflexivity.
Qed.

Lemma round_high_load E faults w :
  processes (mem w) <> [] ->
  1 # 2 <= Math_random E (rnd_calls w) -> Math_random E (rnd_calls w) < 7 # 10 ->
  injectRound E faults w = inject_high_load E faults (snd (random E w)).
Proof.
  intros Hne H5 H7. unfold injectRound. rewrite !bind_eq. unfold gets.
  cbn [fst snd].
  change (fst (random E w)) with (Math_random E (rnd_calls w)).
  change (mem (snd (random E w))) with (mem w).
  assert (H3 : 3 # 10 <= Math_random E (rnd_calls w)) by lra.
  apply Qltb_false in H3, H5. apply Qltb_lt in H7. rewrite H3, H5, H7.
  apply length_pos_nonempty in Hne. rewrite Hne. reflexivity.
Qed.

Lemma round_corruption E faults w :
  processes (mem w) = [] \/ 7 # 10 <= Math_random E (rnd_calls w) ->
  injectRound E faults w =
  if (0 <? List.length (files (mem w)))%nat
  then inject_corruption E faults (snd (random E w))
  else (Some faults, snd (random E w)).
Proof.
  intros Hor. unfold injectRound. rewrite !bind_eq. unfold gets.
  cbn [fst snd].
  change (fst (random E w)) with (Math_random E (rnd_calls w)).
  change (mem (snd (random E w))) with (mem w). destruct Hor as [Hnil | H7].
  - rewrite Hnil.
    change (0 <? List.length (@nil (Z * Process)))%nat with false.
    rewrite !andb_false_r.
    destruct (0 <? List.length (files (mem w)))%nat; reflexivity.
  - assert (H3 : 3 # 10 <= Math_random E (rnd_calls w)) by lra.
    assert (H5 : 1 # 2 <= Math_random E (rnd_calls w)) by lra.
    apply Qltb_false in H3, H5, H7. rewrite H3, H5, H7.
    destruct (0 <? List.length (files (mem w)))%nat; reflexivity.
Qed.

Lemma round_process_cases (E : Env) (faults : list Fault) (w : World) :
  random_unit E ->
  filter is_running (procs w) <> [] ->
  let r := Math_random E (rnd_calls w) in
  let out := injectRound E faults w in
  (r < 3 # 10 -> process_fault E crash faults w out) /\
  (3 # 10 <= r -> r < 1 # 2 -> process_fault E freeze faults w out) /\
  (1 # 2 <= r -> r < 7 # 10 -> process_fault E high_load_fault faults w out).
Proof.
  intros Hr Hpool r out. subst out.
  set (w0 := snd (random E w)).
  assert (Hne : processes (mem w) <> []).
  { intros Hnil. apply Hpool. unfold procs, map_values.
    rewrite Hnil. reflexivity. }
  split; [| split].
  - intros H3. rewrite round_crash by assumption.
    destruct (inject_crash_spec E faults w0 Hr) as [[H0 _] | [_ H]];
      [contradiction | exact H].
  - intros H3 H5. rewrite round_freeze by assumption.
    destruct (inject_freeze_spec E faults w0 Hr) as [[H0 _] | [_ H]];
      [contradiction | exact H].
  - intros H5 H7. rewrite round_high_load by assumption.
    destruct (inject_high_load_spec E faults w0 Hr) as [[H0 _] | [_ H]];
      [contradiction | exact H].
Qed.

Lemma round_empty_pool (E : Env) (faults : list Fault) (w : World) :
  random_unit E ->
  processes (mem w) <> [] -> Math_random E (rnd_calls w) < 7 # 10 ->
  filter is_running (procs w) = [] ->
  no_fault E faults w (injectRound E faults w).
Proof.
  intros Hr Hne H7 Hpool.
  set (r := Math_random E (rnd_calls w)) in *.
  set (w0 := snd (random E w)).
  destruct (Qlt_le_dec r (3 # 10)) as [H3 | H3].
  { rewrite round_crash by assumption.
    destruct (inject_crash_spec E faults w0 Hr) as [[_ H] | [H0 _]];
      [exact H | contradiction]. }
  destruct (Qlt_le_dec r (1 # 2)) as [H5 | H5].
  { rewrite round_freeze by assumption.
    destruct (inject_freeze_spec E faults w0 Hr) as [[_ H] | [H0 _]];
      [exact H | contradiction]. }
  rewrite round_high_load by assumption.
  destruct (inject_high_load_spec E faults w0 Hr) as [[_ H] | [H0 _]];
    [exact H | contradiction].
Qed.

Lemma round_corruption_cases (E : Env) (faults : list Fault) (w : World) :
  random_unit E ->
  processes (mem w) = [] \/ 7 # 10 <= Math_random E (rnd_calls w) ->
  (filter is_healthy_file (sysfiles w) <> [] ->
     file_fault E faults w (injectRound E faults w)) /\
  (filter is_healthy_file (sysfiles w) = [] ->
     no_fault E faults w (injectRound E faults w)).
Proof.
  intros Hr Hor. rewrite round_corruption by exact Hor.
  set (w0 := snd (random E w)).
  pose proof (inject_corruption_spec E faults w0 Hr) as Hcorr.
  change (sysfiles w0) with (sysfiles w) in Hcorr.
  destruct (0 <? List.length (files (mem w)))%nat eqn:Hnf.
  - split; intros Hfp.
    + destruct Hcorr as [[H0 _] | [_ H]]; [contradiction | exact H].
    + destruct Hcorr as [[_ H] | [H0 _]]; [exact H | contradiction].
  - assert (Hfnil : filter is_healthy_file (sysfiles w) = []).
    { unfold sysfiles, map_values.
      destruct (files (mem w)); [reflexivity | discriminate]. }
    split; intros Hfp; [contradiction |].
    unfold no_fault. cbn. auto.
Qed.

(** C3 (as amended). In every selection round the single draw [r] selects
    crash below 0.3, freeze in [0.3, 0.5), high_load in [0.5, 0.7) and
    corruption from 0.7 on; a store without any process sends every draw
    to the corruption branch; and when the selected category finds its
    pool empty (no running process, no uncorrupted file) the round pushes
    no fault and leaves the store as it was. *)
Theorem injectRound_selection (E : Env) (faults : list Fault) (w : World) :
  random_unit E ->
  let r := Math_random E (rnd_calls w) in
  let out := injectRound E faults w in
  let pool := filter is_running (procs w) in
  let fpool := filter is_healthy_file (sysfiles w) in
  (pool <> [] ->
     (r < 3 # 10 -> process_fault E crash faults w out) /\
     (3 # 10 <= r -> r < 1 # 2 -> process_fault E freeze faults w out) /\
     (1 # 2 <= r -> r < 7 # 10 ->
        process_fault E high_load_fault faults w out)) /\
  (processes (mem w) <> [] -> r < 7 # 10 -> pool = [] ->
     no_fault E faults w out) /\
  (processes (mem w) = [] \/ 7 # 10 <= r ->
     (fpool <> [] -> file_fault E faults w out) /\
     (fpool = [] -> no_fault E faults w out)).
Proof.
  intros Hr r out pool fpool. split; [| split].
  - intros Hpool. exact (round_process_cases E faults w Hr Hpool).
  - intros Hne H7 Hpool. exact (round_empty_pool E faults w Hr Hne H7 Hpool).
  - intros Hor. exact (round_corruption_cases E faults w Hr Hor).
Qed.

(** C3 as stated fails: in the fresh store after six injections under
    [env_tenth] every process is crashed and all eight files are intact;
    the next round draws 0.1, selects crash, finds no running process and
    pushes nothing, although the corruption pool is not empty. *)
Lemma injectRound_no_fallthrough :
  let w := Nat.iter 6 (fun w => snd (injectFaults env_tenth w))
                    (new_MemStorage env_tenth) in
  filter is_running (procs w) = [] /\
  List.length (filter is_healthy_file (sysfiles w)) = 8%nat /\
  Math_random env_tenth (rnd_calls w) < 3 # 10 /\
  fst (injectRound env_tenth [] w) = Some [] /\
  mem (snd (injectRound env_tenth [] w)) = mem w.
Proof.
  cbv zeta. split; [vm_compute; reflexivity |].
  split; [vm_compute; reflexivity |].
  split; [vm_compute; reflexivity |].
  split; vm_compute; reflexivity.
Qed.

(** ** Maps whose keys are the ids of their objects *)

Section KeyedMaps.
Context {K V : Type} (keq : K -> K -> bool) (key_of : V -> K).
Hypothesis keq_eq : forall a b, keq a b = true <-> a = b.

Lemma keq_refl k : keq k k = true.
Proof. now apply keq_eq. Qed.

Lemma keq_neq a b : a <> b -> keq a b = false.
Proof.
  intros H. destruct (keq a b) eqn:Hab; [| reflexivity].
  apply keq_eq in Hab. contradiction.
Qed.

Lemma map_get_here (m1 : list (K * V)) k v m2 :
  ~ In k (map fst m1) -> map_get keq k (m1 ++ (k, v) :: m2) = Some v.
Proof.
  induction m1 as [| [k1 v1] m1 IH]; intros Hn; cbn.
  - now rewrite keq_refl.
  - cbn in Hn. rewrite keq_neq.
    + apply IH. intros Hin. apply Hn. right. exact Hin.
    + intros Heq. apply Hn. left. symmetry. exact Heq.
Qed.

Lemma map_get_other (m1 : list (K * V)) k v v' m2 k' :
  k' <> k ->
  map_get keq k' (m1 ++ (k, v) :: m2) = map_get keq k' (m1 ++ (k, v') :: m2).
Proof.
  intros Hne. induction m1 as [| [k1 v1] m1 IH]; cbn.
  - now rewrite (keq_neq _ _ Hne).
  - destruct (keq k' k1); [reflexivity | exact IH].
Qed.

Lemma keyed_mid_fresh (m1 : list (K * V)) k v m2 :
  keyed key_of (m1 ++ (k, v) :: m2) -> ~ In k (map fst m1).
Proof.
  intros [Hnd _] Hin. rewrite map_app in Hnd. cbn in Hnd.
  apply NoDup_remove_2 in Hnd. apply Hnd. apply in_or_app. now left.
Qed.

Lemma keyed_lookup (m1 : list (K * V)) k v m2 :
  keyed key_of (m1 ++ (k, v) :: m2) ->
  map_get keq k (m1 ++ (k, v) :: m2) = Some v /\ key_of v = k.
Proof.
  intros Hk. split.
  - apply map_get_here. eapply keyed_mid_fresh; exact Hk.
  - destruct Hk as [_ Hf]. apply Forall_app in Hf. destruct Hf as [_ Hf].
    inversion Hf; subst. assumption.
Qed.

Lemma keyed_replace (m1 : list (K * V)) k v v' m2 :
  keyed key_of (m1 ++ (k, v) :: m2) -> key_of v' = k ->
  keyed key_of (m1 ++ (k, v') :: m2).
Proof.
  intros [Hnd Hf] Hv'. split.
  - rewrite map_app in *. exact Hnd.
  - apply Forall_app in Hf. destruct Hf as [Hf1 Hf2].
    apply Forall_app. split; [exact Hf1 |].
    inversion Hf2 as [| ? ? Hh Ht]. constructor; [exact Hv' | exact Ht].
Qed.

Lemma map_set_keys k v (m : list (K * V)) k' :
  In k' (map fst (map_set keq k v m)) -> k' = k \/ In k' (map fst m).
Proof.
  induction m as [| [k1 v1] m IH]; cbn.
  - intros [H | []]. now left.
  - destruct (keq k k1) eqn:Hk; cbn.
    + apply keq_eq in Hk. subst. tauto.
    + intros [H | H]; [tauto |]. destruct (IH H); tauto.
Qed.

Lemma keyed_map_set k v (m : list (K * V)) :
  keyed key_of m -> key_of v = k -> keyed key_of (map_set keq k v m).
Proof.
  intros [Hnd Hf] Hv. induction m as [| [k1 v1] m IH]; cbn.
  - split; [constructor; [intros [] | constructor] | constructor; auto].
  - cbn in Hnd. inversion Hnd as [| ? ? Hnin Hnd'].
    inversion Hf as [| ? ? Hk1 Hf'].
    destruct (keq k k1) eqn:Hk.
    + apply keq_eq in Hk. rewrite <- Hk in Hnin. split; cbn.
      * constructor; assumption.
      * constructor; [exact Hv | exact Hf'].
    + destruct (IH Hnd' Hf') as [IH1 IH2]. split; cbn.
      * constructor; [| exact IH1]. intros Hin.
        destruct (map_set_keys _ _ _ _ Hin) as [Heq | Hin'].
        -- rewrite Heq, keq_refl in Hk. discriminate.
        -- contradiction.
      * constructor; [exact Hk1 | exact IH2].
Qed.

Lemma map_set_values (P : V -> Prop) k v (m : list (K * V)) :
  P v -> Forall P (map snd m) -> Forall P (map snd (map_set keq k v m)).
Proof.
  intros Hv. induction m as [| [k1 v1] m IH]; cbn; intros Hm.
  - constructor; auto.
  - inversion Hm; subst. destruct (keq k k1); cbn; constructor; auto.
Qed.

Lemma map_set_nonempty k v (m : list (K * V)) : map_set keq k v m <> [].
Proof. destruct m as [| [k1 v1] m]; cbn; [| destruct (keq k k1)]; discriminate. Qed.
End KeyedMaps.

(** Every round ends in one of the three outcomes, and pushes a fault
    whenever both pools have a member. *)
Lemma injectRound_outcome (E : Env) (faults : list Fault) (w : World) :
  random_unit E ->
  ((filter is_running (procs w) = [] \/
    filter is_healthy_file (sysfiles w) = []) /\
   no_fault E faults w (injectRound E faults w)) \/
  (exists ft, process_fault E ft faults w (injectRound E faults w)) \/
  file_fault E faults w (injectRound E faults w).
Proof.
  intros Hr.
  pose proof (round_process_cases E faults w Hr) as HA.
  pose proof (round_empty_pool E faults w Hr) as HB.
  pose proof (round_corruption_cases E faults w Hr) as HC.
  cbv zeta in HA.
  set (r := Math_random E (rnd_calls w)) in *.
  assert (Hfp : filter is_healthy_file (sysfiles w) = [] \/
                filter is_healthy_file (sysfiles w) <> []).
  { destruct (filter is_healthy_file (sysfiles w)); [left | right];
      [reflexivity | discriminate]. }
  assert (Hpp : filter is_running (procs w) = [] \/
                filter is_running (procs w) <> []).
  { destruct (filter is_running (procs w)); [left | right];
      [reflexivity | discriminate]. }
  assert (Hcorr : processes (mem w) = [] \/ 7 # 10 <= r ->
                  (filter is_healthy_file (sysfiles w) = [] /\
                   no_fault E faults w (injectRound E faults w)) \/
                  file_fault E faults w (injectRound E faults w)).
  { intros Hor. destruct (HC Hor) as [H1 H2].
    destruct Hfp as [Hfp | Hfp]; [left; auto | right; auto]. }
  destruct (Qlt_le_dec r (7 # 10)) as [H7 | H7].
  2:{ destruct (Hcorr (or_intror H7)) as [[H0 Hn] | Hf]; auto. }
  destruct (processes (mem w)) as [| kp ps] eqn:Hps.
  { destruct (Hcorr (or_introl eq_refl)) as [[H0 Hn] | Hf]; auto. }
  destruct Hpp as [Hp | Hp].
  { left. split; [left; exact Hp |]. apply HB; [discriminate | exact H7 | exact Hp]. }
  right. left. destruct (HA Hp) as (H1 & H2 & H3).
  destruct (Qlt_le_dec r (3 # 10)) as [Q3 | Q3]; [eauto |].
  destruct (Qlt_le_dec r (1 # 2)) as [Q5 | Q5]; eauto.
Qed.

Lemma hit_process_facts ft t p' :
  hit_process ft t p' ->
  pid p' = pid t /\ expected_status ft = Some (status p') /\
  status p' <> running.
Proof.
  destruct ft; cbn; try contradiction.
  - intros ->. cbn. repeat split; discriminate.
  - intros [h ->]. cbn. repeat split; discriminate.
  - intros (c & m & _ & _ & ->). cbn. repeat split; discriminate.
Qed.

Lemma expected_status_faulty ft s :
  expected_status ft = Some s -> status_eqb running s = false.
Proof. destruct ft; cbn; intros H; inversion H; reflexivity. Qed.

Lemma round_inv_process_fault E ft faults w out :
  round_inv w faults -> process_fault E ft faults w out ->
  exists f, fst out = Some (faults ++ [f]) /\
            round_inv (snd out) (faults ++ [f]).
Proof.
  intros [[Hkp Hkf] Hrefl]
    (m1 & k & t & m2 & f & p' & Hm & Hrun & Hout & Hft & Hid & Hhit
     & Hm' & Hfiles & _).
  exists f. split; [exact Hout |].
  destruct (hit_process_facts _ _ _ Hhit) as (Hpid & Hexp & Hnr).
  rewrite Hm in Hkp.
  destruct (keyed_lookup Z.eqb pid Z.eqb_eq _ _ _ _ Hkp) as [Hget Hkey].
  pose proof (keyed_mid_fresh pid _ _ _ _ Hkp) as Hfresh.
  split.
  - split; [rewrite Hm' | rewrite Hfiles; exact Hkf].
    apply (keyed_replace pid _ _ t); [exact Hkp | congruence].
  - rewrite forallb_app. apply andb_true_iff. split.
    + rewrite forallb_forall in *. intros f0 Hin.
      specialize (Hrefl f0 Hin). revert Hrefl. unfold fault_reflected.
      rewrite Hfiles, Hm', Hm.
      destruct (f_targetId f0) as [p0 | i0]; [| auto].
      destruct (Z.eq_dec p0 k) as [-> | Hne].
      * rewrite Hget.
        destruct (expected_status (ftype f0)) as [s |] eqn:Hs; [| auto].
        unfold is_running in Hrun. apply status_eqb_eq in Hrun.
        rewrite Hrun, (expected_status_faulty _ _ Hs). discriminate.
      * now rewrite (map_get_other Z.eqb Z.eqb_eq m1 k t p' m2 p0 Hne).
    + cbn. rewrite andb_true_r. unfold fault_reflected.
      rewrite Hid, Hft, Hexp, Hm', Hkey.
      rewrite (map_get_here Z.eqb Z.eqb_eq _ _ _ _ Hfresh).
      now apply status_eqb_eq.
Qed.

Lemma round_inv_file_fault E faults w out :
  round_inv w faults -> file_fault E faults w out ->
  exists f, fst out = Some (faults ++ [f]) /\
            round_inv (snd out) (faults ++ [f]).
Proof.
  intros [[Hkp Hkf] Hrefl]
    (m1 & k & t & m2 & f & cs & Hm & Hc & Hout & Hft & Hid & Hm' & Hprocs & _).
  exists f. split; [exact Hout |].
  rewrite Hm in Hkf.
  destruct (keyed_lookup String.eqb fid String.eqb_eq _ _ _ _ Hkf)
    as [Hget Hkey].
  pose proof (keyed_mid_fresh fid _ _ _ _ Hkf) as Hfresh.
  split.
  - split; [rewrite Hprocs; exact Hkp | rewrite Hm'].
    apply (keyed_replace fid _ _ t); [exact Hkf | exact Hkey].
  - rewrite forallb_app. apply andb_true_iff. split.
    + rewrite forallb_forall in *. intros f0 Hin.
      specialize (Hrefl f0 Hin). revert Hrefl. unfold fault_reflected.
      rewrite Hprocs, Hm', Hm.
      destruct (f_targetId f0) as [p0 | i0]; [auto |].
      destruct (String.eqb_spec i0 k) as [-> | Hne].
      * rewrite Hget. destruct (ftype f0); auto. rewrite Hc. discriminate.
      * now rewrite (map_get_other String.eqb String.eqb_eq m1 k t
                       (set_checksum cs (set_corrupted true t)) m2 i0 Hne).
    + cbn. rewrite andb_true_r. unfold fault_reflected.
      rewrite Hid, Hft, Hm', Hkey.
      now rewrite (map_get_here String.eqb String.eqb_eq _ _ _ _ Hfresh).
Qed.

Lemma round_inv_no_fault E faults w out :
  round_inv w faults -> no_fault E faults w out ->
  fst out = Some faults /\ round_inv (snd out) faults.
Proof.
  intros [[Hkp Hkf] Hrefl] (Hout & Hmem & _). split; [exact Hout |].
  unfold round_inv, keys_ok, fault_reflected in *. rewrite Hmem. auto.
Qed.

Lemma round_step (E : Env) (faults : list Fault) (w : World) :
  random_unit E -> round_inv w faults ->
  exists faults',
    fst (injectRound E faults w) = Some faults' /\
    round_inv (snd (injectRound E faults w)) faults' /\
    (List.length faults <= List.length faults' <= S (List.length faults))%nat /\
    (filter is_running (procs w) <> [] ->
     filter is_healthy_file (sysfiles w) <> [] ->
     List.length faults' = S (List.length faults)).
Proof.
  intros Hr Hinv.
  destruct (injectRound_outcome E faults w Hr) as [[Hpools Hn] | [[ft Hp] | Hf]].
  - destruct (round_inv_no_fault E _ _ _ Hinv Hn) as [Ho Hi].
    exists faults.
    split; [exact Ho | split; [exact Hi | split; [lia |]]].
    intros H1 H2. destruct Hpools; contradiction.
  - destruct (round_inv_process_fault E _ _ _ _ Hinv Hp) as (f & Ho & Hi).
    exists (faults ++ [f]). rewrite length_app. cbn.
    split; [exact Ho | split; [exact Hi | split; [lia |]]].
    intros _ _. lia.
  - destruct (round_inv_file_fault E _ _ _ Hinv Hf) as (f & Ho & Hi).
    exists (faults ++ [f]). rewrite length_app. cbn.
    split; [exact Ho | split; [exact Hi | split; [lia |]]].
    intros _ _. lia.
Qed.

Lemma injectLoop_S E n faults w :
  injectLoop E (S n) faults w =
  match fst (injectRound E faults w) with
  | None => (None, snd (injectRound E faults w))
  | Some faults' => injectLoop E n faults' (snd (injectRound E faults w))
  end.
Proof.
  cbn [injectLoop]. rewrite bind_eq.
  destruct (fst (injectRound E faults w)); reflexivity.
Qed.

Lemma injectLoop_spec (E : Env) (n : nat) : forall faults w,
  random_unit E -> round_inv w faults ->
  exists faults',
    fst (injectLoop E n faults w) = Some faults' /\
    round_inv (snd (injectLoop E n faults w)) faults' /\
    (List.length faults <= List.length faults' <= List.length faults + n)%nat /\
    ((0 < n)%nat ->
     filter is_running (procs w) <> [] ->
     filter is_healthy_file (sysfiles w) <> [] ->
     (S (List.length faults) <= List.length faults')%nat).
Proof.
  induction n as [| n IH]; intros faults w Hr Hinv.
  - exists faults. cbn.
    split; [reflexivity | split; [exact Hinv | split; [lia |]]].
    intros H. lia.
  - rewrite injectLoop_S.
    destruct (round_step E faults w Hr Hinv) as (f1 & Ho & Hi & Hlen & Hgrow).
    rewrite Ho.
    destruct (IH f1 _ Hr Hi) as (f2 & Ho2 & Hi2 & Hlen2 & _).
    exists f2.
    split; [exact Ho2 | split; [exact Hi2 | split; [lia |]]].
    intros _ H1 H2. specialize (Hgrow H1 H2). lia.
Qed.

(** Generic invariants of the selection loop. *)
Lemma injectLoop_inv (E : Env) (P : World -> Prop) :
  (forall faults w, P w ->
     fst (injectRound E faults w) <> None /\
     P (snd (injectRound E faults w))) ->
  forall n faults w, P w -> P (snd (injectLoop E n faults w)).
Proof.
  intros Hstep. induction n as [| n IH]; intros faults w Hw; [exact Hw |].
  rewrite injectLoop_S. destruct (Hstep faults w Hw) as [Hsome Hw'].
  destruct (fst (injectRound E faults w)) as [f1 |]; [| contradiction].
  apply IH. exact Hw'.
Qed.

Lemma floor_scaled (r : Q) (n : Z) :
  0 <= r -> r < 1 -> (0 < n)%Z ->
  (0 <= Qfloor (r * inject_Z n) < n)%Z.
Proof.
  intros H0 H1 Hn.
  assert (Hn' : 0 < inject_Z n) by (rewrite <- (Zlt_Qlt 0); exact Hn).
  assert (Hx0 : 0 <= r * inject_Z n) by (apply Qmult_le_0_compat; lra).
  assert (Hx1 : r * inject_Z n < inject_Z n).
  { setoid_replace (inject_Z n) with (1 * inject_Z n) at 2 by ring.
    apply Qmult_lt_compat_r; assumption. }
  split.
  - rewrite <- (Qfloor_Z 0). apply Qfloor_resp_le. exact Hx0.
  - rewrite Zlt_Qlt. eapply Qle_lt_trans; [apply Qfloor_le | exact Hx1].
Qed.

Lemma round_inv_same (w w' : World) faults :
  processes (mem w') = processes (mem w) -> files (mem w') = files (mem w) ->
  round_inv w faults -> round_inv w' faults.
Proof.
  intros Hp Hf. unfold round_inv, keys_ok, fault_reflected.
  rewrite Hp, Hf. auto.
Qed.

Lemma injectFaults_eq E w :
  injectFaults E w =
  let n := Z.to_nat (Qfloor (Math_random E (rnd_calls w) * 3) + 1) in
  let l := injectLoop E n [] (snd (random E w)) in
  match fst l with
  | None => (None, snd l)
  | Some faults =>
      (Some faults,
       if (List.length faults =? 0)%nat
       then snd (addLog E (mkInsertLog info "Fault Injection"
                   "Attempted fault injection but all systems are already faulty or no valid targets found.")
                   (snd l))
       else snd l)
  end.
Proof.
  unfold injectFaults. rewrite !bind_eq. cbv zeta.
  change (fst (random E w)) with (Math_random E (rnd_calls w)).
  destruct (fst (injectLoop E _ [] (snd (random E w)))) as [faults |];
    [| reflexivity].
  rewrite !bind_eq. unfold ret. cbn [fst snd].
  destruct (List.length faults =? 0)%nat; rewrite ?bind_eq; reflexivity.
Qed.

Lemma numFaults_range E w :
  random_unit E ->
  (1 <= Z.to_nat (Qfloor (Math_random E (rnd_calls w) * 3) + 1) <= 3)%nat.
Proof.
  intros Hr. destruct (Hr (rnd_calls w)) as [H0 H1].
  pose proof (floor_scaled _ 3 H0 H1 eq_refl) as Hf.
  change (inject_Z 3) with 3 in Hf. lia.
Qed.

Lemma injectFaults_spec (E : Env) (w : World) :
  random_unit E -> round_inv w [] ->
  exists faults,
    fst (injectFaults E w) = Some faults /\
    round_inv (snd (injectFaults E w)) faults /\
    (List.length faults <= 3)%nat /\
    (filter is_running (procs w) <> [] ->
     filter is_healthy_file (sysfiles w) <> [] ->
     (1 <= List.length faults)%nat).
Proof.
  intros Hr Hinv. rewrite injectFaults_eq. cbv zeta.
  pose proof (numFaults_range E w Hr) as Hn.
  set (n := Z.to_nat _) in *.
  destruct (injectLoop_spec E n [] (snd (random E w)) Hr Hinv)
    as (faults & Ho & Hi & Hlen & Hgrow).
  rewrite Ho. exists faults. cbn [fst snd List.length] in *.
  split; [reflexivity |]. split; [| split; [lia |]].
  - destruct (List.length faults =? 0)%nat; [| exact Hi].
    revert Hi. apply round_inv_same; rewrite addLog_eq; reflexivity.
  - intros H1 H2. assert (0 < n)%nat by lia. specialize (Hgrow H H1 H2). lia.
Qed.

(** ** The initial store *)

Lemma for_range_inv (P : World -> Prop) (body : nat -> M unit) :
  (forall i w, P w -> P (snd (body i w))) ->
  forall count from w, P w -> P (snd (for_range from count body w)).
Proof.
  intros Hb. induction count as [| c IH]; intros from w Hw; [exact Hw |].
  cbn [for_range]. rewrite bind_eq. apply IH, Hb, Hw.
Qed.

Lemma for_of_inv {A} (P : World -> Prop) (body : A -> M unit) :
  (forall x w, P w -> P (snd (body x w))) ->
  forall xs w, P w -> P (snd (for_of xs body w)).
Proof.
  intros Hb. induction xs as [| x xs IH]; intros w Hw; [exact Hw |].
  cbn [for_of]. rewrite bind_eq. apply IH, Hb, Hw.
Qed.

Lemma kl_init_process E i : keeps_logs E (init_process E i).
Proof. unfold init_process. repeat kl_step. Qed.

Lemma kl_init_file E t : keeps_logs E (init_file E t).
Proof. unfold init_file. destruct t as [[a b] c]. repeat kl_step. Qed.

Lemma init_process_ok E i w :
  fresh_ok E w ->
  fresh_ok E (snd (init_process E i w)) /\
  processes (mem (snd (init_process E i w))) <> [].
Proof.
  intros ([Hkp Hkf] & Hrun & Hcor & Hok & Hlog).
  pose proof (kl_init_process E i w) as Hkl. revert Hkl.
  unfold init_process. rewrite !bind_eq. unfold gets, modify, ret.
  cbn [fst snd mem processes files set_processes set_nextPid].
  intros Hkl.
  split; [| apply map_set_nonempty].
  split; [split; [| exact Hkf] |].
  { apply (keyed_map_set Z.eqb pid Z.eqb_eq); [exact Hkp | reflexivity]. }
  split; [| split; [exact Hcor | split]].
  - unfold procs, map_values. cbn [mem processes].
    apply map_set_values; [reflexivity | exact Hrun].
  - intros Hr. unfold procs, map_values. cbn [mem processes].
    apply map_set_values; [| exact (Hok Hr)].
    unfold proc_ok. cbn [memory cpu status status_eqb].
    match goal with
    | |- (_ <= fst (randomBetween E ?a ?b ?w1) /\ _) /\
         fst (randomBetween E ?c ?d ?w2) <= _ /\ _ =>
        pose proof (randomBetween_range E a b w1 Hr) as H1;
        pose proof (randomBetween_range E c d w2 Hr) as H2
    end.
    destruct (H1 ltac:(lra)) as [A B]. destruct (H2 ltac:(lra)) as [C D].
    split; [split; lra | split; lra].
  - intros Hc. apply Hkl; auto.
Qed.

Lemma init_file_ok E t w :
  fresh_ok E w ->
  fresh_ok E (snd (init_file E t w)) /\
  files (mem (snd (init_file E t w))) <> [] /\
  processes (mem (snd (init_file E t w))) = processes (mem w).
Proof.
  intros ([Hkp Hkf] & Hrun & Hcor & Hok & Hlog).
  pose proof (kl_init_file E t w) as Hkl. revert Hkl.
  unfold init_file. destruct t as [[t_name t_path] t_size].
  rewrite !bind_eq. unfold gets, modify, ret.
  cbn [fst snd mem processes files set_files].
  intros Hkl.
  split; [| split; [apply map_set_nonempty | reflexivity]].
  split; [split; [exact Hkp |] |].
  { apply (keyed_map_set String.eqb fid String.eqb_eq);
      [exact Hkf | reflexivity]. }
  split; [exact Hrun | split; [| split; [exact Hok |]]].
  - unfold sysfiles, map_values. cbn [mem files].
    apply map_set_values; [reflexivity | exact Hcor].
  - intros Hc. apply Hkl; auto.
Qed.

Lemma fresh_ok_empty E : fresh_ok E empty_world.
Proof.
  unfold fresh_ok, keys_ok, keyed, logs_inv. cbn.
  repeat split; intros; constructor.
Qed.

Lemma fresh_ok_frame E w w' :
  frame E w w' -> fresh_ok E w -> fresh_ok E w'.
Proof.
  intros (Hp & Hf & Hl) (Hk & Hrun & Hcor & Hok & Hlog).
  unfold fresh_ok, keys_ok, procs, sysfiles in *. rewrite Hp, Hf.
  split; [exact Hk | split; [exact Hrun | split; [exact Hcor |]]].
  split; [exact Hok | intros Hc; auto].
Qed.

Lemma new_MemStorage_eq E :
  new_MemStorage E =
  snd (modify (set_initialized true)
    (snd (addLog E (mkInsertLog info "System Initialized"
      "Self-Healing OS Simulator started successfully. All systems operational.")
       (snd (for_of FILE_TEMPLATES (init_file E)
          (snd (for_range 0 6 (init_process E) empty_world))))))).
Proof.
  unfold new_MemStorage, initializeSystem.
  rewrite bind_eq. unfold gets at 1 2.
  cbn [fst snd mem initialized empty_world].
  rewrite !bind_eq. reflexivity.
Qed.

Lemma for_range_S from c body w :
  for_range from (S c) body w = for_range (S from) c body (snd (body from w)).
Proof. cbn [for_range]. now rewrite bind_eq. Qed.

Lemma for_of_cons {A} (x : A) xs body w :
  for_of (x :: xs) body w = for_of xs body (snd (body x w)).
Proof. cbn [for_of]. now rewrite bind_eq. Qed.


Lemma init_processes_ok E :
  fresh_ok E (snd (for_range 0 6 (init_process E) empty_world)) /\
  processes (mem (snd (for_range 0 6 (init_process E) empty_world))) <> [].
Proof.
  rewrite for_range_S.
  destruct (init_process_ok E 0 empty_world (fresh_ok_empty E)) as [Ha Hb].
  apply (for_range_inv (fun w => fresh_ok E w /\ processes (mem w) <> []));
    [| split; assumption].
  intros i w [Hw _]. apply init_process_ok. exact Hw.
Qed.

Lemma init_files_ok E w :
  fresh_ok E w -> processes (mem w) <> [] ->
  fresh_ok E (snd (for_of FILE_TEMPLATES (init_file E) w)) /\
  processes (mem (snd (for_of FILE_TEMPLATES (init_file E) w))) <> [] /\
  files (mem (snd (for_of FILE_TEMPLATES (init_file E) w))) <> [].
Proof.
  intros Ha Hb. unfold FILE_TEMPLATES. rewrite for_of_cons.
  match goal with |- context [init_file E ?t w] =>
    destruct (init_file_ok E t w Ha) as (Hc & Hd & He) end.
  apply (for_of_inv (fun w => fresh_ok E w /\ processes (mem w) <> [] /\
                              files (mem w) <> [])).
  - intros x w0 (Hw & Hp & _).
    destruct (init_file_ok E x w0 Hw) as (Hx & Hy & Hz).
    rewrite Hz. auto.
  - rewrite He. auto.
Qed.

Lemma fresh_pools_frame E w w' :
  frame E w w' -> fresh_pools E w -> fresh_pools E w'.
Proof.
  intros Hfr (Hok & Hp & Hf). split; [exact (fresh_ok_frame E _ _ Hfr Hok) |].
  destruct Hfr as (Hp' & Hf' & _). unfold procs, sysfiles.
  rewrite Hp', Hf'. auto.
Qed.

Lemma frame_set_initialized E b w :
  frame E w (snd (modify (set_initialized b) w)).
Proof. unfold frame. cbn. auto. Qed.

(** The store [new MemStorage()] builds: nothing faulted, at least one
    process and one file, ids as keys, metrics within bounds. *)
Lemma new_MemStorage_ok E : fresh_pools E (new_MemStorage E).
Proof.
  rewrite new_MemStorage_eq.
  eapply fresh_pools_frame; [apply frame_set_initialized |].
  eapply fresh_pools_frame; [apply frame_addLog |].
  destruct (init_processes_ok E) as [Ha Hb].
  destruct (init_files_ok E _ Ha Hb) as (Hc & Hd & He).
  split; [exact Hc |]. unfold procs, sysfiles, map_values.
  split; intros Hnil; apply map_eq_nil in Hnil; [exact (Hd Hnil) | exact (He Hnil)].
Qed.

Lemma filter_all {A} (f : A -> bool) (l : list A) :
  Forall (fun x => f x = true) l -> filter f l = l.
Proof.
  induction 1 as [| x l Hx _ IH]; cbn; [reflexivity |].
  now rewrite Hx, IH.
Qed.

Lemma fresh_pools_nonempty E w :
  fresh_pools E w ->
  round_inv w [] /\
  filter is_running (procs w) <> [] /\
  filter is_healthy_file (sysfiles w) <> [].
Proof.
  intros ((Hk & Hrun & Hcor & _) & Hp & Hf).
  split; [split; [exact Hk | reflexivity] |].
  split.
  - rewrite filter_all; [exact Hp |].
    eapply Forall_impl; [| exact Hrun]. intros p Hs.
    unfold is_running. now apply status_eqb_eq.
  - rewrite filter_all; [exact Hf |].
    eapply Forall_impl; [| exact Hcor]. intros f Hc.
    unfold is_healthy_file. now rewrite Hc.
Qed.

(** C9. In the store that [new MemStorage()] builds every process is
    running and every file is intact, and one [injectFaults] there
    returns between one and three faults, each naming an entity that is
    now in the state of its category: crashed, frozen, high_load, or
    corrupted. *)
Theorem injectFaults_fresh (E : Env) :
  random_unit E ->
  Forall (fun p => status p = running) (procs (new_MemStorage E)) /\
  Forall (fun f => corrupted f = false) (sysfiles (new_MemStorage E)) /\
  exists faults,
    fst (injectFaults E (new_MemStorage E)) = Some faults /\
    (1 <= List.length faults <= 3)%nat /\
    forallb (fault_reflected (snd (injectFaults E (new_MemStorage E)))) faults
      = true.
Proof.
  intros Hr. pose proof (new_MemStorage_ok E) as Hfresh.
  destruct (fresh_pools_nonempty E _ Hfresh) as (Hinv & Hp & Hf).
  destruct Hfresh as ((_ & Hrun & Hcor & _) & _).
  split; [exact Hrun | split; [exact Hcor |]].
  destruct (injectFaults_spec E _ Hr Hinv) as (faults & Ho & [_ Hi] & Hle & Hge).
  exists faults. split; [exact Ho |]. split; [| exact Hi].
  specialize (Hge Hp Hf). lia.
Qed.

Lemma injectFaults_fresh_witness :
  exists faults,
    fst (injectFaults env_tenth (new_MemStorage env_tenth)) = Some faults /\
    (1 <= List.length faults <= 3)%nat /\
    forallb (fault_reflected
               (snd (injectFaults env_tenth (new_MemStorage env_tenth))))
            faults = true.
Proof.
  apply (injectFaults_fresh env_tenth).
  intros n. split; vm_compute; [discriminate | reflexivity].
Defined.

(** ** Metric bounds *)

Lemma for_processes_procs {S} (body : Process -> S -> M (Process * S))
    (acc : S) (w : World) :
  processes (mem (snd (for_processes body acc w)))
  = fst (fst (for_each_value body (processes (mem w)) acc w)).
Proof.
  unfold for_processes. rewrite !bind_eq. unfold gets, modify, ret.
  reflexivity.
Qed.

Lemma Forall2_Forall_snd {K V} (P : V -> Prop) (R : V -> V -> Prop)
    (m m' : list (K * V)) :
  (forall v v', R v v' -> P v -> P v') ->
  Forall2 (fun kv kv' => fst kv' = fst kv /\ R (snd kv) (snd kv')) m m' ->
  Forall P (map snd m) -> Forall P (map snd m').
Proof.
  intros HR. induction 1 as [| kv kv' m m' [_ Hv] _ IH]; cbn; intros HP;
    [constructor |].
  inversion HP; subst. constructor; [eapply HR; eassumption | auto].
Qed.

Lemma drift_process_ok E p a w :
  proc_ok p -> proc_ok (fst (fst (drift_process E p a w))).
Proof.
  intros Hp. unfold drift_process.
  destruct (status_eqb (status p) running) eqn:Hs; [| exact Hp].
  rewrite !bind_eq. unfold ret. cbn [fst snd].
  apply status_eqb_eq in Hs. unfold proc_ok. cbn. rewrite Hs. cbn.
  repeat split.
  - apply Q.le_max_l.
  - apply Q.max_lub; [lra | apply Q.le_min_l].
  - apply Q.max_lub; [lra | apply Q.le_min_l].
  - apply Q.le_max_l.
Qed.

Lemma driftTick_ok E w :
  Forall proc_ok (procs w) -> Forall proc_ok (procs (snd (driftTick E w))).
Proof.
  unfold driftTick, procs, map_values. rewrite for_processes_procs.
  assert (Hb : forall v acc w0,
             (proc_ok v -> proc_ok (fst (fst (drift_process E v acc w0)))) /\
             snd (fst (drift_process E v acc w0)) = acc /\ True).
  { intros v [] w0. split; [apply drift_process_ok |].
    split; [destruct (snd (fst (drift_process E v tt w0))); reflexivity
           | exact I]. }
  destruct (for_each_value_spec (K := Z) (drift_process E)
              (fun p p' => proc_ok p -> proc_ok p') (fun _ a => a)
              (fun _ _ => True) (fun _ => I) (fun _ _ _ _ _ => I) Hb
              (processes (mem w)) tt w) as (H & _ & _).
  apply (Forall2_Forall_snd proc_ok _ _ _ (fun v v' H => H) H).
Qed.

Lemma pass_rel_Forall {K V} (P : V -> Prop) (cond : V -> bool)
    (post : V -> V -> Prop) (m m' : list (K * V)) :
  (forall v v', cond v = true -> post v v' -> P v -> P v') ->
  pass_rel cond post m m' ->
  Forall P (map snd m) -> Forall P (map snd m').
Proof.
  intros HP. apply Forall2_Forall_snd.
  intros v v' [[Hc Hpost] | [_ ->]]; [eauto | auto].
Qed.

Lemma healFaults_ok E w :
  random_unit E ->
  Forall proc_ok (procs w) -> Forall proc_ok (procs (snd (healFaults E w))).
Proof.
  intros Hr Hok. rewrite healFaults_eq. cbv zeta.
  destruct (for_processes_spec E _ _ _ _ [] w (heal_crashed_spec E))
    as (Pa & _ & _ & _).
  set (a := for_processes (heal_crashed E) [] w) in *.
  destruct (for_processes_spec E _ _ _ _ (fst a) (snd a) (heal_frozen_spec E))
    as (Pb & _ & _ & _).
  set (b := for_processes (heal_frozen E) (fst a) (snd a)) in *.
  destruct (for_processes_spec E _ _ _ _ (fst b) (snd b)
              (heal_high_load_spec E)) as (Pc & _ & _ & _).
  set (c := for_processes (heal_high_load E) (fst b) (snd b)) in *.
  destruct (for_files_spec E _ _ _ _ (fst c) (snd c) (heal_corrupted_spec E))
    as (_ & _ & Fd & _).
  set (d := for_files (heal_corrupted E) (fst c) (snd c)) in *.
  assert (Hc : Forall proc_ok (map snd (processes (mem (snd c))))).
  { refine (pass_rel_Forall proc_ok _ _ _ _ _ Pc
             (pass_rel_Forall proc_ok _ _ _ _ _ Pb
                (pass_rel_Forall proc_ok _ _ _ _ _ Pa Hok))).
    - intros v v' _ (Hs & _ & Hb) _. destruct (Hb Hr) as [[? ?] [? ?]].
      unfold proc_ok. rewrite Hs. cbn. repeat split; lra.
    - intros v v' Hcnd (Hs & _ & Hcpu & Hmem) (Hm & Hc1 & Hc2).
      apply has_status_true in Hcnd. unfold proc_ok.
      rewrite Hs, Hcpu, Hmem. rewrite Hcnd in Hc2. cbn in *. auto.
    - intros v v' _ (Hs & _ & Hb) _. destruct (Hb Hr) as [[? ?] [? ?]].
      unfold proc_ok. rewrite Hs. cbn. repeat split; lra. }
  cbn [snd]. unfold procs, map_values.
  destruct (_ =? _)%nat.
  - destruct (frame_addLog E (mkInsertLog info "System Check"
       "No faults detected. All systems are operating normally.") (snd d))
      as (Hp & _ & _).
    rewrite Hp, Fd. exact Hc.
  - rewrite Fd. exact Hc.
Qed.

Lemma hit_process_ok ft t p' :
  is_running t = true -> proc_ok t -> hit_process ft t p' -> proc_ok p'.
Proof.
  unfold is_running. intros Hs (Hm & Hc1 & Hc2). apply status_eqb_eq in Hs.
  rewrite Hs in Hc2. cbn in Hc2. unfold proc_ok.
  destruct ft; cbn; try contradiction.
  - intros ->. cbn. repeat split; try lra; tauto.
  - intros [h ->]. cbn. repeat split; try lra; tauto.
  - intros (c & m & [? ?] & [? ?] & ->). cbn. repeat split; lra.
Qed.

Lemma Forall_mid {A} (P : A -> Prop) (l1 : list A) (x y : A) (l2 : list A) :
  (P x -> P y) -> Forall P (l1 ++ x :: l2) -> Forall P (l1 ++ y :: l2).
Proof.
  intros Hxy H. apply Forall_app in H. destruct H as [H1 H2].
  inversion H2; subst. apply Forall_app. split; [exact H1 |].
  constructor; auto.
Qed.

Lemma injectRound_ok E faults w :
  random_unit E -> Forall proc_ok (procs w) ->
  fst (injectRound E faults w) <> None /\
  Forall proc_ok (procs (snd (injectRound E faults w))).
Proof.
  intros Hr Hok.
  destruct (injectRound_outcome E faults w Hr)
    as [[_ (Ho & Hm & _)] | [[ft Hp] | Hf]].
  - split; [rewrite Ho; discriminate |]. unfold procs. now rewrite Hm.
  - destruct Hp as (m1 & k & t & m2 & f & p' & Hm & Hrun & Ho & _ & _ & Hhit
                    & Hm' & _).
    split; [rewrite Ho; discriminate |].
    unfold procs, map_values in *. rewrite Hm', map_app. rewrite Hm, map_app in Hok.
    cbn [map snd] in *. revert Hok. apply Forall_mid.
    intros Ht. exact (hit_process_ok _ _ _ Hrun Ht Hhit).
  - destruct Hf as (m1 & k & t & m2 & f & cs & _ & _ & Ho & _ & _ & _ & Hp & _).
    split; [rewrite Ho; discriminate |]. unfold procs. now rewrite Hp.
Qed.

Lemma injectFaults_ok E w :
  random_unit E ->
  Forall proc_ok (procs w) -> Forall proc_ok (procs (snd (injectFaults E w))).
Proof.
  intros Hr Hok. rewrite injectFaults_eq. cbv zeta.
  set (n := Z.to_nat _).
  pose proof (injectLoop_inv E (fun w => Forall proc_ok (procs w))
               (fun faults w0 H => injectRound_ok E faults w0 Hr H)
               n [] (snd (random E w)) Hok) as Hl.
  destruct (fst (injectLoop E n [] (snd (random E w)))) as [faults |];
    [| exact Hl].
  cbn [snd]. destruct (_ =? _)%nat; [| exact Hl].
  unfold procs. destruct (frame_addLog E (mkInsertLog info "Fault Injection"
     "Attempted fault injection but all systems are already faulty or no valid targets found.")
     (snd (injectLoop E n [] (snd (random E w))))) as (Hp & _ & _).
  rewrite Hp. exact Hl.
Qed.

(** C4 (as amended). In every store reached from [new MemStorage()] by
    drift ticks, [injectFaults] calls and [healFaults] calls, every
    process has memory within [10, 900] and cpu at most 99; its cpu is at
    least 0.5 unless it is crashed, and a crashed process has cpu 0. *)
Theorem metrics_bounded (E : Env) (ops : list Op) :
  random_unit E -> Forall proc_ok (procs (run E ops (new_MemStorage E))).
Proof.
  intros Hr. unfold run.
  assert (H0 : Forall proc_ok (procs (new_MemStorage E))).
  { destruct (new_MemStorage_ok E) as ((_ & _ & _ & Hok & _) & _). auto. }
  revert H0. generalize (new_MemStorage E).
  induction ops as [| op ops IH]; intros w Hw; [exact Hw |].
  cbn [fold_left]. apply IH. destruct op; cbn [exec].
  - apply driftTick_ok. exact Hw.
  - apply injectFaults_ok; assumption.
  - apply healFaults_ok; assumption.
Qed.

(** C4 as stated fails: one injection into the fresh store under
    [env_tenth] crashes process 1001, whose cpu of 0 is below the floor
    of the drift clamp. *)
Lemma crash_leaves_drift_clamp :
  forallb in_drift_clamp
    (procs (snd (injectFaults env_tenth (new_MemStorage env_tenth)))) = false /\
  option_map cpu
    (map_get Z.eqb 1001%Z
       (processes (mem (snd (injectFaults env_tenth
                               (new_MemStorage env_tenth)))))) = Some 0.
Proof. split; vm_compute; reflexivity. Qed.

(** ** The log buffer in every reachable store *)

Lemma kl_for_each_value E {K V S} (body : V -> S -> M (V * S))
    (m : list (K * V)) :
  (forall v a, keeps_logs E (body v a)) ->
  forall acc, keeps_logs E (for_each_value body m acc).
Proof.
  intros Hb. induction m as [| [k v] m IH]; intros acc; cbn [for_each_value].
  - apply kl_ret.
  - apply kl_bind; [apply Hb | intros [v' acc']].
    apply kl_bind; [apply IH | intros [m' acc'']]. apply kl_ret.
Qed.

Lemma kl_for_processes E {S} (body : Process -> S -> M (Process * S)) acc :
  (forall v a, keeps_logs E (body v a)) -> keeps_logs E (for_processes body acc).
Proof.
  intros Hb. unfold for_processes.
  apply kl_bind; [apply kl_gets | intros ps].
  apply kl_bind; [apply kl_for_each_value, Hb | intros r].
  apply kl_bind; [apply kl_set_processes | intros _; apply kl_ret].
Qed.

Lemma kl_for_files E {S} (body : SystemFile -> S -> M (SystemFile * S)) acc :
  (forall v a, keeps_logs E (body v a)) -> keeps_logs E (for_files body acc).
Proof.
  intros Hb. unfold for_files.
  apply kl_bind; [apply kl_gets | intros fs].
  apply kl_bind; [apply kl_for_each_value, Hb | intros r].
  apply kl_bind; [apply kl_set_files | intros _; apply kl_ret].
Qed.

Lemma kl_for_range E (body : nat -> M unit) :
  (forall i, keeps_logs E (body i)) ->
  forall count from, keeps_logs E (for_range from count body).
Proof.
  intros Hb. induction count as [| c IH]; intros from; cbn [for_range].
  - apply kl_ret.
  - apply kl_bind; [apply Hb | intros _; apply IH].
Qed.

Lemma kl_for_of E {A} (body : A -> M unit) (xs : list A) :
  (forall x, keeps_logs E (body x)) -> keeps_logs E (for_of xs body).
Proof.
  intros Hb. induction xs as [| x xs IH]; cbn [for_of].
  - apply kl_ret.
  - apply kl_bind; [apply Hb | intros _; apply IH].
Qed.

Lemma kl_driftTick E : keeps_logs E (driftTick E).
Proof.
  apply kl_for_processes. intros p a. unfold drift_process. repeat kl_step.
Qed.

Lemma kl_healFaults E : keeps_logs E (healFaults E).
Proof.
  unfold healFaults.
  apply kl_bind; [apply kl_for_processes; intros p a; unfold heal_crashed;
                  repeat kl_step | intros r1].
  apply kl_bind; [apply kl_for_processes; intros p a; unfold heal_frozen;
                  repeat kl_step | intros r2].
  apply kl_bind; [apply kl_for_processes; intros p a; unfold heal_high_load;
                  repeat kl_step | intros r3].
  apply kl_bind; [apply kl_for_files; intros p a; unfold heal_corrupted;
                  repeat kl_step | intros r4].
  repeat kl_step.
Qed.

Lemma kl_injectRound E faults : keeps_logs E (injectRound E faults).
Proof.
  unfold injectRound.
  apply kl_bind; [apply kl_random | intros r].
  apply kl_bind; [apply kl_gets | intros np].
  apply kl_bind; [apply kl_gets | intros nf].
  repeat match goal with
         | |- keeps_logs _ (if ?c then _ else _) => destruct c
         end;
    auto using kl_inject_crash, kl_inject_freeze, kl_inject_high_load,
               kl_inject_corruption, kl_ret.
Qed.

Lemma kl_injectLoop E n : forall faults, keeps_logs E (injectLoop E n faults).
Proof.
  induction n as [| n IH]; intros faults; cbn [injectLoop].
  - apply kl_ret.
  - apply kl_bind; [apply kl_injectRound | intros [f |]];
      [apply IH | apply kl_ret].
Qed.

Lemma kl_injectFaults E : keeps_logs E (injectFaults E).
Proof.
  unfold injectFaults.
  apply kl_bind; [apply kl_random | intros r].
  apply kl_bind; [apply kl_injectLoop | intros [f |]]; repeat kl_step.
Qed.

Lemma kl_repairFile E i : keeps_logs E (repairFile E i).
Proof. unfold repairFile. repeat kl_step. Qed.

Lemma kl_updateProcess E p u : keeps_logs E (updateProcess p u).
Proof. unfold updateProcess. repeat kl_step. Qed.

Lemma kl_updateFile E i u : keeps_logs E (updateFile i u).
Proof. unfold updateFile. repeat kl_step. Qed.

Lemma kl_getHealth E : keeps_logs E (getHealth E).
Proof. unfold getHealth, getProcesses, getFiles. repeat kl_step. Qed.

Lemma kl_initializeSystem E : keeps_logs E (initializeSystem E).
Proof.
  unfold initializeSystem.
  apply kl_bind; [apply kl_gets | intros [|]]; [apply kl_ret |].
  apply kl_bind; [apply kl_for_range; intros i; apply kl_init_process
                 | intros _].
  apply kl_bind; [apply kl_for_of; intros t; apply kl_init_file | intros _].
  repeat kl_step.
Qed.

Lemma logs_inv_reachable E (cs : list Call) :
  clock_monotone E -> logs_inv E (calls E cs (new_MemStorage E)).
Proof.
  intros Hc. unfold calls.
  assert (H0 : logs_inv E (new_MemStorage E)).
  { destruct (new_MemStorage_ok E) as ((_ & _ & _ & _ & Hl) & _). auto. }
  revert H0. generalize (new_MemStorage E).
  induction cs as [| c cs IH]; intros w Hw; [exact Hw |].
  cbn [fold_left]. apply IH. destruct c; cbn [call].
  - apply kl_driftTick; assumption.
  - apply kl_injectFaults; assumption.
  - apply kl_healFaults; assumption.
  - apply kl_repairFile; assumption.
  - apply kl_addLog; assumption.
  - apply kl_updateProcess; assumption.
  - apply kl_updateFile; assumption.
  - apply kl_getHealth; assumption.
  - apply kl_initializeSystem; assumption.
Qed.



Lemma injectRound_selection_witness :
  process_fault env_tenth crash [] (new_MemStorage env_tenth)
    (injectRound env_tenth [] (new_MemStorage env_tenth)).
Proof.
  refine (proj1 (proj1 (injectRound_selection env_tenth []
                          (new_MemStorage env_tenth) _) _) _).
  - intros n. split; vm_compute; [discriminate | reflexivity].
  - vm_compute. discriminate.
  - reflexivity.
Defined.

Lemma metrics_bounded_witness :
  Forall proc_ok
    (procs (run env_tenth [OpInject; OpDrift; OpHeal; OpInject]
                (new_MemStorage env_tenth))).
Proof.
  apply (metrics_bounded env_tenth [OpInject; OpDrift; OpHeal; OpInject]).
  intros n. split; vm_compute; [discriminate | reflexivity].
Defined.

(** * Further properties of the store *)

(** ** Initialisation *)

Lemma new_MemStorage_initialized E :
  initialized (mem (new_MemStorage E)) = true.
Proof. rewrite new_MemStorage_eq. reflexivity. Qed.


Lemma init_file_keeps_processes E t w :
  processes (mem (snd (init_file E t w))) = processes (mem w) /\
  nextPid (mem (snd (init_file E t w))) = nextPid (mem w).
Proof. destruct t as [[a b] c]. split; reflexivity. Qed.

Lemma addLog_keeps_processes E log w :
  processes (mem (snd (addLog E log w))) = processes (mem w) /\
  nextPid (mem (snd (addLog E log w))) = nextPid (mem w).
Proof. rewrite addLog_eq. split; reflexivity. Qed.

Lemma set_initialized_keeps_processes b w :
  processes (mem (snd (modify (set_initialized b) w))) = processes (mem w) /\
  nextPid (mem (snd (modify (set_initialized b) w))) = nextPid (mem w).
Proof. split; reflexivity. Qed.

Lemma init_files_keep_processes E w :
  processes (mem (snd (for_of FILE_TEMPLATES (init_file E) w)))
    = processes (mem w) /\
  nextPid (mem (snd (for_of FILE_TEMPLATES (init_file E) w)))
    = nextPid (mem w).
Proof.
  apply (for_of_inv (fun w' => processes (mem w') = processes (mem w) /\
                               nextPid (mem w') = nextPid (mem w)));
    [| split; reflexivity].
  intros t w' [H1 H2]. destruct (init_file_keeps_processes E t w') as [H3 H4].
  split; congruence.
Qed.

Lemma new_MemStorage_processes E :
  processes (mem (new_MemStorage E))
    = processes (mem (snd (for_range 0 6 (init_process E) empty_world))) /\
  nextPid (mem (new_MemStorage E))
    = nextPid (mem (snd (for_range 0 6 (init_process E) empty_world))).
Proof.
  rewrite new_MemStorage_eq.
  destruct (set_initialized_keeps_processes true
    (snd (addLog E (mkInsertLog info "System Initialized"
      "Self-Healing OS Simulator started successfully. All systems operational.")
       (snd (for_of FILE_TEMPLATES (init_file E)
          (snd (for_range 0 6 (init_process E) empty_world)))))))
    as [H1 H2].
  rewrite H1, H2. clear H1 H2.
  destruct (addLog_keeps_processes E (mkInsertLog info "System Initialized"
      "Self-Healing OS Simulator started successfully. All systems operational.")
       (snd (for_of FILE_TEMPLATES (init_file E)
          (snd (for_range 0 6 (init_process E) empty_world)))))
    as [H1 H2].
  rewrite H1, H2. clear H1 H2.
  apply init_files_keep_processes.
Qed.
Lemma init_process_nominal E i w :
  random_unit E -> Forall nominal (procs w) ->
  Forall nominal (procs (snd (init_process E i w))).
Proof.
  intros Hr Hw. unfold init_process. rewrite !bind_eq.
  unfold gets, modify, ret, procs, map_values.
  cbn [fst snd mem processes set_processes set_nextPid].
  apply map_set_values; [| exact Hw].
  unfold nominal. cbn [status cpu memory].
  match goal with
  | |- _ /\ (_ <= fst (randomBetween E ?c ?d ?w2) /\ _) /\
       (_ <= fst (randomBetween E ?a ?b ?w1) /\ _) =>
      pose proof (randomBetween_range E a b w1 Hr) as H1;
      pose proof (randomBetween_range E c d w2 Hr) as H2
  end.
  split; [reflexivity |]. split; [apply H2 | apply H1]; lra.
Qed.

Lemma initial_processes_list E :
  map (fun kp => (fst kp, pid (snd kp), pname (snd kp), status (snd kp)))
      (processes (mem (snd (for_range 0 6 (init_process E) empty_world))))
  = [ (1001, 1001, "kernel_scheduler", running);
      (1002, 1002, "memory_manager", running);
      (1003, 1003, "file_system_watcher", running);
      (1004, 1004, "network_handler", running);
      (1005, 1005, "user_session_manager", running);
      (1006, 1006, "security_monitor", running) ]%Z /\
  nextPid (mem (snd (for_range 0 6 (init_process E) empty_world))) = 1007%Z.
Proof.
  split; vm_compute; reflexivity.
Qed.
Lemma initial_nominal E :
  random_unit E ->
  Forall nominal
    (map snd (processes (mem (snd (for_range 0 6 (init_process E) empty_world))))).
Proof.
  intros Hr.
  apply (for_range_inv (fun w => Forall nominal (map snd (processes (mem w)))));
    [| constructor].
  intros i w. apply (init_process_nominal E i w Hr).
Qed.

(** X2. The constructor creates six processes filed under the pids 1001
    to 1006, each carrying its own pid and the first six pool names, all
    running; the next pid is 1007; and every process has cpu in [1, 30]
    and memory in [50, 500]. *)
Theorem initial_processes (E : Env) :
  map (fun kp => (fst kp, pid (snd kp), pname (snd kp), status (snd kp)))
      (processes (mem (new_MemStorage E)))
  = [ (1001, 1001, "kernel_scheduler", running);
      (1002, 1002, "memory_manager", running);
      (1003, 1003, "file_system_watcher", running);
      (1004, 1004, "network_handler", running);
      (1005, 1005, "user_session_manager", running);
      (1006, 1006, "security_monitor", running) ]%Z /\
  nextPid (mem (new_MemStorage E)) = 1007%Z /\
  (random_unit E -> Forall nominal (procs (new_MemStorage E))).
Proof.
  destruct (new_MemStorage_processes E) as [Hp Hn].
  destruct (initial_processes_list E) as [Hl Hx].
  unfold procs, map_values.
  rewrite Hp, Hn. split; [exact Hl | split; [exact Hx |]].
  intros Hr. exact (initial_nominal E Hr).
Qed.

Lemma initial_processes_witness :
  Forall nominal (procs (new_MemStorage env_tenth)).
Proof.
  apply (proj2 (proj2 (initial_processes env_tenth))).
  intros n. split; vm_compute; [discriminate | reflexivity].
Defined.
Lemma map_set_fresh {K V} (keq : K -> K -> bool) k (v : V) (m : list (K * V)) :
  (forall a b, keq a b = true <-> a = b) ->
  ~ In k (map fst m) -> map_set keq k v m = m ++ [(k, v)].
Proof.
  intros Heq. induction m as [| [k1 v1] m IH]; cbn; intros Hn; [reflexivity |].
  rewrite (keq_neq keq Heq).
  - rewrite IH; [reflexivity |]. intros Hin. apply Hn. now right.
  - intros ->. apply Hn. now left.
Qed.

Lemma init_file_step E t w :
  files (mem (snd (init_file E t w)))
    = map_set String.eqb (randomUUID E (uuid_calls w))
        (mkFile (randomUUID E (uuid_calls w)) (fst (fst t)) (snd (fst t)) (snd t)
           (str_take 32 (remove_dashes (randomUUID E (S (uuid_calls w)))))
           false
           (Date_now E (now_calls w)
            - Qfloor (Math_random E (rnd_calls w) * 86400000))%Z)
        (files (mem w)) /\
  uuid_calls (snd (init_file E t w)) = S (S (uuid_calls w)).
Proof. destruct t as [[a b] c]. split; reflexivity. Qed.

Lemma file_ids_S E c n :
  file_ids E c (S n) = randomUUID E c :: file_ids E (S (S c)) n.
Proof.
  unfold file_ids. rewrite <- cons_seq. cbn [map].
  rewrite Nat.mul_0_r, Nat.add_0_r. f_equal.
  rewrite <- seq_shift, map_map. apply map_ext. intros i. f_equal. lia.
Qed.

Lemma init_files_rows E (ts : list (string * string * Z)) : forall w,
  NoDup (map fst (files (mem w)) ++ file_ids E (uuid_calls w) (List.length ts)) ->
  map file_row (files (mem (snd (for_of ts (init_file E) w))))
  = map file_row (files (mem w))
    ++ map (fun it => template_row (fst it) (snd it))
           (combine (file_ids E (uuid_calls w) (List.length ts)) ts).
Proof.
  induction ts as [| t ts IH]; intros w Hnd.
  - cbn. now rewrite app_nil_r.
  - rewrite for_of_cons. cbn [List.length] in *.
    rewrite file_ids_S in *.
    destruct (init_file_step E t w) as [Hf Hu].
    assert (Hfresh : ~ In (randomUUID E (uuid_calls w)) (map fst (files (mem w)))).
    { intros Hin. apply NoDup_remove_2 in Hnd. apply Hnd.
      apply in_or_app. now left. }
    rewrite (map_set_fresh String.eqb _ _ _ String.eqb_eq Hfresh) in Hf.
    rewrite IH.
    + rewrite Hf, Hu, map_app. cbn [combine map]. rewrite <- app_assoc.
      cbn [app]. do 2 f_equal. destruct t as [[a b] c]. reflexivity.
    + rewrite Hf, Hu, map_app. cbn [map fst]. rewrite <- app_assoc. exact Hnd.
Qed.
Lemma init_process_keeps_files E i w :
  files (mem (snd (init_process E i w))) = files (mem w) /\
  uuid_calls (snd (init_process E i w)) = uuid_calls w /\
  logs (mem (snd (init_process E i w))) = logs (mem w).
Proof. repeat split. Qed.

Lemma init_processes_keep_files E :
  files (mem (snd (for_range 0 6 (init_process E) empty_world))) = [] /\
  uuid_calls (snd (for_range 0 6 (init_process E) empty_world)) = 0%nat /\
  logs (mem (snd (for_range 0 6 (init_process E) empty_world))) = [].
Proof.
  apply (for_range_inv (fun w => files (mem w) = [] /\ uuid_calls w = 0%nat /\
                                 logs (mem w) = []));
    [| repeat split].
  intros i w (H1 & H2 & H3).
  destruct (init_process_keeps_files E i w) as (H4 & H5 & H6).
  repeat split; congruence.
Qed.

Lemma new_MemStorage_files E :
  files (mem (new_MemStorage E))
  = files (mem (snd (for_of FILE_TEMPLATES (init_file E)
                       (snd (for_range 0 6 (init_process E) empty_world))))).
Proof.
  rewrite new_MemStorage_eq.
  destruct (frame_set_initialized E true
    (snd (addLog E (mkInsertLog info "System Initialized"
      "Self-Healing OS Simulator started successfully. All systems operational.")
       (snd (for_of FILE_TEMPLATES (init_file E)
          (snd (for_range 0 6 (init_process E) empty_world)))))))
    as (_ & H & _).
  rewrite H. clear H.
  destruct (frame_addLog E (mkInsertLog info "System Initialized"
      "Self-Healing OS Simulator started successfully. All systems operational.")
       (snd (for_of FILE_TEMPLATES (init_file E)
          (snd (for_range 0 6 (init_process E) empty_world)))))
    as (_ & H & _).
  exact H.
Qed.

(** X3. When the eight ids drawn for the files are pairwise distinct, the
    constructor creates eight files in template order, each filed under
    the id it carries, with the template's name, path and size, and not
    corrupted. *)
Theorem initial_files (E : Env) :
  NoDup (file_ids E 0 8) ->
  map file_row (files (mem (new_MemStorage E)))
  = map (fun it => template_row (fst it) (snd it))
        (combine (file_ids E 0 8) FILE_TEMPLATES).
Proof.
  intros Hnd. rewrite new_MemStorage_files.
  destruct (init_processes_keep_files E) as (Hf & Hu & _).
  rewrite init_files_rows; rewrite Hf, Hu; [reflexivity | exact Hnd].
Qed.

Lemma initial_files_witness :
  map file_row (files (mem (new_MemStorage env_tenth)))
  = map (fun it => template_row (fst it) (snd it))
        (combine (file_ids env_tenth 0 8) FILE_TEMPLATES).
Proof.
  apply (initial_files env_tenth).
  vm_compute. repeat constructor; cbn; intuition discriminate.
Defined.
Lemma initial_log_empty E :
  logs (mem (snd (for_of FILE_TEMPLATES (init_file E)
                    (snd (for_range 0 6 (init_process E) empty_world))))) = [].
Proof.
  apply (for_of_inv (fun w => logs (mem w) = [])).
  - intros t w H. destruct t as [[a b] c]. exact H.
  - apply init_processes_keep_files.
Qed.

Lemma first_log E log w :
  logs (mem w) = [] ->
  logs (mem (snd (modify (set_initialized true) (snd (addLog E log w)))))
  = [new_entry E log w].
Proof.
  intros H. rewrite addLog_eq. unfold modify.
  cbn [snd mem logs set_initialized set_logs]. rewrite H. reflexivity.
Qed.


(** ** Background drift *)

Lemma clamp_within (lo hi x d : Q) :
  lo <= hi ->
  lo <= Qmax lo (Qmin hi (x + d)) /\ Qmax lo (Qmin hi (x + d)) <= hi.
Proof.
  intros H. split; [apply Q.le_max_l |].
  apply Q.max_lub; [exact H | apply Q.le_min_l].
Qed.

Lemma clamp_step (lo hi x d b : Q) :
  lo <= x -> x <= hi -> - b <= d -> d <= b ->
  x - b <= Qmax lo (Qmin hi (x + d)) /\ Qmax lo (Qmin hi (x + d)) <= x + b.
Proof.
  intros H1 H2 H3 H4.
  destruct (Q.min_spec hi (x + d)) as [[Ha Hb] | [Ha Hb]];
    destruct (Q.max_spec lo (Qmin hi (x + d))) as [[Hc Hd] | [Hc Hd]];
    rewrite Hb in *; rewrite Hd; split; lra.
Qed.

Lemma drift_process_spec E p a w :
  drifted E p (fst (fst (drift_process E p a w))).
Proof.
  unfold drift_process, drifted.
  destruct (status_eqb (status p) running) eqn:Hs.
  - rewrite !bind_eq. unfold ret. cbn [fst snd pid pname status cpu memory
      set_heartbeat set_memory set_cpu].
    apply status_eqb_eq in Hs.
    split; [reflexivity | split; [reflexivity | split; [reflexivity |]]].
    split; [intros Hn; contradiction |].
    split.
    + intros _. split; apply clamp_within; lra.
    + intros Hr _. split; intros [Hlo Hhi]; apply clamp_step; try assumption.
      * destruct (randomBetween_range E (-5) 5 w Hr); lra.
      * destruct (randomBetween_range E (-5) 5 w Hr); lra.
      * match goal with |- - _ <= fst (randomBetween E _ _ ?w1) =>
          destruct (randomBetween_range E (-20) 20 w1 Hr) end; lra.
      * match goal with |- fst (randomBetween E _ _ ?w1) <= _ =>
          destruct (randomBetween_range E (-20) 20 w1 Hr) end; lra.
  - unfold ret. cbn [fst].
    assert (Hn : status p <> running).
    { intros H. apply status_eqb_eq in H. congruence. }
    split; [reflexivity | split; [reflexivity | split; [reflexivity |]]].
    split; [intros _; reflexivity |].
    split; [intros H; contradiction | intros _ H; contradiction].
Qed.
Lemma for_processes_mem {S} (body : Process -> S -> M (Process * S))
    (acc : S) (w : World) :
  mem (snd (for_processes body acc w))
  = set_processes (fst (fst (for_each_value body (processes (mem w)) acc w)))
                  (mem (snd (for_each_value body (processes (mem w)) acc w))).
Proof.
  unfold for_processes. rewrite !bind_eq. unfold gets, modify, ret.
  reflexivity.
Qed.

Lemma drift_process_mem E p a w : mem (snd (drift_process E p a w)) = mem w.
Proof.
  unfold drift_process. destruct (status_eqb (status p) running);
    [| reflexivity].
  rewrite !bind_eq. reflexivity.
Qed.

(** X5. A drift tick keeps every entry's key, pid, name and status, leaves
    every process that is not running exactly as it was, puts every
    running process inside the clamp (cpu in [0.5, 99], memory in
    [10, 900]) whatever its metrics were, moves a running process that
    was inside the clamp by at most 5 in cpu and 20 in memory, and does
    not touch files or logs. *)
Theorem driftTick_effect (E : Env) (w : World) :
  Forall2 (fun kp kp' => fst kp' = fst kp /\ drifted E (snd kp) (snd kp'))
          (processes (mem w)) (processes (mem (snd (driftTick E w)))) /\
  files (mem (snd (driftTick E w))) = files (mem w) /\
  logs (mem (snd (driftTick E w))) = logs (mem w).
Proof.
  unfold driftTick. rewrite for_processes_mem.
  assert (Hb : forall v acc w0,
             drifted E v (fst (fst (drift_process E v acc w0))) /\
             snd (fst (drift_process E v acc w0)) = acc /\
             mem (snd (drift_process E v acc w0)) = mem w0).
  { intros v [] w0. split; [apply drift_process_spec |].
    split; [destruct (snd (fst (drift_process E v tt w0))); reflexivity
           | apply drift_process_mem]. }
  destruct (for_each_value_spec (K := Z) (drift_process E) (drifted E)
              (fun _ a => a) (fun a b => mem b = mem a)
              (fun _ => eq_refl)
              (fun a b c H1 H2 => eq_trans H2 H1) Hb
              (processes (mem w)) tt w) as (H1 & _ & H3).
  rewrite H3. cbn [processes files logs set_processes]. auto.
Qed.

(** ** Partial updates *)

Section MapMutate.
Context {K V : Type} (keq : K -> K -> bool).
Hypothesis keq_eq : forall a b, keq a b = true <-> a = b.

Lemma map_mutate_keys k (f : V -> V) (m : list (K * V)) :
  map fst (map_mutate keq k f m) = map fst m.
Proof.
  induction m as [| [k1 v1] m IH]; cbn; [reflexivity |].
  destruct (keq k k1); cbn; [reflexivity | now rewrite IH].
Qed.

Lemma map_get_mutate k (f : V -> V) (m : list (K * V)) q :
  map_get keq q (map_mutate keq k f m)
  = if keq q k then option_map f (map_get keq k m) else map_get keq q m.
Proof.
  induction m as [| [k1 v1] m IH]; cbn.
  - now destruct (keq q k).
  - destruct (keq k k1) eqn:Hk; cbn.
    + apply keq_eq in Hk. subst k1.
      destruct (keq q k); reflexivity.
    + rewrite IH. destruct (keq q k) eqn:Hq; [| reflexivity].
      apply keq_eq in Hq. subst q. now rewrite Hk.
Qed.
End MapMutate.

(** X6. [updateProcess] answers with the overlaid object when the pid is a
    key and with nothing otherwise; afterwards a lookup of that pid finds
    the overlaid object and every other lookup is as before; the keys,
    the files and the logs are untouched. *)
Theorem updateProcess_lookup (p : Z) (u : PartialProcess) (w : World) (q : Z) :
  fst (updateProcess p u w)
    = option_map (assign_process u) (map_get Z.eqb p (processes (mem w))) /\
  map_get Z.eqb q (processes (mem (snd (updateProcess p u w))))
    = (if (q =? p)%Z
       then option_map (assign_process u) (map_get Z.eqb p (processes (mem w)))
       else map_get Z.eqb q (processes (mem w))) /\
  map fst (processes (mem (snd (updateProcess p u w))))
    = map fst (processes (mem w)) /\
  files (mem (snd (updateProcess p u w))) = files (mem w) /\
  logs (mem (snd (updateProcess p u w))) = logs (mem w).
Proof.
  unfold updateProcess. rewrite bind_eq. unfold gets. cbn [fst snd].
  destruct (map_get Z.eqb p (processes (mem w))) as [pr |] eqn:Hget.
  - rewrite bind_eq. unfold modify, ret.
    cbn [fst snd mem processes files logs set_processes option_map].
    rewrite (map_get_mutate Z.eqb Z.eqb_eq), Hget, map_mutate_keys.
    repeat split.
  - unfold ret. cbn [fst snd option_map].
    destruct (Z.eqb_spec q p) as [-> | _]; [rewrite Hget |]; repeat split.
Qed.

(** X7. [updateFile] behaves in the same way on the file map. *)
Theorem updateFile_lookup (i : string) (u : PartialFile) (w : World)
    (q : string) :
  fst (updateFile i u w)
    = option_map (assign_file u) (map_get String.eqb i (files (mem w))) /\
  map_get String.eqb q (files (mem (snd (updateFile i u w))))
    = (if String.eqb q i
       then option_map (assign_file u) (map_get String.eqb i (files (mem w)))
       else map_get String.eqb q (files (mem w))) /\
  map fst (files (mem (snd (updateFile i u w)))) = map fst (files (mem w)) /\
  processes (mem (snd (updateFile i u w))) = processes (mem w) /\
  logs (mem (snd (updateFile i u w))) = logs (mem w).
Proof.
  unfold updateFile. rewrite bind_eq. unfold gets. cbn [fst snd].
  destruct (map_get String.eqb i (files (mem w))) as [fl |] eqn:Hget.
  - rewrite bind_eq. unfold modify, ret.
    cbn [fst snd mem processes files logs set_files option_map].
    rewrite (map_get_mutate String.eqb String.eqb_eq), Hget, map_mutate_keys.
    repeat split.
  - unfold ret. cbn [fst snd option_map].
    destruct (String.eqb_spec q i) as [-> | _]; [rewrite Hget |]; repeat split.
Qed.

(** ** Targeted repair, the successful path *)

(** X8. Repairing a corrupted file succeeds: the stored file is the old
    one with the flag cleared, a freshly generated checksum and the
    current time as last-modified; every other file and every process is
    as before; and repairing the same id again is refused as not
    corrupted. *)
Theorem repairFile_repairs (E : Env) (w : World) (k : string) (f : SystemFile)
    (q : string) :
  map_get String.eqb k (files (mem w)) = Some f -> corrupted f = true ->
  h_success (fst (repairFile E k w)) = true /\
  map_get String.eqb q (files (mem (snd (repairFile E k w))))
    = (if String.eqb q k
       then Some (set_lastModified (Date_now E (now_calls w))
                    (set_checksum
                       (str_take 32 (remove_dashes (randomUUID E (uuid_calls w))))
                       (set_corrupted false f)))
       else map_get String.eqb q (files (mem w))) /\
  processes (mem (snd (repairFile E k w))) = processes (mem w) /\
  h_success (fst (repairFile E k (snd (repairFile E k w)))) = false /\
  message (fst (repairFile E k (snd (repairFile E k w))))
    = "File is not corrupted.".
Proof.
  intros Hget Hc.
  assert (Hw : exists w',
    repairFile E k w
    = (mkHeal true "repair" (FileId k) (fname f)
         ("File " ++ fname f ++ " has been successfully repaired.")%string, w') /\
    files (mem w')
    = map_mutate String.eqb k
        (fun f0 => set_lastModified (Date_now E (now_calls w))
           (set_checksum
              (str_take 32 (remove_dashes (randomUUID E (uuid_calls w))))
              (set_corrupted false f0)))
        (files (mem w)) /\
    processes (mem w') = processes (mem w)).
  { unfold repairFile. rewrite bind_eq. unfold gets. cbn [fst snd].
    rewrite Hget, Hc. cbn [negb].
    unfold generateChecksum. rewrite !bind_eq, addLog_eq.
    unfold uuid, now, modify, ret. cbn [fst snd].
    eexists. split; [reflexivity |]. split; reflexivity. }
  destruct Hw as (w' & Hr & Hf & Hp). rewrite Hr. cbn [fst snd].
  assert (Hq : forall q0, map_get String.eqb q0 (files (mem w'))
     = if String.eqb q0 k
       then Some (set_lastModified (Date_now E (now_calls w))
                    (set_checksum
                       (str_take 32 (remove_dashes (randomUUID E (uuid_calls w))))
                       (set_corrupted false f)))
       else map_get String.eqb q0 (files (mem w))).
  { intros q0. rewrite Hf, (map_get_mutate String.eqb String.eqb_eq), Hget.
    reflexivity. }
  split; [reflexivity | split; [apply Hq | split; [exact Hp |]]].
  unfold repairFile. rewrite bind_eq. unfold gets. cbn [fst snd].
  rewrite Hq, String.eqb_refl. cbn. auto.
Qed.

Lemma repairFile_repairs_witness :
  h_success
    (fst (repairFile env_tenth "u-0"
            (snd (updateFile "u-0"
                    (mkPartialFile None None None None None (Some true) None)
                    (new_MemStorage env_tenth))))) = true.
Proof.
  refine (proj1 (repairFile_repairs env_tenth _ "u-0" _ "u-0" _ _)).
  - vm_compute. reflexivity.
  - reflexivity.
Defined.

(** ** Fault injection: how many entities, which ones, which log entries *)

Lemma count_mid {A} (f : A -> bool) (l1 : list A) (x y : A) (l2 : list A) :
  f x = false -> f y = true ->
  List.length (filter f (l1 ++ y :: l2))
  = S (List.length (filter f (l1 ++ x :: l2))).
Proof.
  intros Hx Hy. rewrite !filter_app, !length_app. cbn [filter].
  rewrite Hx, Hy. cbn. lia.
Qed.

Lemma process_fault_count E ft faults w out :
  process_fault E ft faults w out ->
  faulted_count (snd out) = S (faulted_count w).
Proof.
  intros (m1 & k & t & m2 & f & p' & Hm & Hrun & _ & _ & _ & Hhit & Hm' & Hf & _).
  destruct (hit_process_facts _ _ _ Hhit) as (_ & _ & Hnr).
  unfold faulted_count, faulty_count, corrupted_count, procs, sysfiles,
    map_values.
  rewrite Hf, Hm', Hm, !map_app. cbn [map snd].
  rewrite (count_mid is_faulty _ t p').
  - lia.
  - unfold is_faulty. now rewrite Hrun.
  - unfold is_faulty, is_running.
    destruct (status_eqb (status p') running) eqn:Hs; [| reflexivity].
    apply status_eqb_eq in Hs. contradiction.
Qed.

Lemma file_fault_count E faults w out :
  file_fault E faults w out -> faulted_count (snd out) = S (faulted_count w).
Proof.
  intros (m1 & k & t & m2 & f & cs & Hm & Hc & _ & _ & _ & Hm' & Hp & _).
  unfold faulted_count, faulty_count, corrupted_count, procs, sysfiles,
    map_values.
  rewrite Hp, Hm', Hm, !map_app. cbn [map snd].
  rewrite (count_mid corrupted _ t (set_checksum cs (set_corrupted true t)));
    [lia | exact Hc | reflexivity].
Qed.

Lemma no_fault_count E faults w out :
  no_fault E faults w out -> faulted_count (snd out) = faulted_count w.
Proof.
  intros (_ & Hm & _).
  unfold faulted_count, faulty_count, corrupted_count, procs, sysfiles.
  now rewrite Hm.
Qed.

(** Invariants of the selection loop that speak of the faults so far. *)
Lemma injectLoop_inv2 (E : Env) (P : list Fault -> World -> Prop) :
  (forall faults w, P faults w ->
     exists faults', fst (injectRound E faults w) = Some faults' /\
                     P faults' (snd (injectRound E faults w))) ->
  forall n faults w, P faults w ->
    exists faults', fst (injectLoop E n faults w) = Some faults' /\
                    P faults' (snd (injectLoop E n faults w)).
Proof.
  intros Hstep. induction n as [| n IH]; intros faults w Hw.
  - exists faults. split; [reflexivity | exact Hw].
  - rewrite injectLoop_S. destruct (Hstep faults w Hw) as (f1 & Ho & Hw').
    rewrite Ho. apply IH. exact Hw'.
Qed.

Lemma round_count E base faults w :
  random_unit E ->
  faulted_count w = (base + List.length faults)%nat ->
  exists faults', fst (injectRound E faults w) = Some faults' /\
    faulted_count (snd (injectRound E faults w))
    = (base + List.length faults')%nat.
Proof.
  intros Hr Hc.
  destruct (injectRound_outcome E faults w Hr) as [[_ Hn] | [[ft Hp] | Hf]].
  - exists faults. split; [apply Hn |].
    rewrite (no_fault_count E _ _ _ Hn). exact Hc.
  - pose proof (process_fault_count E _ _ _ _ Hp) as Hcount.
    destruct Hp as (m1 & k & t & m2 & f & p' & _ & _ & Ho & _).
    exists (faults ++ [f]). split; [exact Ho |].
    rewrite Hcount, length_app. cbn. lia.
  - pose proof (file_fault_count E _ _ _ Hf) as Hcount.
    destruct Hf as (m1 & k & t & m2 & f & cs & _ & _ & Ho & _).
    exists (faults ++ [f]). split; [exact Ho |].
    rewrite Hcount, length_app. cbn. lia.
Qed.

Lemma addLog_count E log w :
  faulted_count (snd (addLog E log w)) = faulted_count w.
Proof.
  destruct (frame_addLog E log w) as (Hp & Hf & _).
  unfold faulted_count, faulty_count, corrupted_count, procs, sysfiles.
  now rewrite Hp, Hf.
Qed.

Lemma injectFaults_grows (E : Env) (w : World) :
  random_unit E ->
  exists faults,
    fst (injectFaults E w) = Some faults /\
    faulted_count (snd (injectFaults E w))
    = (faulted_count w + List.length faults)%nat.
Proof.
  intros Hr. rewrite injectFaults_eq. cbv zeta.
  set (n := Z.to_nat _).
  destruct (injectLoop_inv2 E
              (fun faults w' =>
                 faulted_count w'
                 = (faulted_count w + List.length faults)%nat)
              (fun faults w' H => round_count E _ faults w' Hr H)
              n [] (snd (random E w)))
    as (faults & Ho & Hc).
  { cbn [List.length]. rewrite Nat.add_0_r. reflexivity. }
  rewrite Ho. exists faults. split; [reflexivity |]. cbn [snd].
  destruct (List.length faults =? 0)%nat; [rewrite addLog_count |]; exact Hc.
Qed.

(** X9. Every fault [injectFaults] returns stands for one entity that was
    nominal before the call and is faulted after it: the number of
    faulted entities grows by exactly the number of returned faults, and
    the call never raises. *)
Theorem injectFaults_count (E : Env) (w : World) :
  random_unit E ->
  exists faults,
    fst (injectFaults E w) = Some faults /\
    faulted_count (snd (injectFaults E w))
    = (faulted_count w + List.length faults)%nat.
Proof. intros Hr. exact (injectFaults_grows E w Hr). Qed.

Lemma injectFaults_count_witness :
  exists faults,
    fst (injectFaults env_tenth (new_MemStorage env_tenth)) = Some faults /\
    faulted_count (snd (injectFaults env_tenth (new_MemStorage env_tenth)))
    = (faulted_count (new_MemStorage env_tenth) + List.length faults)%nat.
Proof.
  apply (injectFaults_count env_tenth (new_MemStorage env_tenth)).
  intros n. split; vm_compute; [discriminate | reflexivity].
Defined.

Lemma healFaults_length E w :
  List.length (fst (healFaults E w)) = faulted_count w.
Proof.
  rewrite healFaults_eq. cbv zeta.
  destruct (for_processes_spec E _ _ _ _ [] w (heal_crashed_spec E))
    as (Pa & Ra & Fa & _).
  set (a := for_processes (heal_crashed E) [] w) in *.
  destruct (for_processes_spec E _ _ _ _ (fst a) (snd a) (heal_frozen_spec E))
    as (Pb & Rb & Fb & _).
  set (b := for_processes (heal_frozen E) (fst a) (snd a)) in *.
  destruct (for_processes_spec E _ _ _ _ (fst b) (snd b)
              (heal_high_load_spec E)) as (Pc & Rc & Fc & _).
  set (c := for_processes (heal_high_load E) (fst b) (snd b)) in *.
  destruct (for_files_spec E _ _ _ _ (fst c) (snd c) (heal_corrupted_spec E))
    as (Pd & Rd & Fd & _).
  set (d := for_files (heal_corrupted E) (fst c) (snd c)) in *.
  destruct (three_passes E _ _ _ _ Pa Pb Pc) as (_ & Hfz & Hhl).
  apply (f_equal (@List.length Z)) in Hfz, Hhl. rewrite !length_map in Hfz, Hhl.
  cbn [fst]. rewrite Rd, Rc, Rb, Ra. cbn [app].
  rewrite !length_app, !length_map.
  unfold procs, map_values, sysfiles in *. rewrite Hfz, Hhl, Fc, Fb, Fa.
  unfold faulted_count, faulty_count, corrupted_count, procs, sysfiles,
    map_values.
  rewrite faulty_by_status. lia.
Qed.

Lemma nominal_faulted_count w :
  Forall (fun p => status p = running) (procs w) ->
  Forall (fun f => corrupted f = false) (sysfiles w) ->
  faulted_count w = 0%nat.
Proof.
  intros Hp Hf. unfold faulted_count, faulty_count, corrupted_count.
  assert (H1 : filter is_faulty (procs w) = []).
  { induction Hp as [| p l Hs _ IH]; [reflexivity |]. cbn.
    unfold is_faulty, is_running at 1. rewrite Hs. cbn. exact IH. }
  assert (H2 : filter corrupted (sysfiles w) = []).
  { induction Hf as [| f l Hc _ IH]; [reflexivity |]. cbn.
    rewrite Hc. exact IH. }
  now rewrite H1, H2.
Qed.

(** X10. End to end: in the store the constructor built, one
    [injectFaults] followed by one [healFaults] gives exactly as many heal
    results as faults were injected, and leaves no entity faulted. *)
Theorem inject_then_heal (E : Env) :
  random_unit E ->
  exists faults,
    fst (injectFaults E (new_MemStorage E)) = Some faults /\
    List.length (fst (healFaults E (snd (injectFaults E (new_MemStorage E)))))
    = List.length faults /\
    faulted_count
      (snd (healFaults E (snd (injectFaults E (new_MemStorage E))))) = 0%nat.
Proof.
  intros Hr.
  destruct (injectFaults_grows E (new_MemStorage E) Hr) as (faults & Ho & Hc).
  exists faults. split; [exact Ho |].
  destruct (new_MemStorage_ok E) as ((_ & Hrun & Hcor & _) & _).
  rewrite (nominal_faulted_count _ Hrun Hcor) in Hc.
  split; [rewrite healFaults_length; exact Hc |].
  destruct (healFaults_nominal E (snd (injectFaults E (new_MemStorage E))))
    as [H1 H2].
  apply nominal_faulted_count; assumption.
Qed.

Lemma inject_then_heal_witness :
  exists faults,
    fst (injectFaults env_tenth (new_MemStorage env_tenth)) = Some faults /\
    List.length (fst (healFaults env_tenth
                        (snd (injectFaults env_tenth
                                (new_MemStorage env_tenth)))))
    = List.length faults /\
    faulted_count
      (snd (healFaults env_tenth
              (snd (injectFaults env_tenth (new_MemStorage env_tenth)))))
    = 0%nat.
Proof.
  apply (inject_then_heal env_tenth).
  intros n. split; vm_compute; [discriminate | reflexivity].
Defined.

Lemma NoDup_snoc {A} (l : list A) (x : A) :
  NoDup l -> ~ In x l -> NoDup (l ++ [x]).
Proof.
  intros Hl Hx. induction Hl as [| a l Ha Hl IH]; cbn.
  - constructor; [intros [] | constructor].
  - constructor.
    + rewrite in_app_iff. intros [H | [H | []]]; [contradiction |].
      subst. apply Hx. now left.
    + apply IH. intros H. apply Hx. now right.
Qed.

Lemma process_target_new E ft faults w out f :
  round_inv w faults -> process_fault E ft faults w out ->
  fst out = Some (faults ++ [f]) ->
  ~ In (f_targetId f) (map f_targetId faults).
Proof.
  intros [[Hkp _] Hrefl]
    (m1 & k & t & m2 & f' & p' & Hm & Hrun & Hout & _ & Hid & _) Ho Hin.
  rewrite Hout in Ho. injection Ho as Ho. apply app_inj_tail in Ho.
  destruct Ho as [_ ->].
  rewrite Hm in Hkp.
  destruct (keyed_lookup Z.eqb pid Z.eqb_eq _ _ _ _ Hkp) as [Hget Hkey].
  apply in_map_iff in Hin. destruct Hin as (f0 & Ht & Hin).
  rewrite forallb_forall in Hrefl. specialize (Hrefl f0 Hin).
  unfold fault_reflected in Hrefl. rewrite Ht, Hid, Hkey, Hm, Hget in Hrefl.
  destruct (expected_status (ftype f0)) as [s |] eqn:Hs; [| discriminate].
  unfold is_running in Hrun. apply status_eqb_eq in Hrun.
  rewrite Hrun, (expected_status_faulty _ _ Hs) in Hrefl. discriminate.
Qed.

Lemma file_target_new E faults w out f :
  round_inv w faults -> file_fault E faults w out ->
  fst out = Some (faults ++ [f]) ->
  ~ In (f_targetId f) (map f_targetId faults).
Proof.
  intros [[_ Hkf] Hrefl]
    (m1 & k & t & m2 & f' & cs & Hm & Hc & Hout & _ & Hid & _) Ho Hin.
  rewrite Hout in Ho. injection Ho as Ho. apply app_inj_tail in Ho.
  destruct Ho as [_ ->].
  rewrite Hm in Hkf.
  destruct (keyed_lookup String.eqb fid String.eqb_eq _ _ _ _ Hkf)
    as [Hget Hkey].
  apply in_map_iff in Hin. destruct Hin as (f0 & Ht & Hin).
  rewrite forallb_forall in Hrefl. specialize (Hrefl f0 Hin).
  unfold fault_reflected in Hrefl. rewrite Ht, Hid, Hkey, Hm, Hget in Hrefl.
  destruct (ftype f0); try discriminate. congruence.
Qed.

Lemma round_distinct E faults w :
  random_unit E ->
  round_inv w faults /\ NoDup (map f_targetId faults) ->
  exists faults', fst (injectRound E faults w) = Some faults' /\
    (round_inv (snd (injectRound E faults w)) faults' /\
     NoDup (map f_targetId faults')).
Proof.
  intros Hr [Hinv Hnd].
  destruct (injectRound_outcome E faults w Hr) as [[_ Hn] | [[ft Hp] | Hf]].
  - destruct (round_inv_no_fault E _ _ _ Hinv Hn) as [Ho Hi]. eauto.
  - destruct (round_inv_process_fault E _ _ _ _ Hinv Hp) as (f & Ho & Hi).
    exists (faults ++ [f]). split; [exact Ho | split; [exact Hi |]].
    rewrite map_app. apply NoDup_snoc; [exact Hnd |].
    exact (process_target_new E _ _ _ _ _ Hinv Hp Ho).
  - destruct (round_inv_file_fault E _ _ _ Hinv Hf) as (f & Ho & Hi).
    exists (faults ++ [f]). split; [exact Ho | split; [exact Hi |]].
    rewrite map_app. apply NoDup_snoc; [exact Hnd |].
    exact (file_target_new E _ _ _ _ Hinv Hf Ho).
Qed.

(** X11. In a store whose entries are filed under their own ids, the
    faults of one [injectFaults] call name pairwise distinct entities: no
    process or file is hit twice in a call. *)
Theorem injectFaults_distinct_targets (E : Env) (w : World) :
  random_unit E -> keys_ok w ->
  exists faults,
    fst (injectFaults E w) = Some faults /\
    NoDup (map f_targetId faults).
Proof.
  intros Hr Hk. rewrite injectFaults_eq. cbv zeta.
  set (n := Z.to_nat _).
  destruct (injectLoop_inv2 E
              (fun faults w' =>
                 round_inv w' faults /\ NoDup (map f_targetId faults))
              (fun faults w' H => round_distinct E faults w' Hr H)
              n [] (snd (random E w)))
    as (faults & Ho & _ & Hnd).
  { split; [split; [exact Hk | reflexivity] | constructor]. }
  rewrite Ho. exists faults. split; [reflexivity | exact Hnd].
Qed.

Lemma injectFaults_distinct_targets_witness :
  exists faults,
    fst (injectFaults env_tenth (new_MemStorage env_tenth)) = Some faults /\
    NoDup (map f_targetId faults).
Proof.
  apply (injectFaults_distinct_targets env_tenth (new_MemStorage env_tenth)).
  - intros n. split; vm_compute; [discriminate | reflexivity].
  - apply (new_MemStorage_ok env_tenth).
Defined.

(** ** The set of entities never changes *)

Lemma triple_bind {A B} P (m : M A) Q (k : A -> M B) R :
  triple P m Q -> (forall a, triple (Q a) (k a) R) -> triple P (bind m k) R.
Proof.
  intros Hm Hk w Hw. rewrite bind_eq. apply Hk. apply Hm. exact Hw.
Qed.

Lemma triple_ret {A} (a : A) (Q : A -> MemStorage -> Prop) :
  triple (Q a) (ret a) Q.
Proof. intros w Hw. exact Hw. Qed.

Lemma triple_weaken {A} (P P' : MemStorage -> Prop) (m : M A)
    (Q Q' : A -> MemStorage -> Prop) :
  (forall s, P' s -> P s) -> (forall a s, Q a s -> Q' a s) ->
  triple P m Q -> triple P' m Q'.
Proof. intros HP HQ Hm w Hw. apply HQ, Hm, HP, Hw. Qed.

Lemma triple_gets {A} (f : MemStorage -> A) P :
  triple P (gets f) (fun a s => P s /\ a = f s).
Proof. intros w Hw. split; [exact Hw | reflexivity]. Qed.

Lemma triple_modify (f : MemStorage -> MemStorage) P :
  triple (fun s => P (f s)) (modify f) (fun _ s => P s).
Proof. intros w Hw. exact Hw. Qed.

(** Computations that only read oracles leave the store as it is. *)
Lemma triple_same_mem {A} (m : M A) P :
  (forall w, mem (snd (m w)) = mem w) -> triple P m (fun _ s => P s).
Proof. intros Hm w Hw. rewrite Hm. exact Hw. Qed.

Lemma random_mem E w : mem (snd (random E w)) = mem w.
Proof. reflexivity. Qed.
Lemma now_mem E w : mem (snd (now E w)) = mem w.
Proof. reflexivity. Qed.
Lemma uuid_mem E w : mem (snd (uuid E w)) = mem w.
Proof. reflexivity. Qed.
Lemma randomBetween_mem E a b w : mem (snd (randomBetween E a b w)) = mem w.
Proof. reflexivity. Qed.
Lemma generateChecksum_mem E w : mem (snd (generateChecksum E w)) = mem w.
Proof. reflexivity. Qed.
Lemma random_index_mem E n w : mem (snd (random_index E n w)) = mem w.
Proof. reflexivity. Qed.

Lemma triple_addLog E log (P : MemStorage -> Prop) :
  (forall s ls, P s -> P (set_logs ls s)) ->
  triple P (addLog E log) (fun _ s => P s).
Proof. intros HP w Hw. rewrite addLog_eq. apply HP. exact Hw. Qed.

Lemma entities_set_logs ks fks np s ls :
  entities ks fks np s -> entities ks fks np (set_logs ls s).
Proof. intros H. exact H. Qed.

Lemma mutate_kth_keys {K V} (ok : V -> bool) (g : V -> V) (m : list (K * V)) :
  forall i, map fst (mutate_kth ok i g m) = map fst m.
Proof.
  induction m as [| [k v] m IH]; intros i; cbn; [reflexivity |].
  destruct (ok v); [destruct i |]; cbn; now rewrite ?IH.
Qed.

Lemma for_each_value_keys {K V S} (body : V -> S -> M (V * S))
    (m : list (K * V)) : forall acc w,
  map fst (fst (fst (for_each_value body m acc w))) = map fst m.
Proof.
  induction m as [| [k v] m IH]; intros acc w; cbn [for_each_value];
    [reflexivity |].
  unfold bind. destruct (body v acc w) as [[v' acc'] w1].
  specialize (IH acc' w1).
  destruct (for_each_value body m acc' w1) as [[m' acc''] w2].
  unfold ret. cbn [fst snd map] in *. now rewrite IH.
Qed.

Lemma triple_for_each_value {K V S} (body : V -> S -> M (V * S))
    (P : MemStorage -> Prop) (m : list (K * V)) :
  (forall v acc, triple P (body v acc) (fun _ s => P s)) ->
  forall acc, triple P (for_each_value body m acc) (fun _ s => P s).
Proof.
  intros Hb. induction m as [| [k v] m IH]; intros acc; cbn [for_each_value].
  - intros w Hw. exact Hw.
  - eapply triple_bind; [apply Hb | intros [v' acc']].
    eapply triple_bind; [apply IH | intros [m' acc'']].
    intros w Hw. exact Hw.
Qed.

Section Entities.
Variables (E : Env) (ks : list Z) (fks : list string) (np : Z).

Lemma ent_set_processes s ps :
  map fst ps = ks -> entities ks fks np s ->
  entities ks fks np (set_processes ps s).
Proof. intros Hk (H1 & H2 & H3 & H4). unfold entities. cbn. auto. Qed.

Lemma ent_set_files s fs :
  map fst fs = fks -> entities ks fks np s ->
  entities ks fks np (set_files fs s).
Proof. intros Hk (H1 & H2 & H3 & H4). unfold entities. cbn. auto. Qed.

Lemma ent_for_processes {S} (body : Process -> S -> M (Process * S)) acc :
  (forall v a, triple (entities ks fks np) (body v a)
                      (fun _ s => entities ks fks np s)) ->
  triple (entities ks fks np) (for_processes body acc)
         (fun _ s => entities ks fks np s).
Proof.
  intros Hb w Hw. rewrite for_processes_mem.
  apply ent_set_processes.
  - rewrite for_each_value_keys. apply Hw.
  - apply (triple_for_each_value body _ _ Hb acc w Hw).
Qed.

Lemma for_files_mem {S} (body : SystemFile -> S -> M (SystemFile * S))
    (acc : S) (w : World) :
  mem (snd (for_files body acc w))
  = set_files (fst (fst (for_each_value body (files (mem w)) acc w)))
              (mem (snd (for_each_value body (files (mem w)) acc w))).
Proof.
  unfold for_files. rewrite !bind_eq. unfold gets, modify, ret.
  reflexivity.
Qed.

Lemma ent_for_files {S} (body : SystemFile -> S -> M (SystemFile * S)) acc :
  (forall v a, triple (entities ks fks np) (body v a)
                      (fun _ s => entities ks fks np s)) ->
  triple (entities ks fks np) (for_files body acc)
         (fun _ s => entities ks fks np s).
Proof.
  intros Hb w Hw. rewrite for_files_mem.
  apply ent_set_files.
  - rewrite for_each_value_keys. apply Hw.
  - apply (triple_for_each_value body _ _ Hb acc w Hw).
Qed.

Lemma ent_addLog log :
  triple (entities ks fks np) (addLog E log) (fun _ s => entities ks fks np s).
Proof. apply triple_addLog. intros s ls H. exact H. Qed.

Lemma ent_drift_process p a :
  triple (entities ks fks np) (drift_process E p a)
         (fun _ s => entities ks fks np s).
Proof. apply triple_same_mem. intros w. apply drift_process_mem. Qed.

Lemma ent_heal_crashed p a :
  triple (entities ks fks np) (heal_crashed E p a)
         (fun _ s => entities ks fks np s).
Proof.
  intros w Hw. destruct (frame_heal_crashed E p a w) as (Hp & Hf & _).
  unfold heal_crashed in *. destruct (status_eqb (status p) crashed);
    [| exact Hw].
  revert Hp Hf. rewrite !bind_eq, addLog_eq. intros _ _. exact Hw.
Qed.

Lemma ent_heal_frozen p a :
  triple (entities ks fks np) (heal_frozen E p a)
         (fun _ s => entities ks fks np s).
Proof.
  intros w Hw. unfold heal_frozen. destruct (status_eqb (status p) frozen);
    [| exact Hw].
  rewrite !bind_eq, addLog_eq. exact Hw.
Qed.

Lemma ent_heal_high_load p a :
  triple (entities ks fks np) (heal_high_load E p a)
         (fun _ s => entities ks fks np s).
Proof.
  intros w Hw. unfold heal_high_load.
  destruct (status_eqb (status p) high_load); [| exact Hw].
  rewrite !bind_eq, addLog_eq. exact Hw.
Qed.

Lemma ent_heal_corrupted f a :
  triple (entities ks fks np) (heal_corrupted E f a)
         (fun _ s => entities ks fks np s).
Proof.
  intros w Hw. unfold heal_corrupted. destruct (corrupted f); [| exact Hw].
  rewrite !bind_eq, addLog_eq. exact Hw.
Qed.

Lemma ent_driftTick :
  triple (entities ks fks np) (driftTick E) (fun _ s => entities ks fks np s).
Proof. apply ent_for_processes. intros v a. apply ent_drift_process. Qed.

Lemma ent_healFaults :
  triple (entities ks fks np) (healFaults E) (fun _ s => entities ks fks np s).
Proof.
  unfold healFaults.
  eapply triple_bind;
    [apply ent_for_processes; intros; apply ent_heal_crashed | intros r1].
  eapply triple_bind;
    [apply ent_for_processes; intros; apply ent_heal_frozen | intros r2].
  eapply triple_bind;
    [apply ent_for_processes; intros; apply ent_heal_high_load | intros r3].
  eapply triple_bind;
    [apply ent_for_files; intros; apply ent_heal_corrupted | intros r4].
  destruct (List.length r4 =? 0)%nat.
  - eapply triple_bind; [| intros ?; apply (triple_ret r4 (fun _ s => _))].
    eapply triple_bind;
      [apply ent_addLog | intros ?; apply (triple_ret tt (fun _ s => _))].
  - eapply triple_bind;
      [apply (triple_ret tt (fun _ s => _))
      | intros ?; apply (triple_ret r4 (fun _ s => _))].
Qed.

Ltac ent_inject :=
  let w := fresh "w" in let Hw := fresh "Hw" in
  let i := fresh "i" in let target := fresh "target" in
  intros w Hw; rewrite bind_eq; unfold gets; cbn [fst snd];
  match goal with |- context [(0 <? ?n)%nat] => destruct (0 <? n)%nat end;
  cbv beta iota; [| exact Hw];
  rewrite bind_eq;
  match goal with |- context [fst (random_index ?E ?n ?w)] =>
    destruct (fst (random_index E n w)) as [i |] end;
  [| exact Hw];
  match goal with |- context [nth_error ?l i] =>
    destruct (nth_error l i) as [target |] end;
  [| exact Hw];
  rewrite ?bind_eq, addLog_eq; unfold modify, ret; cbn [fst snd mem];
  first [ apply ent_set_processes; [rewrite mutate_kth_keys; apply Hw | exact Hw]
        | apply ent_set_files; [rewrite mutate_kth_keys; apply Hw | exact Hw] ].

Lemma ent_inject_crash faults :
  triple (entities ks fks np) (inject_crash E faults)
         (fun _ s => entities ks fks np s).
Proof. unfold inject_crash. ent_inject. Qed.

Lemma ent_inject_freeze faults :
  triple (entities ks fks np) (inject_freeze E faults)
         (fun _ s => entities ks fks np s).
Proof. unfold inject_freeze. ent_inject. Qed.

Lemma ent_inject_high_load faults :
  triple (entities ks fks np) (inject_high_load E faults)
         (fun _ s => entities ks fks np s).
Proof. unfold inject_high_load. ent_inject. Qed.

Lemma ent_inject_corruption faults :
  triple (entities ks fks np) (inject_corruption E faults)
         (fun _ s => entities ks fks np s).
Proof. unfold inject_corruption. ent_inject. Qed.

(** A round is the draw followed by one of the four branches or by
    nothing. *)
Lemma injectRound_branch faults w :
  injectRound E faults w = inject_crash E faults (snd (random E w)) \/
  injectRound E faults w = inject_freeze E faults (snd (random E w)) \/
  injectRound E faults w = inject_high_load E faults (snd (random E w)) \/
  injectRound E faults w = inject_corruption E faults (snd (random E w)) \/
  injectRound E faults w = (Some faults, snd (random E w)).
Proof.
  unfold injectRound. rewrite !bind_eq. unfold gets. cbn [fst snd].
  repeat match goal with
         | |- context [if ?c then _ else _] => destruct c
         end; auto 6.
Qed.

Lemma ent_injectRound faults :
  triple (entities ks fks np) (injectRound E faults)
         (fun _ s => entities ks fks np s).
Proof.
  intros w Hw.
  destruct (injectRound_branch faults w) as [H | [H | [H | [H | H]]]];
    rewrite H;
    [apply ent_inject_crash | apply ent_inject_freeze
    | apply ent_inject_high_load | apply ent_inject_corruption | ];
    exact Hw.
Qed.

Lemma ent_injectLoop n : forall faults,
  triple (entities ks fks np) (injectLoop E n faults)
         (fun _ s => entities ks fks np s).
Proof.
  induction n as [| n IH]; intros faults w Hw; [exact Hw |].
  rewrite injectLoop_S.
  pose proof (ent_injectRound faults w Hw) as H1.
  destruct (fst (injectRound E faults w)) as [f1 |]; [| exact H1].
  apply IH. exact H1.
Qed.

Lemma ent_injectFaults :
  triple (entities ks fks np) (injectFaults E)
         (fun _ s => entities ks fks np s).
Proof.
  intros w Hw. rewrite injectFaults_eq. cbv zeta.
  set (n := Z.to_nat _).
  pose proof (ent_injectLoop n [] (snd (random E w)) Hw) as H1.
  destruct (fst (injectLoop E n [] (snd (random E w)))) as [faults |];
    [| exact H1].
  cbn [snd]. destruct (List.length faults =? 0)%nat; [| exact H1].
  apply ent_addLog. exact H1.
Qed.

Lemma ent_repairFile i :
  triple (entities ks fks np) (repairFile E i)
         (fun _ s => entities ks fks np s).
Proof.
  intros w Hw. unfold repairFile. rewrite bind_eq. unfold gets.
  cbn [fst snd].
  destruct (map_get String.eqb i (files (mem w))) as [f |]; [| exact Hw].
  destruct (negb (corrupted f)); [exact Hw |].
  rewrite !bind_eq, addLog_eq. unfold modify, ret. cbn [fst snd mem].
  apply ent_set_files; [| exact Hw].
  cbn [files]. rewrite map_mutate_keys. apply Hw.
Qed.

Lemma ent_updateProcess p u :
  triple (entities ks fks np) (updateProcess p u)
         (fun _ s => entities ks fks np s).
Proof.
  intros w Hw. unfold updateProcess. rewrite bind_eq. unfold gets.
  cbn [fst snd].
  destruct (map_get Z.eqb p (processes (mem w))) as [pr |]; [| exact Hw].
  rewrite !bind_eq. unfold modify, ret. cbn [fst snd mem].
  apply ent_set_processes; [| exact Hw].
  rewrite map_mutate_keys. apply Hw.
Qed.

Lemma ent_updateFile i u :
  triple (entities ks fks np) (updateFile i u)
         (fun _ s => entities ks fks np s).
Proof.
  intros w Hw. unfold updateFile. rewrite bind_eq. unfold gets.
  cbn [fst snd].
  destruct (map_get String.eqb i (files (mem w))) as [fl |]; [| exact Hw].
  rewrite !bind_eq. unfold modify, ret. cbn [fst snd mem].
  apply ent_set_files; [| exact Hw].
  rewrite map_mutate_keys. apply Hw.
Qed.

Lemma getHealth_mem w : mem (snd (getHealth E w)) = mem w.
Proof. reflexivity. Qed.

Lemma ent_initializeSystem :
  triple (entities ks fks np) (initializeSystem E)
         (fun _ s => entities ks fks np s).
Proof.
  intros w Hw. unfold initializeSystem. rewrite bind_eq. unfold gets.
  cbn [fst snd]. destruct Hw as (H1 & H2 & H3 & H4). rewrite H4.
  unfold ret. cbn [snd]. repeat split; assumption.
Qed.

Lemma ent_call c :
  triple (entities ks fks np) (fun w => (tt, call E c w))
         (fun _ s => entities ks fks np s).
Proof.
  intros w Hw. cbn [fst snd]. destruct c; cbn [call].
  - apply ent_driftTick, Hw.
  - apply ent_injectFaults, Hw.
  - apply ent_healFaults, Hw.
  - apply ent_repairFile, Hw.
  - apply ent_addLog, Hw.
  - apply ent_updateProcess, Hw.
  - apply ent_updateFile, Hw.
  - rewrite getHealth_mem. exact Hw.
  - apply ent_initializeSystem, Hw.
Qed.
End Entities.


(** ** What healing and injection write to the log *)

Lemma slice_last_app {A} (n : nat) (a b : list A) :
  slice_last n (slice_last n a ++ b) = slice_last n (a ++ b).
Proof.
  unfold slice_last. rewrite !length_app, length_skipn.
  set (k := (List.length a - n)%nat).
  replace (skipn k a ++ b) with (skipn k (a ++ b)).
  - rewrite skipn_skipn. f_equal. lia.
  - rewrite skipn_app. replace (k - List.length a)%nat with 0%nat by lia.
    reflexivity.
Qed.

Lemma push_all_closed (es : list LogEntry) : forall buf,
  es <> [] -> push_all es buf = slice_last 100 (buf ++ es).
Proof.
  induction es as [| e es IH]; intros buf Hne; [contradiction |].
  cbn [push_all fold_left]. destruct es as [| e' es].
  - reflexivity.
  - change (fold_left _ (e' :: es) ?b) with (push_all (e' :: es) b).
    rewrite IH by discriminate. rewrite slice_last_app, <- app_assoc.
    reflexivity.
Qed.

Lemma pushed_refl P w : pushed P 0 w w.
Proof. exists []. repeat split. constructor. Qed.

Lemma pushed_trans P n m a b c :
  pushed P n a b -> pushed P m b c -> pushed P (n + m) a c.
Proof.
  intros (e1 & L1 & F1 & H1) (e2 & L2 & F2 & H2). exists (e1 ++ e2).
  split; [rewrite length_app; lia |].
  split; [apply Forall_app; auto |].
  rewrite H2, H1. unfold push_all. now rewrite fold_left_app.
Qed.

Lemma pushed_same_logs P n a b c :
  pushed P n a b -> logs (mem c) = logs (mem b) -> pushed P n a c.
Proof. intros (es & L & F & H) Hc. exists es. rewrite Hc. auto. Qed.

Lemma for_each_value_pushed {K V S} (body : V -> S -> M (V * S))
    (cond : V -> bool) (P : LogEntry -> Prop) (m : list (K * V)) :
  (forall v acc w,
     pushed P (if cond v then 1 else 0) w (snd (body v acc w))) ->
  forall acc w,
    pushed P (List.length (filter cond (map snd m))) w
           (snd (for_each_value body m acc w)).
Proof.
  intros Hb. induction m as [| [k v] m IH]; intros acc w;
    cbn [for_each_value map snd filter].
  - apply pushed_refl.
  - specialize (Hb v acc w). unfold bind.
    destruct (body v acc w) as [[v' acc'] w1]. cbn [snd] in Hb.
    specialize (IH acc' w1).
    destruct (for_each_value body m acc' w1) as [[m' acc''] w2].
    unfold ret. cbn [snd] in *.
    replace (List.length (if cond v then v :: filter cond (map snd m)
                          else filter cond (map snd m)))
      with ((if cond v then 1 else 0)
            + List.length (filter cond (map snd m)))%nat
      by (destruct (cond v); reflexivity).
    eapply pushed_trans; eassumption.
Qed.

Lemma for_processes_pushed {S} (body : Process -> S -> M (Process * S))
    (cond : Process -> bool) (P : LogEntry -> Prop) acc w :
  (forall v a w0,
     pushed P (if cond v then 1 else 0) w0 (snd (body v a w0))) ->
  pushed P (List.length (filter cond (procs w))) w
         (snd (for_processes body acc w)).
Proof.
  intros Hb.
  eapply pushed_same_logs;
    [apply (for_each_value_pushed body cond P (processes (mem w)) Hb acc w) |].
  rewrite for_processes_mem. reflexivity.
Qed.

Lemma for_files_pushed {S} (body : SystemFile -> S -> M (SystemFile * S))
    (cond : SystemFile -> bool) (P : LogEntry -> Prop) acc w :
  (forall v a w0,
     pushed P (if cond v then 1 else 0) w0 (snd (body v a w0))) ->
  pushed P (List.length (filter cond (sysfiles w))) w
         (snd (for_files body acc w)).
Proof.
  intros Hb.
  eapply pushed_same_logs;
    [apply (for_each_value_pushed body cond P (files (mem w)) Hb acc w) |].
  rewrite for_files_mem. reflexivity.
Qed.

Lemma pushed_one (P : LogEntry -> Prop) E log w w0 :
  logs (mem w0) = logs (mem w) -> P (new_entry E log w0) ->
  pushed P 1 w (snd (addLog E log w0)).
Proof.
  intros Hl HP. exists [new_entry E log w0].
  split; [reflexivity | split; [constructor; [exact HP | constructor] |]].
  rewrite addLog_eq. cbn. now rewrite Hl.
Qed.

Lemma heal_crashed_pushed E p acc w :
  pushed (fun e => ltype e = success)
         (if has_status crashed p then 1 else 0) w
         (snd (heal_crashed E p acc w)).
Proof.
  unfold heal_crashed, has_status.
  destruct (status_eqb (status p) crashed); [| apply pushed_refl].
  rewrite !bind_eq. unfold ret. cbn [snd].
  apply pushed_one; reflexivity.
Qed.

Lemma heal_frozen_pushed E p acc w :
  pushed (fun e => ltype e = success)
         (if has_status frozen p then 1 else 0) w
         (snd (heal_frozen E p acc w)).
Proof.
  unfold heal_frozen, has_status.
  destruct (status_eqb (status p) frozen); [| apply pushed_refl].
  rewrite !bind_eq. unfold ret. cbn [snd].
  apply pushed_one; reflexivity.
Qed.

Lemma heal_high_load_pushed E p acc w :
  pushed (fun e => ltype e = success)
         (if has_status high_load p then 1 else 0) w
         (snd (heal_high_load E p acc w)).
Proof.
  unfold heal_high_load, has_status.
  destruct (status_eqb (status p) high_load); [| apply pushed_refl].
  rewrite !bind_eq. unfold ret. cbn [snd].
  apply pushed_one; reflexivity.
Qed.

Lemma heal_corrupted_pushed E f acc w :
  pushed (fun e => ltype e = success)
         (if corrupted f then 1 else 0) w
         (snd (heal_corrupted E f acc w)).
Proof.
  unfold heal_corrupted.
  destruct (corrupted f); [| apply pushed_refl].
  rewrite !bind_eq. unfold ret. cbn [snd].
  apply pushed_one; reflexivity.
Qed.

(** X13. [healFaults] writes one success entry to the log for each heal
    result it returns, and a single informational entry when it returns
    none; nothing else is written. *)
Theorem healFaults_logs (E : Env) (w : World) :
  exists es,
    logs (mem (snd (healFaults E w)))
      = slice_last 100 (logs (mem w) ++ es) /\
    List.length es = Nat.max 1 (List.length (fst (healFaults E w))) /\
    Forall (fun e => ltype e
                     = if (List.length (fst (healFaults E w)) =? 0)%nat
                       then info else success) es.
Proof.
  rewrite healFaults_eq. cbv zeta.
  destruct (for_processes_spec E _ _ _ _ [] w (heal_crashed_spec E))
    as (_ & Ra & _).
  pose proof (for_processes_pushed (heal_crashed E) (has_status crashed)
                _ [] w (heal_crashed_pushed E)) as La.
  set (a := for_processes (heal_crashed E) [] w) in *.
  destruct (for_processes_spec E _ _ _ _ (fst a) (snd a) (heal_frozen_spec E))
    as (_ & Rb & _).
  pose proof (for_processes_pushed (heal_frozen E) (has_status frozen)
                _ (fst a) (snd a) (heal_frozen_pushed E)) as Lb.
  set (b := for_processes (heal_frozen E) (fst a) (snd a)) in *.
  destruct (for_processes_spec E _ _ _ _ (fst b) (snd b)
              (heal_high_load_spec E)) as (_ & Rc & _).
  pose proof (for_processes_pushed (heal_high_load E) (has_status high_load)
                _ (fst b) (snd b) (heal_high_load_pushed E)) as Lc.
  set (c := for_processes (heal_high_load E) (fst b) (snd b)) in *.
  destruct (for_files_spec E _ _ _ _ (fst c) (snd c) (heal_corrupted_spec E))
    as (_ & Rd & _).
  pose proof (for_files_pushed (heal_corrupted E) corrupted
                _ (fst c) (snd c) (heal_corrupted_pushed E)) as Ld.
  set (d := for_files (heal_corrupted E) (fst c) (snd c)) in *.
  pose proof (pushed_trans _ _ _ _ _ _
                (pushed_trans _ _ _ _ _ _
                   (pushed_trans _ _ _ _ _ _ La Lb) Lc) Ld) as Lall.
  assert (Hlen : List.length (fst d)
    = (List.length (filter (has_status crashed) (procs w))
       + List.length (filter (has_status frozen) (procs (snd a)))
       + List.length (filter (has_status high_load) (procs (snd b)))
       + List.length (filter corrupted (sysfiles (snd c))))%nat).
  { rewrite Rd, Rc, Rb, Ra. cbn [app]. rewrite !length_app, !length_map. lia. }
  rewrite <- Hlen in Lall. clear Hlen La Lb Lc Ld Ra Rb Rc Rd.
  destruct Lall as (es & Les & Fes & Hes). cbn [fst snd].
  destruct (List.length (fst d) =? 0)%nat eqn:Hz.
  - apply Nat.eqb_eq in Hz. rewrite Hz in *.
    destruct es; [| discriminate]. unfold push_all in Hes. cbn [fold_left] in Hes.
    eexists [_]. rewrite addLog_eq. cbn [snd mem logs set_logs].
    rewrite Hes. split; [reflexivity | split; [reflexivity |]].
    constructor; [reflexivity | constructor].
  - apply Nat.eqb_neq in Hz. exists es.
    split; [| split; [lia | exact Fes]].
    rewrite Hes. apply push_all_closed. intros ->. apply Hz. rewrite <- Les. reflexivity.
Qed.

Lemma round_logged_none acc w w0 :
  logs (mem w0) = logs (mem w) -> round_logged acc w (Some acc, w0).
Proof.
  intros Hl. exists [], []. rewrite app_nil_r.
  split; [reflexivity | split; [constructor | exact Hl]].
Qed.

Ltac logged_inject :=
  let i := fresh "i" in let target := fresh "target" in
  rewrite bind_eq; unfold gets; cbn [fst snd];
  match goal with |- context [(0 <? ?n)%nat] => destruct (0 <? n)%nat end;
  cbv beta iota; [| apply round_logged_none; reflexivity];
  rewrite bind_eq;
  match goal with |- context [fst (random_index ?E ?n ?w)] =>
    destruct (fst (random_index E n w)) as [i |] end;
  [| exact I];
  match goal with |- context [nth_error ?l i] =>
    destruct (nth_error l i) as [target |] end;
  [| exact I];
  rewrite ?bind_eq, addLog_eq; unfold modify, ret;
  eexists [_], [_];
  split; [reflexivity |]; split; [| reflexivity];
  constructor; [split; reflexivity | constructor].

Lemma inject_crash_logged E acc w :
  round_logged acc w (inject_crash E acc w).
Proof. unfold inject_crash. logged_inject. Qed.

Lemma inject_freeze_logged E acc w :
  round_logged acc w (inject_freeze E acc w).
Proof. unfold inject_freeze. logged_inject. Qed.

Lemma inject_high_load_logged E acc w :
  round_logged acc w (inject_high_load E acc w).
Proof. unfold inject_high_load. logged_inject. Qed.

Lemma inject_corruption_logged E acc w :
  round_logged acc w (inject_corruption E acc w).
Proof. unfold inject_corruption. logged_inject. Qed.

Lemma injectRound_logged E acc w :
  round_logged acc w (injectRound E acc w).
Proof.
  destruct (injectRound_branch E acc w) as [H | [H | [H | [H | H]]]];
    rewrite H.
  - apply (inject_crash_logged E acc (snd (random E w))).
  - apply (inject_freeze_logged E acc (snd (random E w))).
  - apply (inject_high_load_logged E acc (snd (random E w))).
  - apply (inject_corruption_logged E acc (snd (random E w))).
  - apply round_logged_none. reflexivity.
Qed.

Lemma injectRound_returns E acc w :
  random_unit E -> exists faults, fst (injectRound E acc w) = Some faults.
Proof.
  intros Hr.
  destruct (injectRound_outcome E acc w Hr) as [[_ Hn] | [[ft Hp] | Hf]].
  - exists acc. apply Hn.
  - destruct Hp as (m1 & k & t & m2 & f & p' & _ & _ & Ho & _).
    exists (acc ++ [f]). exact Ho.
  - destruct Hf as (m1 & k & t & m2 & f & cs & _ & _ & Ho & _).
    exists (acc ++ [f]). exact Ho.
Qed.

Lemma round_logs E (w : World) faults w' :
  random_unit E ->
  (exists es, Forall2 fault_entry faults es /\
              logs (mem w') = push_all es (logs (mem w))) ->
  exists faults', fst (injectRound E faults w') = Some faults' /\
    exists es, Forall2 fault_entry faults' es /\
               logs (mem (snd (injectRound E faults w')))
               = push_all es (logs (mem w)).
Proof.
  intros Hr (es & Hes & Hl).
  destruct (injectRound_returns E faults w' Hr) as (faults' & Ho).
  pose proof (injectRound_logged E faults w') as Hlog.
  unfold round_logged in Hlog. rewrite Ho in Hlog.
  destruct Hlog as (new & es' & -> & Hnew & Hl').
  exists (faults ++ new). split; [exact Ho |]. exists (es ++ es').
  split; [apply Forall2_app; assumption |].
  rewrite Hl', Hl. unfold push_all. now rewrite fold_left_app.
Qed.

(** X14. Under a well-behaved random source [injectFaults] returns its
    faults and writes one log entry for each of them, in the same order,
    with the category and title of the fault's kind (error for a crash or
    a corruption, warning for a freeze or a high load); when it returns no
    fault it writes a single informational entry.  No fault of the
    category [missing_file] is ever returned. *)
Theorem injectFaults_logs (E : Env) (w : World) :
  random_unit E ->
  exists faults es,
    fst (injectFaults E w) = Some faults /\
    logs (mem (snd (injectFaults E w)))
      = slice_last 100 (logs (mem w) ++ es) /\
    match faults with
    | [] => exists e, es = [e] /\ ltype e = info /\ event e = "Fault Injection"
    | _ :: _ => Forall2 fault_entry faults es
    end.
Proof.
  intros Hr. rewrite injectFaults_eq. cbv zeta.
  set (n := Z.to_nat _).
  destruct (injectLoop_inv2 E
              (fun faults w' =>
                 exists es, Forall2 fault_entry faults es /\
                            logs (mem w') = push_all es (logs (mem w)))
              (fun faults w' H => round_logs E w faults w' Hr H)
              n [] (snd (random E w)))
    as (faults & Ho & es & Hes & Hl).
  { exists []. split; [constructor | reflexivity]. }
  rewrite Ho. exists faults. cbn [fst snd].
  destruct Hes as [| f e faults es Hf Hes].
  - eexists [_]. split; [reflexivity |]. cbn [List.length Nat.eqb].
    rewrite addLog_eq. cbn [snd mem logs set_logs]. rewrite Hl.
    split; [reflexivity |]. eexists. split; [reflexivity |].
    split; reflexivity.
  - exists (e :: es). split; [reflexivity |]. cbn [List.length Nat.eqb].
    split; [| constructor; assumption].
    rewrite Hl. apply push_all_closed. discriminate.
Qed.

Lemma injectFaults_logs_witness :
  exists faults es,
    fst (injectFaults env_tenth (new_MemStorage env_tenth)) = Some faults /\
    logs (mem (snd (injectFaults env_tenth (new_MemStorage env_tenth))))
      = slice_last 100 (logs (mem (new_MemStorage env_tenth)) ++ es) /\
    match faults with
    | [] => exists e, es = [e] /\ ltype e = info /\ event e = "Fault Injection"
    | _ :: _ => Forall2 fault_entry faults es
    end.
Proof.
  apply (injectFaults_logs env_tenth (new_MemStorage env_tenth)).
  intros n. split; vm_compute; [discriminate | reflexivity].
Defined.

(** ** The health snapshot *)

Lemma Qltb_min_100 (c x : Q) : c < 100 -> Qltb c (Qmin 100 x) = Qltb c x.
Proof.
  intros Hc.
  destruct (Qltb c x) eqn:H.
  - apply Qltb_lt in H. apply Qltb_lt.
    destruct (Q.min_spec 100 x) as [[_ ->] | [_ ->]]; assumption.
  - apply Qltb_false in H. apply Qltb_false.
    apply Qle_trans with x; [apply Q.le_min_r | exact H].
Qed.

Lemma filter_length_le {A} (f : A -> bool) (l : list A) :
  (List.length (filter f l) <= List.length l)%nat.
Proof.
  induction l as [| x l IH]; simpl; [lia |]. destruct (f x); simpl; lia.
Qed.

(** X15. [getHealth] reads the store without changing it, and its
    snapshot is consistent with itself: the healthy and faulty counts add
    up to the number of processes, no more files are corrupted than
    exist, both usage figures are at most 100, and the status is the
    classification of the snapshot's own faulty count, corrupted count
    and cpu figure. *)
Theorem getHealth_consistent (E : Env) (w : World) :
  let h := fst (getHealth E w) in
  mem (snd (getHealth E w)) = mem w /\
  totalProcesses h = List.length (procs w) /\
  totalFiles h = List.length (sysfiles w) /\
  (Z.of_nat (healthyProcesses h) + faultyProcesses h
   = Z.of_nat (totalProcesses h))%Z /\
  (0 <= faultyProcesses h)%Z /\
  (corruptedFiles h <= totalFiles h)%nat /\
  cpuUsage h <= 100 /\ memoryUsage h <= 100 /\
  hstatus h = spec_classify (Z.to_nat (faultyProcesses h)) (corruptedFiles h)
                            (cpuUsage h).
Proof.
  unfold getHealth, getProcesses, getFiles, bind, gets, ret, now.
  cbv beta iota zeta
      delta [fst snd hstatus cpuUsage memoryUsage totalProcesses
             totalFiles healthyProcesses faultyProcesses corruptedFiles].
  unfold procs, sysfiles.
  set (ps := map_values (processes (mem w))).
  set (fs := map_values (files (mem w))).
  pose proof (filter_length_le is_running ps) as Hrun.
  split; [reflexivity |]. split; [reflexivity |]. split; [reflexivity |].
  split; [lia |]. split; [lia |].
  split; [apply filter_length_le |].
  split; [apply Q.le_min_l |]. split; [apply Q.le_min_l |].
  unfold spec_classify.
  rewrite !Qltb_min_100 by reflexivity.
  rewrite faulty_as_count, Nat2Z.id.
  rewrite (Z_ltb_of_nat 2), (Z_ltb_of_nat 0).
  reflexivity.
Qed.

Lemma mean_le (c : Q) (l : list Q) :
  0 <= c -> Forall (fun x => x <= c) l -> mean l <= c.
Proof.
  intros Hc Hl. destruct l as [| x l]; [exact Hc |].
  unfold mean. set (xs := x :: l) in *.
  assert (Hs : Qsum xs <= inject_Z (Z.of_nat (List.length xs)) * c).
  { clearbody xs. induction Hl as [| y ys Hy _ IH].
    - unfold Qsum. cbn [fold_right List.length].
      change (inject_Z (Z.of_nat 0)) with 0. lra.
    - cbn [Qsum fold_right List.length].
      rewrite Nat2Z.inj_succ, <- Z.add_1_r, inject_Z_plus.
      change (fold_right Qplus 0 ys) with (Qsum ys).
      change (inject_Z 1) with 1. lra. }
  assert (Hn : 0 < inject_Z (Z.of_nat (List.length xs))).
  { change 0 with (inject_Z 0). rewrite <- Zlt_Qlt.
    unfold xs. cbn [List.length]. lia. }
  apply Qle_shift_div_r; [exact Hn |]. lra.
Qed.

Lemma getHealth_when_healthy (E : Env) (w : World) :
  Forall (fun p => status p = running) (procs w) ->
  Forall (fun f => corrupted f = false) (sysfiles w) ->
  Forall (fun p => cpu p <= 60) (procs w) ->
  hstatus (fst (getHealth E w)) = healthy /\
  faultyProcesses (fst (getHealth E w)) = 0%Z /\
  corruptedFiles (fst (getHealth E w)) = 0%nat.
Proof.
  intros Hrun Hfile Hcpu.
  unfold getHealth, getProcesses, getFiles, bind, gets, ret, now.
  cbv beta iota zeta
      delta [fst hstatus faultyProcesses corruptedFiles].
  unfold procs, sysfiles in *.
  set (ps := map_values (processes (mem w))) in *.
  set (fs := map_values (files (mem w))) in *.
  assert (Hf : filter is_faulty ps = []).
  { clearbody ps. induction Hrun as [| p ps Hp _ IH]; [reflexivity |].
    cbn [filter]. unfold is_faulty at 1, is_running. rewrite Hp. cbn.
    apply IH. now inversion Hcpu. }
  assert (Hc : filter corrupted fs = []).
  { clearbody fs. induction Hfile as [| f fs Hx _ IH]; [reflexivity |].
    cbn [filter]. rewrite Hx. exact IH. }
  assert (Hm : Qltb 60 (mean (map cpu ps)) = false).
  { apply Qltb_false. apply mean_le; [lra |].
    clearbody ps. clear -Hcpu. induction Hcpu; constructor; assumption. }
  assert (Hm' : Qltb 80 (mean (map cpu ps)) = false).
  { apply Qltb_false. apply Qltb_false in Hm. lra. }
  rewrite faulty_as_count, Hf, Hc.
  rewrite (Qltb_proper 80 _ _ (avg_cpu_mean ps)), Hm'.
  rewrite (Qltb_proper 60 _ _ (avg_cpu_mean ps)), Hm.
  cbn. auto.
Qed.

Lemma healed_thrice_cpu E (p0 p1 p2 p3 : Process) :
  random_unit E -> calm p0 ->
  healed (has_status crashed) (restarted E) p0 p1 ->
  healed (has_status frozen) unfrozen p1 p2 ->
  healed (has_status high_load) (optimized E) p2 p3 ->
  cpu p3 <= 60.
Proof.
  intros Hr Hcalm H1 H2 H3.
  unfold healed, restarted, unfrozen, optimized in *.
  rewrite !has_status_true in *.
  assert (Hno : forall s p, has_status s p = false -> status p <> s).
  { intros s p Hf Hs. apply has_status_true in Hs. congruence. }
  destruct H3 as [[_ (_ & _ & Hc)] | [C3 ->]].
  { destruct (Hc Hr) as [[_ Hle] _]. lra. }
  apply Hno in C3.
  destruct H2 as [[C2 (_ & _ & Hc2 & _)] | [C2 ->]].
  - rewrite Hc2.
    destruct H1 as [[_ (S1 & _)] | [C1 ->]]; [congruence |].
    destruct Hcalm as [Hs | [Hs | Hle]]; [congruence | congruence | exact Hle].
  - destruct H1 as [[_ (_ & _ & Hc)] | [C1 ->]].
    + destruct (Hc Hr) as [[_ Hle] _]. lra.
    + apply Hno in C1.
      destruct Hcalm as [Hs | [Hs | Hle]];
        [congruence | congruence | exact Hle].
Qed.

Lemma three_passes_cpu E (m0 m1 m2 m3 : list (Z * Process)) :
  random_unit E -> Forall calm (map snd m0) ->
  pass_rel (has_status crashed) (restarted E) m0 m1 ->
  pass_rel (has_status frozen) unfrozen m1 m2 ->
  pass_rel (has_status high_load) (optimized E) m2 m3 ->
  Forall (fun p => cpu p <= 60) (map snd m3).
Proof.
  intros Hr Hcalm H1. revert m2 m3.
  induction H1 as [| [k0 p0] [k1 p1] m0 m1 [_ Hp1] _ IH];
    intros m2 m3 H2 H3.
  - inversion H2; subst. inversion H3; subst. constructor.
  - inversion H2 as [| ? [k2 p2] ? m2' [_ Hp2] H2' ]; subst.
    inversion H3 as [| ? [k3 p3] ? m3' [_ Hp3] H3' ]; subst.
    cbn [map snd] in *. inversion Hcalm as [| ? ? Hc0 Hc]; subst.
    constructor.
    + exact (healed_thrice_cpu E p0 p1 p2 p3 Hr Hc0 Hp1 Hp2 Hp3).
    + exact (IH Hc _ _ H2' H3').
Qed.

Lemma healFaults_calm (E : Env) (w : World) :
  random_unit E -> Forall calm (procs w) ->
  Forall (fun p => cpu p <= 60) (procs (snd (healFaults E w))).
Proof.
  intros Hr Hcalm. rewrite healFaults_eq. cbv zeta.
  destruct (for_processes_spec E _ _ _ _ [] w (heal_crashed_spec E))
    as (Pa & _ & _ & _).
  set (a := for_processes (heal_crashed E) [] w) in *.
  destruct (for_processes_spec E _ _ _ _ (fst a) (snd a) (heal_frozen_spec E))
    as (Pb & _ & _ & _).
  set (b := for_processes (heal_frozen E) (fst a) (snd a)) in *.
  destruct (for_processes_spec E _ _ _ _ (fst b) (snd b)
              (heal_high_load_spec E)) as (Pc & _ & _ & _).
  set (c := for_processes (heal_high_load E) (fst b) (snd b)) in *.
  destruct (for_files_spec E _ _ _ _ (fst c) (snd c) (heal_corrupted_spec E))
    as (_ & _ & Pd & _).
  set (d := for_files (heal_corrupted E) (fst c) (snd c)) in *.
  pose proof (three_passes_cpu E _ _ _ _ Hr Hcalm Pa Pb Pc) as Hcpu.
  cbn [snd]. unfold procs, map_values.
  assert (Hw : forall w', frame E (snd d) w' ->
            Forall (fun p => cpu p <= 60) (map snd (processes (mem w')))).
  { intros w' (Hp & _). rewrite Hp, Pd. exact Hcpu. }
  destruct (_ =? _)%nat; apply Hw; [apply frame_addLog | apply frame_refl].
Qed.

(** X16. When every process that is neither crashed nor overloaded has a
    cpu of at most 60, [getHealth] reports a healthy system right after
    [healFaults], with no faulty process and no corrupted file. *)
Theorem healFaults_then_healthy (E : Env) (w : World) :
  random_unit E -> Forall calm (procs w) ->
  let h := fst (getHealth E (snd (healFaults E w))) in
  hstatus h = healthy /\ faultyProcesses h = 0%Z /\ corruptedFiles h = 0%nat.
Proof.
  intros Hr Hcalm.
  destruct (healFaults_nominal E w) as [Hrun Hfile].
  apply getHealth_when_healthy;
    [exact Hrun | exact Hfile | exact (healFaults_calm E w Hr Hcalm)].
Qed.

Lemma healFaults_then_healthy_witness :
  let w := snd (injectFaults env_tenth (new_MemStorage env_tenth)) in
  let h := fst (getHealth env_tenth (snd (healFaults env_tenth w))) in
  hstatus h = healthy /\ faultyProcesses h = 0%Z /\ corruptedFiles h = 0%nat.
Proof.
  apply (healFaults_then_healthy env_tenth
           (snd (injectFaults env_tenth (new_MemStorage env_tenth)))).
  - intros n. split; vm_compute; [discriminate | reflexivity].
  - vm_compute.
    repeat (apply Forall_cons;
            [first [left; reflexivity | right; right; discriminate] |]).
    apply Forall_nil.
Defined.

(** ** Reading the log back *)

Lemma slice_last_slice {A} (n m : nat) (l : list A) :
  (n <= m)%nat -> slice_last n (slice_last m l) = slice_last n l.
Proof.
  intros H. unfold slice_last. rewrite length_skipn, skipn_skipn.
  f_equal. lia.
Qed.

Lemma slice_last_snoc {A} (n : nat) (l : list A) (e : A) :
  slice_last (S n) (l ++ [e]) = slice_last n l ++ [e].
Proof.
  unfold slice_last. rewrite length_app, skipn_app. cbn [List.length].
  replace (List.length l + 1 - S n)%nat with (List.length l - n)%nat by lia.
  replace (List.length l - n - List.length l)%nat with 0%nat by lia.
  reflexivity.
Qed.

(** X17. The entry [addLog] returns carries the caller's category, title
    and description, and [getLogs] then returns it first, followed by the
    49 entries it returned first before. *)
Theorem addLog_then_getLogs (E : Env) (log : InsertLog) (w : World) :
  let e := fst (addLog E log w) in
  ltype e = i_type log /\ event e = i_event log /\
  description e = i_description log /\
  fst (getLogs (snd (addLog E log w))) = e :: firstn 49 (fst (getLogs w)).
Proof.
  rewrite addLog_eq. cbv zeta. cbn [fst snd].
  split; [reflexivity |]. split; [reflexivity |]. split; [reflexivity |].
  unfold getLogs. rewrite !bind_eq. unfold gets, ret.
  cbn [fst snd mem logs set_logs].
  set (l := logs (mem w)). set (e := new_entry E log w).
  rewrite slice_last_slice by lia. rewrite slice_last_snoc.
  rewrite rev_app_distr. cbn [rev app]. f_equal.
  rewrite firstn_rev. f_equal.
  change (skipn (List.length (slice_last 50 l) - 49) (slice_last 50 l))
    with (slice_last 49 (slice_last 50 l)).
  symmetry. apply slice_last_slice. lia.
Qed.

(** ** The update route *)

Lemma keyed_map_mutate {K V} (keq : K -> K -> bool) (key_of : V -> K)
    (k : K) (f : V -> V) (m : list (K * V)) :
  (forall v, key_of (f v) = key_of v) ->
  keyed key_of m -> keyed key_of (map_mutate keq k f m).
Proof.
  intros Hf [Hnd Hk]. split.
  - rewrite map_mutate_keys. exact Hnd.
  - clear Hnd. induction Hk as [| [k1 v1] m Hv Hk IH]; cbn; [constructor |].
    cbn [fst snd] in Hv.
    destruct (keq k k1); constructor; cbn [fst snd].
    + now rewrite Hf.
    + exact Hk.
    + exact Hv.
    + exact IH.
Qed.

Lemma map_get_split {K V} (keq : K -> K -> bool)
    (keq_eq : forall a b, keq a b = true <-> a = b)
    (k : K) (m : list (K * V)) (v : V) :
  map_get keq k m = Some v -> exists m1 m2, m = m1 ++ (k, v) :: m2.
Proof.
  induction m as [| [k1 v1] m IH]; cbn; [discriminate |].
  destruct (keq k k1) eqn:Hk.
  - intros [= ->]. apply keq_eq in Hk. subst k1. now exists [], m.
  - intros Hg. destruct (IH Hg) as (m1 & m2 & ->).
    now exists ((k1, v1) :: m1), m2.
Qed.

Lemma updateProcess_without_pid (p : Z) (body : PartialProcess) (w : World) :
  keys_ok w ->
  keys_ok (snd (updateProcess p (without_pid body) w)) /\
  map fst (processes (mem (snd (updateProcess p (without_pid body) w))))
    = map fst (processes (mem w)) /\
  match fst (updateProcess p (without_pid body) w) with
  | Some p' =>
      pid p' = p /\
      map_get Z.eqb p
        (processes (mem (snd (updateProcess p (without_pid body) w))))
      = Some p'
  | None =>
      mem (snd (updateProcess p (without_pid body) w)) = mem w /\
      map_get Z.eqb p (processes (mem w)) = None
  end.
Proof.
  intros [Hp Hf]. unfold updateProcess. rewrite bind_eq. unfold gets.
  cbn [fst snd].
  destruct (map_get Z.eqb p (processes (mem w))) as [pr |] eqn:Hget.
  - rewrite bind_eq. unfold modify, ret.
    cbn [fst snd mem processes files set_processes].
    split; [split; [| exact Hf] |].
    { cbn [mem processes set_processes].
      apply keyed_map_mutate; [reflexivity | exact Hp]. }
    split; [apply map_mutate_keys |].
    split.
    + cbn [assign_process without_pid u_pid or_else pid].
      destruct (map_get_split Z.eqb Z.eqb_eq _ _ _ Hget) as (m1 & m2 & Hm).
      rewrite Hm in Hp. apply (keyed_lookup Z.eqb pid Z.eqb_eq) in Hp.
      apply Hp.
    + rewrite (map_get_mutate Z.eqb Z.eqb_eq), Z.eqb_refl, Hget.
      reflexivity.
  - unfold ret. cbn [fst snd]. split; [split; assumption |].
    split; [reflexivity | split; reflexivity].
Qed.

(** X18. The update route never moves a process to another key: it strips
    the pid off the body before overlaying it, so the keys of the process
    map stay as they are and every process stays filed under its own pid.
    It answers 400 without a pid (or with pid 0), 404 when no process has
    the pid, both without touching the store, and otherwise sends the
    updated process, which is the one then found under that pid. *)
Theorem route_update_process_reply (body : PartialProcess) (w : World) :
  keys_ok w ->
  let out := route_update_process body w in
  keys_ok (snd out) /\
  map fst (processes (mem (snd out))) = map fst (processes (mem w)) /\
  match fst out with
  | Sent p' =>
      u_pid body = Some (pid p') /\ pid p' <> 0%Z /\
      map_get Z.eqb (pid p') (processes (mem (snd out))) = Some p'
  | Refused code _ =>
      mem (snd out) = mem w /\
      match u_pid body with
      | None => code = 400%nat
      | Some p =>
          if (p =? 0)%Z then code = 400%nat
          else code = 404%nat /\
               map_get Z.eqb p (processes (mem w)) = None
      end
  end.
Proof.
  intros Hk. cbv zeta. unfold route_update_process.
  destruct (u_pid body) as [p |] eqn:Hpid;
    [| unfold ret; cbn [fst snd]; auto].
  destruct (Z.eqb_spec p 0) as [Hz | Hz];
    [unfold ret; cbn [fst snd]; auto |].
  rewrite bind_eq.
  destruct (updateProcess_without_pid p body w Hk) as (Hk' & Hkeys & Hres).
  destruct (fst (updateProcess p (without_pid body) w)) as [p' |];
    unfold ret; cbn [fst snd].
  - destruct Hres as [Hp' Hget]. rewrite Hp'.
    split; [exact Hk' | split; [exact Hkeys |]].
    split; [reflexivity | split; [exact Hz | exact Hget]].
  - destruct Hres as [Hmem Hget].
    split; [exact Hk' | split; [exact Hkeys |]].
    split; [exact Hmem |].
    destruct (Z.eqb_spec p 0); [contradiction |].
    split; [reflexivity | exact Hget].
Qed.

Lemma route_update_process_reply_witness :
  let body := mkPartial (Some 1002%Z) None None (Some 50) None None in
  let out := route_update_process body (new_MemStorage env_tenth) in
  keys_ok (snd out) /\
  map fst (processes (mem (snd out)))
    = map fst (processes (mem (new_MemStorage env_tenth))) /\
  match fst out with
  | Sent p' =>
      u_pid body = Some (pid p') /\ pid p' <> 0%Z /\
      map_get Z.eqb (pid p') (processes (mem (snd out))) = Some p'
  | Refused code _ =>
      mem (snd out) = mem (new_MemStorage env_tenth) /\
      match u_pid body with
      | None => code = 400%nat
      | Some p =>
          if (p =? 0)%Z then code = 400%nat
          else code = 404%nat /\
               map_get Z.eqb p (processes (mem (new_MemStorage env_tenth)))
               = None
      end
  end.
Proof.
  apply (route_update_process_reply
           (mkPartial (Some 1002%Z) None None (Some 50) None None)
           (new_MemStorage env_tenth)).
  apply (new_MemStorage_ok env_tenth).
Defined.

(** ** Injection on any store *)

Lemma filter_has {A} (f : A -> bool) (l1 l2 : list A) (x : A) :
  f x = true -> filter f (l1 ++ x :: l2) <> [].
Proof.
  intros Hx H. rewrite filter_app in H. cbn [filter] in H. rewrite Hx in H.
  apply app_eq_nil in H. destruct H as [_ H]. discriminate H.
Qed.

Lemma round_exhausted E (w : World) faults w' :
  random_unit E ->
  filter is_running (procs w) = [] ->
  filter is_healthy_file (sysfiles w) = [] ->
  faults = [] /\ mem w' = mem w ->
  exists faults', fst (injectRound E faults w') = Some faults' /\
    (faults' = [] /\ mem (snd (injectRound E faults w')) = mem w).
Proof.
  intros Hr Hp Hf [-> Hm].
  destruct (injectRound_outcome E [] w' Hr) as [[_ Hn] | [[ft Hx] | Hx]].
  - destruct Hn as (Ho & Hm' & _). exists []. split; [exact Ho |].
    split; [reflexivity | now rewrite Hm'].
  - exfalso. destruct Hx as (m1 & k & t & m2 & f & p' & Hps & Ht & _).
    unfold procs, map_values in Hp. rewrite <- Hm, Hps, map_app in Hp.
    cbn [map snd] in Hp. exact (filter_has _ _ _ _ Ht Hp).
  - exfalso. destruct Hx as (m1 & k & t & m2 & f & cs & Hfs & Ht & _).
    unfold sysfiles, map_values in Hf. rewrite <- Hm, Hfs, map_app in Hf.
    cbn [map snd] in Hf. refine (filter_has _ _ _ _ _ Hf).
    unfold is_healthy_file. now rewrite Ht.
Qed.



(** X20. The fault-injection route on any store whose entities are filed
    under their own ids: under a well-behaved random source it never
    answers 500; it sends at most three faults, at least one when some
    process is running and some file is intact, and every fault it sends
    names an entity that is then in the state of the fault's category. *)
Theorem route_detect_faults_reply (E : Env) (w : World) :
  random_unit E -> keys_ok w ->
  exists faults,
    fst (route_detect_faults E w) = Sent faults /\
    (List.length faults <= 3)%nat /\
    (filter is_running (procs w) <> [] ->
     filter is_healthy_file (sysfiles w) <> [] ->
     (1 <= List.length faults)%nat) /\
    forallb (fault_reflected (snd (route_detect_faults E w))) faults = true.
Proof.
  intros Hr Hk.
  destruct (injectFaults_spec E w Hr (conj Hk eq_refl))
    as (faults & Ho & [_ Hi] & Hle & Hge).
  exists faults. unfold route_detect_faults. rewrite bind_eq, Ho.
  unfold ret. cbn [fst snd].
  split; [reflexivity | split; [exact Hle | split; [exact Hge | exact Hi]]].
Qed.

Lemma route_detect_faults_reply_witness :
  exists faults,
    fst (route_detect_faults env_tenth (new_MemStorage env_tenth))
      = Sent faults /\
    (List.length faults <= 3)%nat /\
    (filter is_running (procs (new_MemStorage env_tenth)) <> [] ->
     filter is_healthy_file (sysfiles (new_MemStorage env_tenth)) <> [] ->
     (1 <= List.length faults)%nat) /\
    forallb (fault_reflected
               (snd (route_detect_faults env_tenth
                       (new_MemStorage env_tenth)))) faults = true.
Proof.
  apply (route_detect_faults_reply env_tenth (new_MemStorage env_tenth)).
  - intros n. split; vm_compute; [discriminate | reflexivity].
  - apply (new_MemStorage_ok env_tenth).
Defined.

(** ** What healing leaves alone *)

Lemma pass_rel_get {K V} (keq : K -> K -> bool) (cond : V -> bool)
    (post : V -> V -> Prop) (m m' : list (K * V)) (k : K) (v : V) :
  pass_rel cond post m m' -> map_get keq k m = Some v ->
  exists v', map_get keq k m' = Some v' /\ healed cond post v v'.
Proof.
  induction 1 as [| [k0 v0] [k1 v1] m m' [Hk Hv] _ IH]; cbn;
    [discriminate |].
  cbn [fst snd] in Hk, Hv. subst k1.
  destruct (keq k k0); [| exact IH].
  intros [= ->]. exists v1. split; [reflexivity | exact Hv].
Qed.

Lemma healed_spares {V} (cond : V -> bool) post (v v' : V) :
  healed cond post v v' -> cond v = false -> v' = v.
Proof. intros [[Hc _] | [_ ->]] Hf; [congruence | reflexivity]. Qed.

(** X21. [healFaults] leaves alone what needs no healing: a process that
    is running and a file that is intact are found unchanged, field for
    field, under the same key after the call. *)
Theorem healFaults_spares_healthy (E : Env) (w : World) :
  (forall k p, map_get Z.eqb k (processes (mem w)) = Some p ->
               status p = running ->
               map_get Z.eqb k (processes (mem (snd (healFaults E w))))
               = Some p) /\
  (forall k f, map_get String.eqb k (files (mem w)) = Some f ->
               corrupted f = false ->
               map_get String.eqb k (files (mem (snd (healFaults E w))))
               = Some f).
Proof.
  rewrite healFaults_eq. cbv zeta.
  destruct (for_processes_spec E _ _ _ _ [] w (heal_crashed_spec E))
    as (Pa & _ & Fa & _).
  set (a := for_processes (heal_crashed E) [] w) in *.
  destruct (for_processes_spec E _ _ _ _ (fst a) (snd a) (heal_frozen_spec E))
    as (Pb & _ & Fb & _).
  set (b := for_processes (heal_frozen E) (fst a) (snd a)) in *.
  destruct (for_processes_spec E _ _ _ _ (fst b) (snd b)
              (heal_high_load_spec E)) as (Pc & _ & Fc & _).
  set (c := for_processes (heal_high_load E) (fst b) (snd b)) in *.
  destruct (for_files_spec E _ _ _ _ (fst c) (snd c) (heal_corrupted_spec E))
    as (Pd & _ & Fd & _).
  set (d := for_files (heal_corrupted E) (fst c) (snd c)) in *.
  cbn [snd].
  assert (Hw : forall w', frame E (snd d) w' ->
    (forall k p, map_get Z.eqb k (processes (mem w)) = Some p ->
                 status p = running ->
                 map_get Z.eqb k (processes (mem w')) = Some p) /\
    (forall k f, map_get String.eqb k (files (mem w)) = Some f ->
                 corrupted f = false ->
                 map_get String.eqb k (files (mem w')) = Some f)).
  { intros w' (Hp & Hf & _). rewrite Hp, Hf, Fd. split.
    - intros k p Hg Hs.
      assert (Hno : forall s, s <> running -> has_status s p = false).
      { intros s Hne. destruct (has_status s p) eqn:Hh; [| reflexivity].
        apply has_status_true in Hh. congruence. }
      destruct (pass_rel_get Z.eqb _ _ _ _ k p Pa Hg) as (p1 & G1 & H1).
      apply healed_spares in H1; [| apply Hno; discriminate]. subst p1.
      destruct (pass_rel_get Z.eqb _ _ _ _ k p Pb G1) as (p2 & G2 & H2).
      apply healed_spares in H2; [| apply Hno; discriminate]. subst p2.
      destruct (pass_rel_get Z.eqb _ _ _ _ k p Pc G2) as (p3 & G3 & H3).
      apply healed_spares in H3; [| apply Hno; discriminate]. subst p3.
      exact G3.
    - intros k f Hg Hc. rewrite <- Fa, <- Fb, <- Fc in Hg.
      destruct (pass_rel_get String.eqb _ _ _ _ k f Pd Hg) as (f1 & G1 & H1).
      apply healed_spares in H1; [| exact Hc]. subst f1. exact G1. }
  destruct (_ =? _)%nat; apply Hw; [apply frame_addLog | apply frame_refl].
Qed.

Lemma healFaults_spares_healthy_witness :
  let w := snd (injectFaults env_tenth (new_MemStorage env_tenth)) in
  exists p,
    map_get Z.eqb 1002%Z (processes (mem w)) = Some p /\
    map_get Z.eqb 1002%Z (processes (mem (snd (healFaults env_tenth w))))
    = Some p.
Proof.
  cbv zeta. eexists. split; [vm_compute; reflexivity |].
  apply (proj1 (healFaults_spares_healthy env_tenth
                  (snd (injectFaults env_tenth (new_MemStorage env_tenth))))).
  - vm_compute. reflexivity.
  - reflexivity.
Defined.

(** ** The full snapshot *)

Lemma getProcesses_eq (w : World) : getProcesses w = (procs w, w).
Proof. reflexivity. Qed.

Lemma getFiles_eq (w : World) : getFiles w = (sysfiles w, w).
Proof. reflexivity. Qed.

Lemma getLogs_eq (w : World) :
  getLogs w = (rev (slice_last 50 (logs (mem w))), w).
Proof. reflexivity. Qed.

Lemma getHealth_counts (E : Env) (w : World) :
  mem (snd (getHealth E w)) = mem w /\
  totalProcesses (fst (getHealth E w)) = List.length (procs w) /\
  healthyProcesses (fst (getHealth E w))
    = List.length (filter is_running (procs w)) /\
  totalFiles (fst (getHealth E w)) = List.length (sysfiles w) /\
  corruptedFiles (fst (getHealth E w))
    = List.length (filter corrupted (sysfiles w)).
Proof. repeat split. Qed.


(** ** Checksums *)

Lemma str_take_length (n : nat) : forall s,
  String.length (str_take n s) = Nat.min n (String.length s).
Proof.
  induction n as [| n IH]; intros [| c s]; cbn; try reflexivity.
  now rewrite IH.
Qed.

Lemma str_take_chars (n : nat) : forall s c,
  In c (list_ascii_of_string (str_take n s)) ->
  In c (list_ascii_of_string s).
Proof.
  induction n as [| n IH]; intros [| c0 s] c; cbn; try contradiction.
  intros [-> | H]; [now left | right; now apply IH].
Qed.

Lemma remove_dashes_chars (s : string) (c : ascii) :
  In c (list_ascii_of_string (remove_dashes s)) <->
  In c (list_ascii_of_string s) /\ c <> "-"%char.
Proof.
  induction s as [| c0 s IH]; cbn; [tauto |].
  destruct (Ascii.eqb_spec c0 "-"%char) as [-> | Hne]; cbn; rewrite IH.
  - split; [tauto |]. intros [[<- | H] Hc]; [contradiction | tauto].
  - split.
    + intros [<- | [H Hc]]; [tauto | tauto].
    + intros [[<- | H] Hc]; [now left | tauto].
Qed.

(** X23. A checksum drawn by [generateChecksum] is the identifier with
    its dashes removed, cut to 32 characters: it has at most 32
    characters (exactly 32 when the identifier has that many besides
    dashes), none of them a dash and all of them from the identifier, and
    it uses up one identifier. *)
Theorem generateChecksum_shape (E : Env) (w : World) :
  let u := randomUUID E (uuid_calls w) in
  let c := fst (generateChecksum E w) in
  String.length c = Nat.min 32 (String.length (remove_dashes u)) /\
  (forall ch, In ch (list_ascii_of_string c) ->
              In ch (list_ascii_of_string u) /\ ch <> "-"%char) /\
  mem (snd (generateChecksum E w)) = mem w /\
  uuid_calls (snd (generateChecksum E w)) = S (uuid_calls w).
Proof.
  unfold generateChecksum. rewrite bind_eq. unfold uuid, ret.
  cbv zeta. cbn [fst snd mem uuid_calls].
  split; [apply str_take_length |]. split; [| split; reflexivity].
  intros ch Hin. apply remove_dashes_chars. eapply str_take_chars. exact Hin.
Qed.
